(** * Alchemy: job queue, request layer, model manager and semantic chunker

    A shallow embedding of [alchemy/queue/worker.py] (the [Job] record, the
    [JobQueue] execution routine, dispatcher, [run_sync], [get_job] and the
    worker loop), of [alchemy/utils/chunker.py] ([SemanticChunker]), of
    [alchemy/models/manager.py] (the start-up of the [ModelManager]), of the
    routes of [server.py] that submit jobs and poll them, and of two helpers
    of the parsers (the time stamps of [alchemy/parsers/media.py], the URL
    fix of [alchemy/parsers/web.py]), together with the properties of the
    specification that concern them and further properties of the code. *)

From Stdlib Require Import ZArith Lia PrimFloat.
From Stdlib Require FloatOps SpecFloat.
From stdpp Require Import gmap strings list pretty.

Local Open Scope Z_scope.

(** ** Part I: the job queue ([alchemy/queue/worker.py]) *)

Module Queue.

Local Open Scope string_scope.

(** [alchemy.schemas.JobStatus]. *)
Inductive JobStatus := PENDING | RUNNING | DONE | FAILED.

#[export] Instance JobStatus_eq_dec : EqDecision JobStatus.
Proof. solve_decision. Defined.

(** Payload values ([dict[str, Any]]): the values the request layer puts in
    a payload and the defaults the dispatcher supplies. *)
#[warnings="-register-all"]
Inductive pyval :=
| PyNone
| PyBool (b : bool)
| PyInt (z : Z)
| PyStr (s : string)
| PyBytes (s : string)
| PyDict (kv : list (string * pyval)).

(** What awaiting a coroutine can do: return a value, raise an exception
    deriving from [Exception] (of which only [str(e)] is ever used), or let
    an exception escape that derives from [BaseException] only (task
    cancellation, interpreter exit), which [except Exception] does not
    catch. *)
Inductive outcome (A : Type) :=
| Returned (a : A)
| Raised (msg : string)
| Escaped.
Arguments Returned {A} a.
Arguments Raised {A} msg.
Arguments Escaped {A}.

(** Sequencing: the first outcome that is not a return ends the evaluation. *)
#[export] Instance outcome_ret : MRet outcome := fun A a => Returned a.
#[export] Instance outcome_bind : MBind outcome := fun A B k o =>
  match o with
  | Returned a => k a
  | Raised msg => Raised msg
  | Escaped => Escaped
  end.

(** [p[k]]: a missing key raises [KeyError(k)], whose [str] is [repr(k)]. *)
Definition getitem (p : gmap string pyval) (k : string) : outcome pyval :=
  match p !! k with
  | Some v => Returned v
  | None => Raised ("'" +:+ k +:+ "'")
  end.

(** [p.get(k, default)]. *)
Definition get (p : gmap string pyval) (k : string) (default : pyval) : pyval :=
  match p !! k with
  | Some v => v
  | None => default
  end.

Section WithCapabilities.

(** The value a parser returns ([alchemy.schemas.ParseResponse]); it is built
    by the third-party adapters and only passed through here. *)
Context {ParseResponse : Type}.

(** [Job] (a dataclass; its mutable fields are written by [_execute]). *)
Record Job := mkJob {
  id : string;
  task : string;
  payload : gmap string pyval;
  status : JobStatus;
  result : option ParseResponse;
  error : option string;
  created_at : float;
  completed_at : option float;
}.

(** [Job(id=..., task=..., payload=...)] with the dataclass defaults;
    [now] is what [time.time()] returns in the default factory. *)
Definition new_job (i t : string) (p : gmap string pyval) (now : float) : Job :=
  {| id := i; task := t; payload := p; status := PENDING;
     result := None; error := None; created_at := now; completed_at := None |}.

(** The parsers held by the [ModelManager]: one awaitable per entry point,
    from its keyword arguments to its outcome. *)
Record MediaParser := {
  parse_audio : pyval -> pyval -> pyval -> pyval -> outcome ParseResponse;
  parse_video : pyval -> pyval -> pyval -> pyval -> pyval -> outcome ParseResponse;
}.

Record ModelManager := {
  _document_parser :
    option (pyval -> pyval -> pyval -> pyval -> pyval -> outcome ParseResponse);
  _image_parser :
    option (pyval -> pyval -> pyval -> pyval -> outcome ParseResponse);
  _media_parser : option MediaParser;
  _web_parser :
    option (pyval -> pyval -> pyval -> pyval -> pyval -> outcome ParseResponse);
}.

(** The lazy accessors of [ModelManager]: a parser that was not loaded
    raises [RuntimeError]. *)
Definition document_parser (m : ModelManager) :=
  match _document_parser m with
  | Some p => Returned p
  | None => Raised "Document parser not loaded. Start server with --documents flag."
  end.

Definition image_parser (m : ModelManager) :=
  match _image_parser m with
  | Some p => Returned p
  | None => Raised "Image parser not loaded."
  end.

Definition media_parser (m : ModelManager) :=
  match _media_parser m with
  | Some p => Returned p
  | None => Raised "Media parser not loaded. Start server with --media flag."
  end.

Definition web_parser (m : ModelManager) :=
  match _web_parser m with
  | Some p => Returned p
  | None => Raised "Web parser not loaded. Start server with --web flag."
  end.

Variable _manager : ModelManager.

(** [JobQueue._dispatch]: the [match job.task] statement.  In each case the
    accessor is evaluated first, then the arguments left to right, then the
    call is awaited. *)
Definition _dispatch (job : Job) : outcome ParseResponse :=
  let p := payload job in
  if decide (task job = "parse_document") then
    parser ← document_parser _manager;
    content ← getitem p "content";
    filename ← getitem p "filename";
    parser content filename
      (get p "extract_tables" (PyBool true))
      (get p "extract_images" (PyBool true))
      (get p "output_format" (PyStr "markdown"))
  else if decide (task job = "parse_image") then
    parser ← image_parser _manager;
    content ← getitem p "content";
    filename ← getitem p "filename";
    parser content filename
      (get p "task" (PyStr "detailed_caption"))
      (get p "prompt" PyNone)
  else if decide (task job = "parse_audio") then
    parser ← media_parser _manager;
    content ← getitem p "content";
    filename ← getitem p "filename";
    parse_audio parser content filename
      (get p "language" PyNone)
      (get p "diarize" (PyBool false))
  else if decide (task job = "parse_video") then
    parser ← media_parser _manager;
    content ← getitem p "content";
    filename ← getitem p "filename";
    parse_video parser content filename
      (get p "language" PyNone)
      (get p "diarize" (PyBool false))
      (get p "extract_frames" (PyBool false))
  else if decide (task job = "parse_web") then
    parser ← web_parser _manager;
    url ← getitem p "url";
    parser url
      (get p "max_depth" (PyInt 1))
      (get p "css_selector" PyNone)
      (get p "extraction_schema" PyNone)
      (get p "headers" PyNone)
  else
    Raised ("Unknown task: " +:+ task job).

(** *** The execution routine

    [_execute] mutates the job it is given.  Each assignment to a field of
    the job is an [assign]; a routine is the list of assignments it performs,
    in program order. *)
Inductive assign :=
| SetStatus (s : JobStatus)
| SetResult (r : ParseResponse)
| SetError (e : string)
| SetCompletedAt (t : float).

Definition store (j : Job) (a : assign) : Job :=
  match a with
  | SetStatus s =>
      {| id := id j; task := task j; payload := payload j; status := s;
         result := result j; error := error j; created_at := created_at j;
         completed_at := completed_at j |}
  | SetResult r =>
      {| id := id j; task := task j; payload := payload j; status := status j;
         result := Some r; error := error j; created_at := created_at j;
         completed_at := completed_at j |}
  | SetError e =>
      {| id := id j; task := task j; payload := payload j; status := status j;
         result := result j; error := Some e; created_at := created_at j;
         completed_at := completed_at j |}
  | SetCompletedAt t =>
      {| id := id j; task := task j; payload := payload j; status := status j;
         result := result j; error := error j; created_at := created_at j;
         completed_at := Some t |}
  end.

Definition stores (ws : list assign) (j : Job) : Job := fold_left store ws j.

(** Line 96, up to the suspension point [await self._dispatch(job)]. *)
Definition _execute_begin : list assign := [SetStatus RUNNING].

(** Lines 99-106, once the awaited dispatch has produced [o]: the rest of the
    [try] body, or the [except Exception] handler, and then the [finally]
    block, which runs on every path; [now] is what [time.time()] returns.
    No suspension point lies between these assignments. *)
Definition _execute_resume (o : outcome ParseResponse) (now : float) : list assign :=
  match o with
  | Returned r => [SetResult r; SetStatus DONE]
  | Raised msg => [SetError msg; SetStatus FAILED]
  | Escaped => []
  end ++ [SetCompletedAt now].

(** All assignments of one call of [_execute], in order. *)
Definition _execute_writes (job : Job) (now : float) : list assign :=
  _execute_begin ++ _execute_resume (_dispatch (stores _execute_begin job)) now.

(** [JobQueue._execute]: the job as it is left, and how the call ends (it
    returns [None] unless an uncaught exception escapes). *)
Definition _execute (job : Job) (now : float) : outcome unit * Job :=
  (match _dispatch (stores _execute_begin job) with
   | Escaped => Escaped
   | _ => Returned tt
   end,
   stores (_execute_writes job now) job).

(** *** The queue object

    Jobs are objects: the registry, the FIFO and the callers hold references
    to them, and [_execute] mutates them in place.  [heap] maps an address to
    the object stored there; a new object takes the next free address. *)
Inductive worker_state :=
| LoopHead                (* about to test [while self._running] *)
| Getting                 (* in [await self._queue.get()] *)
| Executing (l : nat)     (* in [await self._execute(job)], suspended in the dispatch *)
| Exited.

Record JobQueue := mkQueue {
  heap : list Job;
  _jobs : gmap string nat;
  _queue : list (option nat);        (* [None] is the shutdown sentinel *)
  _workers : list worker_state;
  _running : bool;
  inline : list nat;                 (* jobs of [run_sync] calls suspended in the dispatch *)
  dispatched : list nat;             (* ghost: the jobs [_dispatch] was called on, oldest first *)
}.

Definition set_heap (q : JobQueue) (h : list Job) : JobQueue :=
  {| heap := h; _jobs := _jobs q; _queue := _queue q; _workers := _workers q;
     _running := _running q; inline := inline q; dispatched := dispatched q |}.

(** [JobQueue(model_manager, max_workers)]. *)
Definition init : JobQueue :=
  {| heap := []; _jobs := ∅; _queue := []; _workers := []; _running := false;
     inline := []; dispatched := [] |}.

(** The caller evaluates [Job(id=i, task=t, payload=p)]. *)
Definition alloc (q : JobQueue) (j : Job) : nat * JobQueue :=
  (length (heap q), set_heap q (heap q ++ [j])).

(** Perform assignments on the object at [l]. *)
Definition mutate (q : JobQueue) (l : nat) (ws : list assign) : JobQueue :=
  match heap q !! l with
  | Some j => set_heap q (<[l := stores ws j]> (heap q))
  | None => q
  end.

(** [self._jobs[job.id] = job]. *)
Definition register (q : JobQueue) (l : nat) : JobQueue :=
  match heap q !! l with
  | Some j =>
      {| heap := heap q; _jobs := <[id j := l]> (_jobs q); _queue := _queue q;
         _workers := _workers q; _running := _running q; inline := inline q;
         dispatched := dispatched q |}
  | None => q
  end.

(** [JobQueue.get_job]: the registered object, as it is now. *)
Definition get_job (q : JobQueue) (job_id : string) : option Job :=
  l ← _jobs q !! job_id; heap q !! l.

(** [JobQueue.queue_size]. *)
Definition queue_size (q : JobQueue) : nat := length (_queue q).

(** [JobQueue.enqueue]; the unbounded [asyncio.Queue] never blocks a put. *)
Definition enqueue (q : JobQueue) (l : nat) : JobQueue :=
  let q1 := register q l in
  {| heap := heap q1; _jobs := _jobs q1; _queue := _queue q1 ++ [Some l];
     _workers := _workers q1; _running := _running q1; inline := inline q1;
     dispatched := dispatched q1 |}.

(** The first half of a call of [_execute] on the object at [l], up to the
    suspension in the dispatch. *)
Definition execute_begin (q : JobQueue) (l : nat) : JobQueue :=
  let q1 := mutate q l _execute_begin in
  {| heap := heap q1; _jobs := _jobs q1; _queue := _queue q1;
     _workers := _workers q1; _running := _running q1; inline := inline q1;
     dispatched := dispatched q1 ++ [l] |}.

(** The second half: the dispatch of the object at [l] has its outcome. *)
Definition execute_resume (q : JobQueue) (l : nat) (now : float) : outcome unit * JobQueue :=
  match heap q !! l with
  | Some j =>
      let o := _dispatch j in
      (match o with Escaped => Escaped | _ => Returned tt end,
       mutate q l (_execute_resume o now))
  | None => (Returned tt, q)
  end.

(** Python truthiness of an [Optional[str]]: [None] and the empty string are
    false. *)
Definition truthy (e : option string) : bool :=
  match e with
  | Some (String _ _) => true
  | _ => false
  end.

(** Lines 69-71 of [run_sync], after [await self._execute(job)] returned:
    [if job.error: raise RuntimeError(job.error)], else [return job.result]. *)
Definition run_sync_return (j : Job) : outcome (option ParseResponse) :=
  if truthy (error j) then Raised (default "" (error j))
  else Returned (result j).

(** [JobQueue.run_sync] when nothing else runs during its await: what the
    call does to the queue object and how it ends.  An exception escaping
    from [_execute] escapes from [run_sync] too. *)
Definition run_sync (q : JobQueue) (l : nat) (now : float)
  : outcome (option ParseResponse) * JobQueue :=
  let q1 := execute_begin (register q l) l in
  let '(o, q2) := execute_resume q1 l now in
  match o, heap q2 !! l with
  | Returned _, Some j => (run_sync_return j, q2)
  | _, _ => (Escaped, q2)
  end.

(** *** The event loop

    The coroutines of the program run interleaved, each one without
    interruption from one suspension point to the next.  An [action] is one
    such uninterrupted stretch.  The request layer always submits an object
    it has just created ([server.py]), so creation and submission are one
    action. *)
Definition set_worker (q : JobQueue) (w : nat) (st : worker_state) : JobQueue :=
  {| heap := heap q; _jobs := _jobs q; _queue := _queue q;
     _workers := <[w := st]> (_workers q); _running := _running q;
     inline := inline q; dispatched := dispatched q |}.

Definition set_queue (q : JobQueue) (fifo : list (option nat)) : JobQueue :=
  {| heap := heap q; _jobs := _jobs q; _queue := fifo; _workers := _workers q;
     _running := _running q; inline := inline q; dispatched := dispatched q |}.

Definition set_inline (q : JobQueue) (ls : list nat) : JobQueue :=
  {| heap := heap q; _jobs := _jobs q; _queue := _queue q; _workers := _workers q;
     _running := _running q; inline := ls; dispatched := dispatched q |}.

(** [JobQueue.start]: the worker tasks are created, none has run yet. *)
Definition start (q : JobQueue) (max_workers : nat) : JobQueue :=
  {| heap := heap q; _jobs := _jobs q; _queue := _queue q;
     _workers := _workers q ++ replicate max_workers LoopHead; _running := true;
     inline := inline q; dispatched := dispatched q |}.

(** [JobQueue.stop], up to [asyncio.gather]: one sentinel per worker. *)
Definition stop (q : JobQueue) : JobQueue :=
  {| heap := heap q; _jobs := _jobs q;
     _queue := _queue q ++ replicate (length (_workers q)) None;
     _workers := _workers q; _running := false;
     inline := inline q; dispatched := dispatched q |}.

(** One stretch of [JobQueue._worker] for worker [w]: the loop test; the
    return of [get] with the head of the FIFO (the worker cannot move while
    the FIFO is empty), which is the sentinel or a job whose execution then
    runs up to its dispatch; the rest of the execution and [task_done].  An
    exception that escapes [_execute] ends the worker
    ([except asyncio.CancelledError: break], or the task dies). *)
Definition worker_step (q : JobQueue) (w : nat) (now : float) : option JobQueue :=
  st ← _workers q !! w;
  match st with
  | LoopHead => Some (set_worker q w (if _running q then Getting else Exited))
  | Getting =>
      match _queue q with
      | [] => None
      | None :: fifo => Some (set_worker (set_queue q fifo) w Exited)
      | Some l :: fifo =>
          Some (set_worker (execute_begin (set_queue q fifo) l) w (Executing l))
      end
  | Executing l =>
      let '(o, q') := execute_resume q l now in
      Some (set_worker q' w (match o with Escaped => Exited | _ => LoopHead end))
  | Exited => None
  end.

Inductive action :=
| Start (max_workers : nat)
| Stop
| Enqueue (i t : string) (p : gmap string pyval) (now : float)
| RunSyncCall (i t : string) (p : gmap string pyval) (now : float)
| RunSyncResume (k : nat) (now : float)   (* the [k]-th suspended call goes on *)
| WorkerStep (w : nat) (now : float).

(** What an action does to the queue object; [None] when it cannot happen. *)
Definition do (a : action) (q : JobQueue) : option JobQueue :=
  match a with
  | Start n => Some (start q n)
  | Stop => Some (stop q)
  | Enqueue i t p now =>
      let '(l, q1) := alloc q (new_job i t p now) in
      Some (enqueue q1 l)
  | RunSyncCall i t p now =>
      let '(l, q1) := alloc q (new_job i t p now) in
      let q2 := execute_begin (register q1 l) l in
      Some (set_inline q2 (inline q2 ++ [l]))
  | RunSyncResume k now =>
      l ← inline q !! k;
      let '(_, q') := execute_resume q l now in
      Some (set_inline q' (delete k (inline q')))
  | WorkerStep w now => worker_step q w now
  end.

Definition step (q q' : JobQueue) : Prop := ∃ a, do a q = Some q'.

Fixpoint run (acts : list action) (q : JobQueue) : option JobQueue :=
  match acts with
  | [] => Some q
  | a :: acts' => q' ← do a q; run acts' q'
  end.

(** The queue objects a program can get to from a new [JobQueue]. *)
Definition reachable (q : JobQueue) : Prop := ∃ acts, run acts init = Some q.

End WithCapabilities.

End Queue.

(** ** Part II: the semantic chunker ([alchemy/utils/chunker.py]) *)

Module Chunker.

(** A Python [str] is a sequence of Unicode code points; [len] counts them. *)
Definition pystr := list N.

(** ASCII literals for examples. *)
Definition str (s : string) : pystr :=
  (fun a => N.of_nat (Ascii.nat_of_ascii a)) <$> String.list_ascii_of_string s.

Definition LF : N := 10%N.
Definition HASH : N := 35%N.

(** [str.isspace] on one code point (CPython's [_PyUnicode_IsWhitespace]);
    [str.strip()] and the pattern [\s] on a [str] both use it. *)
Definition isspace (c : N) : bool :=
  ((9 <=? c) && (c <=? 13) || (28 <=? c) && (c <=? 31) || (c =? 32) || (c =? 133)
   || (c =? 160) || (c =? 5760) || (8192 <=? c) && (c <=? 8202) || (c =? 8232) || (c =? 8233)
   || (c =? 8239) || (c =? 8287) || (c =? 12288))%N.

Fixpoint lstrip (s : pystr) : pystr :=
  match s with
  | c :: s' => if isspace c then lstrip s' else s
  | [] => []
  end.

Definition rstrip (s : pystr) : pystr := reverse (lstrip (reverse s)).

(** [s.strip()]. *)
Definition strip (s : pystr) : pystr := rstrip (lstrip s).

(** Truthiness of a [str] or a list: non-empty. *)
Definition truthy {A} (l : list A) : bool :=
  match l with
  | [] => false
  | _ => true
  end.

(** [s[a:b]] for [0 <= a] and [0 <= b]. *)
Definition slice {A} (s : list A) (a b : nat) : list A := take (b - a) (drop a s).

(** [sep.join(parts)]. *)
Fixpoint join (sep : pystr) (parts : list pystr) : pystr :=
  match parts with
  | [] => []
  | [p] => p
  | p :: rest => p ++ sep ++ join sep rest
  end.

(** *** The regular expressions

    The module uses two patterns, both a sequence of greedy repetitions of a
    one-character class and of the anchors [^] and [$] in [re.MULTILINE]
    mode; some repetitions are capture groups.  The matcher backtracks as
    [re] does: a repetition first takes as many characters as it can and
    gives them back one at a time while the rest of the pattern fails. *)
Inductive item :=
| Bol
| Eol
| Rep (cls : N -> bool) (lo : nat) (hi : option nat) (capture : bool).

Definition at_bol (prev : option N) : bool :=
  match prev with
  | None => true
  | Some c => (c =? LF)%N
  end.

Definition at_eol (s : pystr) : bool :=
  match s with
  | [] => true
  | c :: _ => (c =? LF)%N
  end.

(** How many leading characters of [s] are in [cls], at most [hi]. *)
Fixpoint span (cls : N -> bool) (hi : option nat) (s : pystr) : nat :=
  match s, hi with
  | _, Some O => O
  | c :: s', _ => if cls c then S (span cls (pred <$> hi) s') else O
  | [], _ => O
  end.

(** The first of [f k], [f (k-1)], ..., [f lo] that succeeds. *)
Fixpoint try_down {R} (f : nat -> option R) (lo k : nat) : option R :=
  if (k <? lo)%nat then None
  else match f k with
       | Some r => Some r
       | None => match k with
                 | O => None
                 | S k' => try_down f lo k'
                 end
       end.

(** The character before the position reached after consuming [taken]. *)
Definition prev_after (prev : option N) (taken : pystr) : option N :=
  match last taken with
  | Some c => Some c
  | None => prev
  end.

(** Match [pat] at the start of [s], where [prev] is the character before
    it: the number of characters consumed and the captured groups. *)
Fixpoint match_here (pat : list item) (prev : option N) (s : pystr)
  : option (nat * list pystr) :=
  match pat with
  | [] => Some (O, [])
  | Bol :: pat' => if at_bol prev then match_here pat' prev s else None
  | Eol :: pat' => if at_eol s then match_here pat' prev s else None
  | Rep cls lo hi capture :: pat' =>
      try_down
        (fun k =>
           '(n, gs) ← match_here pat' (prev_after prev (take k s)) (drop k s);
           Some ((k + n)%nat, if capture then take k s :: gs else gs))
        lo (span cls hi s)
  end.

(** A match object: [m.start()], [m.end()] and the groups from 1 on. *)
Record re_match := mkMatch {
  m_start : nat;
  m_end : nat;
  groups : list pystr;
}.

(** The scan of [finditer]: the leftmost match from each position on, the
    next search starting where the match ended ([skip] characters further).
    Both patterns of this module consume at least one character; an empty
    match is reported and the scan moves on by one. *)
Fixpoint scan (pat : list item) (prev : option N) (s : pystr) (pos skip : nat)
  : list re_match :=
  match s with
  | [] =>
      match skip, match_here pat prev [] with
      | O, Some (n, gs) => [mkMatch pos (pos + n) gs]
      | _, _ => []
      end
  | c :: s' =>
      match skip with
      | S k => scan pat (Some c) s' (S pos) k
      | O =>
          match match_here pat prev s with
          | Some (n, gs) =>
              mkMatch pos (pos + n) gs :: scan pat (Some c) s' (S pos) (n - 1)
          | None => scan pat (Some c) s' (S pos) O
          end
      end
  end.

(** [list(pattern.finditer(text))]. *)
Definition finditer (pat : list item) (text : pystr) : list re_match :=
  scan pat None text O O.

Fixpoint split_at (text : pystr) (ms : list re_match) (from : nat) : list pystr :=
  match ms with
  | [] => [slice text from (length text)]
  | m :: ms' => slice text from (m_start m) :: split_at text ms' (m_end m)
  end.

(** [re.split(pattern, text)] for a pattern without capture groups. *)
Definition re_split (pat : list item) (text : pystr) : list pystr :=
  split_at text (finditer pat text) O.

(** [r"^(#{1,3})\s+(.+)$"] with [re.MULTILINE]; [.] is any character but a
    line feed. *)
Definition heading_pattern : list item :=
  [Bol;
   Rep (fun c => (c =? HASH)%N) 1 (Some 3%nat) true;
   Rep isspace 1 None false;
   Rep (fun c => negb (c =? LF)%N) 1 None true;
   Eol].

(** [r"\n\n+"]. *)
Definition blank_lines : list item :=
  [Rep (fun c => (c =? LF)%N) 1 (Some 1%nat) false;
   Rep (fun c => (c =? LF)%N) 1 None false].

(** *** Operations that can raise

    Subscripting a list and asking a match for a group raise [IndexError]
    when out of range; nothing else in the module can raise. *)
Inductive result (A : Type) :=
| Ok (a : A)
| IndexError.
Arguments Ok {A} a.
Arguments IndexError {A}.

#[export] Instance result_ret : MRet result := fun A a => Ok a.
#[export] Instance result_bind : MBind result := fun A B k r =>
  match r with
  | Ok a => k a
  | IndexError => IndexError
  end.

(** [l[i]] for [0 <= i]. *)
Definition getitem {A} (l : list A) (i : nat) : result A :=
  match l !! i with
  | Some x => Ok x
  | None => IndexError
  end.

(** [m.group(n)] for [1 <= n]. *)
Definition group (m : re_match) (n : nat) : result pystr :=
  getitem (groups m) (pred n).

(** A [for] loop whose body can raise. *)
Fixpoint for_each {A S} (xs : list A) (s : S) (body : S -> A -> result S) : result S :=
  match xs with
  | [] => Ok s
  | x :: xs' => s' ← body s x; for_each xs' s' body
  end.

(** [enumerate(l)]. *)
Definition enumerate {A} (l : list A) : list (nat * A) := imap (fun i x => (i, x)) l.

(** [alchemy.schemas.DocumentChunk]. *)
Record DocumentChunk := mkChunk {
  index : Z;
  text : pystr;
  page : option Z;
  section : option pystr;
  tokens : option Z;
}.

(** The body of the loop over the headings in [_split_by_headings]
    (lines 74-79), on the variable [sections]. *)
Definition heading_body (text : pystr) (matches : list re_match)
    (sections : list (option pystr * pystr)) (im : nat * re_match)
  : result (list (option pystr * pystr)) :=
  let '(i, m) := im in
  g ← group m 2;
  let heading := strip g in
  let start := m_end m in
  end_ ← (if (i + 1 <? length matches)%nat
          then m' ← getitem matches (i + 1); Ok (m_start m')
          else Ok (length text));
  let body := strip (slice text start end_) in
  Ok (if truthy body then sections ++ [(Some heading, body)] else sections).

(** [SemanticChunker._split_by_headings]. *)
Definition _split_by_headings (text : pystr) : result (list (option pystr * pystr)) :=
  let matches := finditer heading_pattern text in
  if negb (truthy matches) then Ok [(None, text)]
  else
    m0 ← getitem matches 0;
    let preamble := strip (slice text 0 (m_start m0)) in
    let sections := if truthy preamble then [(None, preamble)] else [] in
    for_each (enumerate matches) sections (heading_body text matches).

(** [SemanticChunker._estimate_tokens]. *)
Definition _estimate_tokens (text : pystr) : Z :=
  Z.max 1 (Z.of_nat (length text) / 4).

Section WithSettings.

(** [SemanticChunker(chunk_size, chunk_overlap)]. *)
Variables chunk_size chunk_overlap : Z.

(** The inner loop of [_sliding_window] (lines 98-103): walk the paragraphs
    of the flushed window from the last one backward and stop at the first
    that does not fit. *)
Fixpoint overlap_loop (rev_paras : list pystr) (overlap_paras : list pystr)
    (overlap_tokens : Z) : list pystr * Z :=
  match rev_paras with
  | [] => (overlap_paras, overlap_tokens)
  | p :: rest =>
      let t := _estimate_tokens p in
      if overlap_tokens + t >? chunk_overlap then (overlap_paras, overlap_tokens)
      else overlap_loop rest (p :: overlap_paras) (overlap_tokens + t)
  end.

(** The variables of the loop of [_sliding_window]. *)
Record window_state := mkWin {
  windows : list pystr;
  current_tokens : Z;
  current_paras : list pystr;
}.

Definition PARA_SEP : pystr := [LF; LF].

(** One iteration of the loop over the paragraphs (lines 91-108). *)
Definition window_step (st : window_state) (para : pystr) : window_state :=
  let para_tokens := _estimate_tokens para in
  let st1 :=
    if (current_tokens st + para_tokens >? chunk_size) && truthy (current_paras st)
    then
      let '(overlap_paras, overlap_tokens) :=
        overlap_loop (reverse (current_paras st)) [] 0 in
      {| windows := windows st ++ [join PARA_SEP (current_paras st)];
         current_tokens := overlap_tokens;
         current_paras := overlap_paras |}
    else st in
  {| windows := windows st1;
     current_tokens := current_tokens st1 + para_tokens;
     current_paras := current_paras st1 ++ [para] |}.

(** The list comprehension of line 85. *)
Definition paragraphs (text : pystr) : list pystr :=
  strip <$> filter (fun p => truthy (strip p) = true) (re_split blank_lines text).

(** [SemanticChunker._sliding_window]. *)
Definition _sliding_window (text : pystr) : list pystr :=
  let st := fold_left window_step (paragraphs text)
              {| windows := []; current_tokens := 0; current_paras := [] |} in
  if truthy (current_paras st)
  then windows st ++ [join PARA_SEP (current_paras st)]
  else windows st.

(** The body of the loop over the sections in [chunk] (lines 34-54), on the
    variables [chunks] and [index]. *)
Definition chunk_section (acc : list DocumentChunk * Z) (sec : option pystr * pystr)
  : list DocumentChunk * Z :=
  let '(chunks, index) := acc in
  let '(section_title, section_text) := sec in
  let token_count := _estimate_tokens section_text in
  if token_count <=? chunk_size then
    (chunks ++ [{| index := index; text := strip section_text; page := None;
                   section := section_title; tokens := Some token_count |}],
     index + 1)
  else
    fold_left
      (fun '(chunks, index) sub =>
         (chunks ++ [{| index := index; text := strip sub; page := None;
                        section := section_title;
                        tokens := Some (_estimate_tokens sub) |}],
          index + 1))
      (_sliding_window section_text) (chunks, index).

(** [SemanticChunker.chunk]. *)
Definition chunk (text : pystr) : result (list DocumentChunk) :=
  if negb (truthy text) || negb (truthy (strip text)) then Ok []
  else
    sections ← _split_by_headings text;
    Ok (fst (fold_left chunk_section sections ([], 0))).

End WithSettings.

End Chunker.

(** ** Part II-b: the model manager ([alchemy/models/manager.py]) *)

Module Manager.
Import Queue.

Local Open Scope string_scope.

(** The feature flags of [alchemy.config.Settings] that [initialize] reads. *)
Record Settings := {
  load_documents : bool;
  load_media : bool;
  load_web : bool;
}.

Section WithParsers.

Context {ParseResponse : Type}.

(** What a loader gets from the parser class: [construct] is the import
    of the class and its call ([DocumentParser(self.settings)]),
    [initialize_parser] the awaited [initialize()] of the new object, which
    loads the third-party model.  Both can raise. *)
Record Loader (P : Type) := {
  construct : outcome P;
  initialize_parser : P -> outcome unit;
}.
Arguments construct {P} _.
Arguments initialize_parser {P} _ _.

Record Loaders := {
  document_loader :
    Loader (pyval -> pyval -> pyval -> pyval -> pyval -> outcome ParseResponse);
  image_loader :
    Loader (pyval -> pyval -> pyval -> pyval -> outcome ParseResponse);
  media_loader : Loader (@MediaParser ParseResponse);
  web_loader :
    Loader (pyval -> pyval -> pyval -> pyval -> pyval -> outcome ParseResponse);
}.

(** The fields of a [ModelManager] object: the four parsers and the set
    [_loaded]. *)
Record ManagerState := {
  parsers : @ModelManager ParseResponse;
  _loaded : gset string;
}.

(** [ModelManager(settings)]. *)
Definition new_manager : ManagerState :=
  {| parsers := {| _document_parser := None; _image_parser := None;
                   _media_parser := None; _web_parser := None |};
     _loaded := ∅ |}.

(** A coroutine of the manager: how it ends, and the manager as it leaves
    it. *)
Definition coroutine (S : Type) := (outcome unit * S)%type.

(** Statement sequencing: the rest runs only if the first part returned. *)
Definition and_then {S} (r : coroutine S) (k : S -> coroutine S) : coroutine S :=
  match r.1 with
  | Returned _ => k r.2
  | _ => r
  end.

(** The body shared by the four loaders: assign the new parser to its
    field, await its [initialize()], add the name to [_loaded].  The field is
    assigned before the initialisation is awaited. *)
Definition load {P} (l : Loader P) (set_field : P -> ManagerState -> ManagerState)
    (name : string) (m : ManagerState) : coroutine ManagerState :=
  match construct l with
  | Returned p =>
      let m1 := set_field p m in
      match initialize_parser l p with
      | Returned _ =>
          (Returned tt, {| parsers := parsers m1; _loaded := {[name]} ∪ _loaded m1 |})
      | Raised msg => (Raised msg, m1)
      | Escaped => (Escaped, m1)
      end
  | Raised msg => (Raised msg, m)
  | Escaped => (Escaped, m)
  end.

Variable L : Loaders.

(** [ModelManager._load_document_parser]. *)
Definition _load_document_parser (m : ManagerState) : coroutine ManagerState :=
  load (document_loader L)
    (fun p m =>
       {| parsers := {| _document_parser := Some p;
                        _image_parser := _image_parser (parsers m);
                        _media_parser := _media_parser (parsers m);
                        _web_parser := _web_parser (parsers m) |};
          _loaded := _loaded m |})
    "docling" m.

(** [ModelManager._load_image_parser]. *)
Definition _load_image_parser (m : ManagerState) : coroutine ManagerState :=
  load (image_loader L)
    (fun p m =>
       {| parsers := {| _document_parser := _document_parser (parsers m);
                        _image_parser := Some p;
                        _media_parser := _media_parser (parsers m);
                        _web_parser := _web_parser (parsers m) |};
          _loaded := _loaded m |})
    "qwen2-vl" m.

(** [ModelManager._load_media_parser]. *)
Definition _load_media_parser (m : ManagerState) : coroutine ManagerState :=
  load (media_loader L)
    (fun p m =>
       {| parsers := {| _document_parser := _document_parser (parsers m);
                        _image_parser := _image_parser (parsers m);
                        _media_parser := Some p;
                        _web_parser := _web_parser (parsers m) |};
          _loaded := _loaded m |})
    "distil-whisper" m.

(** [ModelManager._load_web_parser]. *)
Definition _load_web_parser (m : ManagerState) : coroutine ManagerState :=
  load (web_loader L)
    (fun p m =>
       {| parsers := {| _document_parser := _document_parser (parsers m);
                        _image_parser := _image_parser (parsers m);
                        _media_parser := _media_parser (parsers m);
                        _web_parser := Some p |};
          _loaded := _loaded m |})
    "crawl4ai" m.

(** [if flag: await loader()]. *)
Definition when (flag : bool) (loader : ManagerState -> coroutine ManagerState)
    (m : ManagerState) : coroutine ManagerState :=
  if flag then loader m else (Returned tt, m).

(** [ModelManager.initialize]: documents, media, then the image parser under
    the documents flag again, then web. *)
Definition initialize (settings : Settings) (m : ManagerState) : coroutine ManagerState :=
  and_then (when (load_documents settings) _load_document_parser m) (fun m =>
  and_then (when (load_media settings) _load_media_parser m) (fun m =>
  and_then (when (load_documents settings) _load_image_parser m) (fun m =>
  when (load_web settings) _load_web_parser m))).

(** [ModelManager.loaded_models] returns the elements of this set, as a
    list in no particular order. *)
Definition loaded_models (m : ManagerState) : gset string := _loaded m.

End WithParsers.

Arguments construct {P} _.
Arguments initialize_parser {P} _ _.

End Manager.

(** ** Part II-c: time stamps of transcripts ([alchemy/parsers/media.py]) *)

Module Media.

(** [int(x)] for a [float]: the value truncated toward zero; an infinity
    raises [OverflowError] and a NaN [ValueError]. *)
Definition int (x : float) : option Z :=
  match FloatOps.Prim2SF x with
  | SpecFloat.S754_zero _ => Some 0
  | SpecFloat.S754_finite s m e =>
      let a := Z.shiftl (Z.pos m) e in
      Some (if s then - a else a)
  | SpecFloat.S754_infinity _ | SpecFloat.S754_nan => None
  end.

(** [f"{z:02d}"]: the decimal digits, with the sign if negative, filled
    with zeros after the sign up to two characters in all. *)
Definition format_02d (z : Z) : string :=
  match z with
  | Zneg _ => pretty z
  | _ => if z <? 10 then ("0" +:+ pretty z)%string else pretty z
  end.

(** [MediaParser._fmt_time]; Python's [divmod] rounds the quotient down,
    as [Z.div] does. *)
Definition _fmt_time (seconds : float) : option string :=
  n ← int seconds;
  let '(m, s) := (n / 60, n mod 60) in
  let '(h, m) := (m / 60, m mod 60) in
  Some (format_02d h +:+ ":" +:+ format_02d m +:+ ":" +:+ format_02d s)%string.

End Media.

(** ** Part II-d: the URL that is crawled ([alchemy/parsers/web.py]) *)

Module Web.
Import Chunker.

(** [s.startswith(prefix)]. *)
Fixpoint startswith (s prefix : pystr) : bool :=
  match prefix, s with
  | [], _ => true
  | p :: prefix', c :: s' => (c =? p)%N && startswith s' prefix'
  | _ :: _, [] => false
  end.

(** The tuple of line 62. *)
Definition schemes : list pystr :=
  [str "http://"; str "https://"; str "file://"; str "raw:"].

(** [WebParser.parse], lines 61-63: the URL that is handed to the crawler
    and reported as the source. *)
Definition parse_url (url : pystr) : pystr :=
  let url := strip url in
  if negb (existsb (startswith url) schemes) then str "https://" ++ url else url.

End Web.

(** ** Part II-e: the request layer ([server.py]) *)

Module Server.
Import Queue.

Local Open Scope string_scope.

(** What a route gives: a response body, or [HTTPException(status, detail)]. *)
Inductive http (A : Type) :=
| Respond (body : A)
| HTTPException (status_code : Z) (detail : string).
Arguments Respond {A} body.
Arguments HTTPException {A} status_code detail.

(** The payloads the routes build (the dict literals of [server.py]); the
    form fields and the uploaded file are passed on as they come. *)
Definition parse_document_payload
    (content filename content_type extract_tables extract_images output_format : pyval)
  : gmap string pyval :=
  <["content" := content]> (<["filename" := filename]>
  (<["content_type" := content_type]> (<["extract_tables" := extract_tables]>
  (<["extract_images" := extract_images]> {["output_format" := output_format]})))).

Definition parse_image_payload (content filename task prompt : pyval)
  : gmap string pyval :=
  <["content" := content]> (<["filename" := filename]>
  (<["task" := task]> {["prompt" := prompt]})).

Definition parse_audio_payload (content filename language diarize : pyval)
  : gmap string pyval :=
  <["content" := content]> (<["filename" := filename]>
  (<["language" := language]> {["diarize" := diarize]})).

Definition parse_video_payload (content filename language diarize extract_frames : pyval)
  : gmap string pyval :=
  <["content" := content]> (<["filename" := filename]>
  (<["language" := language]> (<["diarize" := diarize]>
  {["extract_frames" := extract_frames]}))).

(** [request.model_dump()] of a [WebParseRequest]: one key per field. *)
Definition parse_web_payload
    (url max_depth include_links css_selector extraction_schema headers async_mode : pyval)
  : gmap string pyval :=
  <["url" := url]> (<["max_depth" := max_depth]>
  (<["include_links" := include_links]> (<["css_selector" := css_selector]>
  (<["extraction_schema" := extraction_schema]> (<["headers" := headers]>
  {["async_mode" := async_mode]}))))).

(** The payload of the jobs of [parse_web_batch]. *)
Definition parse_web_batch_payload (url max_depth : pyval) : gmap string pyval :=
  <["url" := url]> (<["max_depth" := max_depth]> {["async_mode" := PyBool true]}).

(** The payload of the jobs of [parse_batch]. *)
Definition parse_batch_payload (content filename content_type output_format : pyval)
  : gmap string pyval :=
  <["content" := content]> (<["filename" := filename]>
  (<["content_type" := content_type]> (<["output_format" := output_format]>
  (<["extract_tables" := PyBool true]> {["extract_images" := PyBool true]})))).

Section WithParseResponse.

Context {ParseResponse : Type}.

(** [alchemy.schemas.JobStatusResponse]. *)
Record JobStatusResponse := {
  job_id : string;
  status : JobStatus;
  result : option ParseResponse;
  error : option string;
}.

(** The route [get_job_status]; [job_queue] is the module global, [None]
    until the lifespan has created the queue. *)
Definition get_job_status (job_queue : option (@JobQueue ParseResponse))
    (job_id : string) : http JobStatusResponse :=
  match job_queue with
  | None => HTTPException 503 "Server not ready"
  | Some q =>
      match get_job q job_id with
      | None => HTTPException 404 ("Job " +:+ job_id +:+ " not found")
      | Some job =>
          Respond {| job_id := Queue.id job; status := Queue.status job;
                     result := Queue.result job; error := Queue.error job |}
      end
  end.

(** [alchemy.schemas.JobResponse]; the schema has the fields of
    [JobStatusResponse]. *)
Record JobResponse := {
  r_job_id : string;
  r_status : JobStatus;
  r_result : option ParseResponse;
  r_error : option string;
}.

Variable _manager : @ModelManager ParseResponse.

(** What the routes [parse_document], [parse_image], [parse_audio],
    [parse_video] and [parse_web] do once [_assert_ready] has passed and the
    upload is read: build the job, then [enqueue] it and answer PENDING, or
    await [run_sync] and answer DONE with what it returns.  An exception of
    [run_sync] leaves the route.  [i] is what [str(uuid.uuid4())] gives,
    [created] and [now] what [time.time()] returns in the constructor and at
    the end of [_execute]. *)
Definition submit (q : @JobQueue ParseResponse) (i t : string)
    (p : gmap string pyval) (async_mode : bool) (created now : float)
  : outcome JobResponse * @JobQueue ParseResponse :=
  let '(l, q1) := alloc q (new_job i t p created) in
  (* [job.id], read from the object when the response is built *)
  let job_id (q' : @JobQueue ParseResponse) := default ""%string (id <$> heap q' !! l) in
  if async_mode then
    let q2 := enqueue q1 l in
    (Returned {| r_job_id := job_id q2; r_status := PENDING;
                 r_result := None; r_error := None |},
     q2)
  else
    let '(o, q2) := run_sync _manager q1 l now in
    (result ← o;
     Returned {| r_job_id := job_id q2; r_status := DONE;
                 r_result := result; r_error := None |},
     q2).

(** The caller evaluates a list of [Job(...)] calls, in order. *)
Fixpoint alloc_all (q : @JobQueue ParseResponse) (jobs : list (@Job ParseResponse))
  : list nat * @JobQueue ParseResponse :=
  match jobs with
  | [] => ([], q)
  | job :: rest =>
      let '(l, q1) := alloc q job in
      let '(ls, q2) := alloc_all q1 rest in
      (l :: ls, q2)
  end.

(** The route [parse_web_batch], once [_assert_ready] has passed: the jobs
    are built, one per URL, then enqueued in that order, then answered
    PENDING.  Nothing in the route suspends.  Each URL comes with the id and
    the creation time its job gets. *)
Definition parse_web_batch (q : @JobQueue ParseResponse)
    (urls : list (string * float * pyval)) (max_depth : pyval)
  : list JobResponse * @JobQueue ParseResponse :=
  let jobs :=
    (fun '(i, created, url) =>
       new_job i "parse_web" (parse_web_batch_payload url max_depth) created)
      <$> urls in
  let '(ls, q1) := alloc_all q jobs in
  let q2 := foldl enqueue q1 ls in
  (omap (fun l =>
           (fun j => {| r_job_id := id j; r_status := PENDING;
                        r_result := None; r_error := None |}) <$> heap q2 !! l) ls,
   q2).

End WithParseResponse.

End Server.

(** ** Part III: properties of the job queue *)

Module QueueProofs.
Import Queue.

Section Facts.

Context {ParseResponse : Type}.
Variable mgr : @ModelManager ParseResponse.

Abbreviation Job := (@Queue.Job ParseResponse).
Abbreviation JobQueue := (@Queue.JobQueue ParseResponse).

(** A job as its constructor leaves it, as far as [_execute] is concerned. *)
Definition unstarted (j : Job) : Prop :=
  status j = PENDING ∧ completed_at j = None.

Definition terminal (s : JobStatus) : Prop := s = DONE ∨ s = FAILED.

Definition completed_iff_terminal (j : Job) : Prop :=
  is_Some (completed_at j) ↔ terminal (status j).

(** The dispatcher reads the task and the payload only, which no assignment
    of [_execute] changes. *)
Lemma store_task (j : Job) a : task (store j a) = task j.
Proof. by destruct a. Qed.

Lemma store_payload (j : Job) a : payload (store j a) = payload j.
Proof. by destruct a. Qed.

Lemma stores_task ws (j : Job) : task (stores ws j) = task j.
Proof.
  revert j; induction ws as [|a ws IH]; intros j; [done|].
  unfold stores in *; simpl. by rewrite IH, store_task.
Qed.

Lemma stores_payload ws (j : Job) : payload (stores ws j) = payload j.
Proof.
  revert j; induction ws as [|a ws IH]; intros j; [done|].
  unfold stores in *; simpl. by rewrite IH, store_payload.
Qed.

Lemma _dispatch_ext (j j' : Job) :
  task j = task j' → payload j = payload j' → _dispatch mgr j = _dispatch mgr j'.
Proof. intros Ht Hp. unfold _dispatch. by rewrite Ht, Hp. Qed.

Lemma _dispatch_stores ws (j : Job) : _dispatch mgr (stores ws j) = _dispatch mgr j.
Proof. apply _dispatch_ext; [apply stores_task | apply stores_payload]. Qed.

(** C1, as the code has it.  The execution routine first makes the job
    RUNNING and calls the dispatcher on it.  When the dispatch returns [r],
    the routine then sets the result to [r] and the status to DONE; when it
    raises an exception deriving from [Exception], with message [msg] (from
    a parser, for a missing key or for an unknown task), it sets the error to
    [msg] and the status to FAILED; in both cases [completed_at] is assigned
    exactly once, last, right after the terminal status.  When the dispatch
    ends in an exception that derives from [BaseException] only (the
    cancellation of the task, say), the handler does not catch it: neither
    result nor error is recorded, the status stays RUNNING, [completed_at] is
    still assigned, once and last, by the [finally] block, and the exception
    leaves the routine.  So [completed_at] is set if and only if the status
    is DONE or FAILED before the call and during the dispatch, and after the
    call exactly when no such exception escaped. *)
Theorem execute_lifecycle (j : Job) (now : float) :
  unstarted j →
  let running := stores _execute_begin j in
  let ws := _execute_writes mgr j now in
  let j' := (_execute mgr j now).2 in
  status running = RUNNING
  ∧ (∀ r, _dispatch mgr running = Returned r →
       ws = [SetStatus RUNNING; SetResult r; SetStatus DONE; SetCompletedAt now]
       ∧ (_execute mgr j now).1 = Returned ()
       ∧ result j' = Some r ∧ status j' = DONE)
  ∧ (∀ msg, _dispatch mgr running = Raised msg →
       ws = [SetStatus RUNNING; SetError msg; SetStatus FAILED; SetCompletedAt now]
       ∧ (_execute mgr j now).1 = Returned ()
       ∧ error j' = Some msg ∧ status j' = FAILED)
  ∧ (_dispatch mgr running = Escaped →
       ws = [SetStatus RUNNING; SetCompletedAt now]
       ∧ (_execute mgr j now).1 = Escaped
       ∧ result j' = result j ∧ error j' = error j ∧ status j' = RUNNING)
  ∧ (∃ pre, ws = pre ++ [SetCompletedAt now] ∧ ∀ t, SetCompletedAt t ∉ pre)
  ∧ (_dispatch mgr running ≠ Escaped →
       ∃ pre s, ws = pre ++ [SetStatus s; SetCompletedAt now] ∧ terminal s)
  ∧ completed_at j' = Some now
  ∧ completed_iff_terminal j
  ∧ completed_iff_terminal running
  ∧ (completed_iff_terminal j' ↔ _dispatch mgr running ≠ Escaped).
Proof.
  intros [Hst Hc]. cbn zeta.
  assert (Hj : completed_iff_terminal j).
  { unfold completed_iff_terminal, terminal. rewrite Hc, Hst.
    split; [by intros [? ?]|by intros [?|?]]. }
  assert (Hrun : completed_iff_terminal (stores _execute_begin j)).
  { unfold completed_iff_terminal, terminal. cbn. rewrite Hc.
    split; [by intros [? ?]|by intros [?|?]]. }
  unfold _execute, _execute_writes; cbn [fst snd].
  split; [done|].
  destruct (_dispatch mgr (stores _execute_begin j)) as [r|msg|] eqn:Hd.
  - split; [by intros ? [= <-]|]. split; [done|]. split; [done|].
    split; [|split; [|split; [done|split; [done|split; [done|]]]]].
    + exists [SetStatus RUNNING; SetResult r; SetStatus DONE].
      split; [done|].
      by intros t [?|[?|[?|?%elem_of_nil]%elem_of_cons]%elem_of_cons]%elem_of_cons.
    + intros _. exists [SetStatus RUNNING; SetResult r], DONE.
      split; [done|by left].
    + split; [done|]. intros _.
      unfold completed_iff_terminal, terminal. cbn. split; eauto.
  - split; [done|]. split; [by intros ? [= <-]|]. split; [done|].
    split; [|split; [|split; [done|split; [done|split; [done|]]]]].
    + exists [SetStatus RUNNING; SetError msg; SetStatus FAILED].
      split; [done|].
      by intros t [?|[?|[?|?%elem_of_nil]%elem_of_cons]%elem_of_cons]%elem_of_cons.
    + intros _. exists [SetStatus RUNNING; SetError msg], FAILED.
      split; [done|by right].
    + split; [done|]. intros _.
      unfold completed_iff_terminal, terminal. cbn. split; eauto.
  - split; [done|]. split; [done|]. split; [done|].
    split; [|split; [done|split; [done|split; [done|split; [done|]]]]].
    + exists [SetStatus RUNNING]. split; [done|].
      by intros t [?|?%elem_of_nil]%elem_of_cons.
    + split; [|done]. unfold completed_iff_terminal, terminal. cbn.
      intros [H _]. by destruct (H (mk_is_Some _ _ eq_refl)).
Qed.

(** The third case in one equation: the [finally] block stamps the job,
    which stays RUNNING, and the exception leaves [_execute]. *)
Remark execute_escaped (j : Job) (now : float) :
  _dispatch mgr (stores _execute_begin j) = Escaped →
  _execute mgr j now
  = (Escaped, stores [SetStatus RUNNING; SetCompletedAt now] j).
Proof. intros Hd. unfold _execute, _execute_writes. by rewrite Hd. Qed.

(** *** The lifecycle invariant of the event loop *)

Definition exec_of (w : worker_state) : option nat :=
  match w with
  | Executing l => Some l
  | _ => None
  end.

(** The jobs in the FIFO, and the jobs some executor is running. *)
Definition queued (q : JobQueue) : list nat := omap (fun o => o) (_queue q).
Definition flying (q : JobQueue) : list nat := omap exec_of (_workers q) ++ inline q.
Definition holders (q : JobQueue) : list nat := queued q ++ flying q.

Definition pristine (j : Job) : Prop :=
  status j = PENDING ∧ result j = None ∧ error j = None ∧ completed_at j = None.

Definition in_flight (j : Job) : Prop :=
  status j = RUNNING ∧ result j = None ∧ error j = None ∧ completed_at j = None.

(** A job whose execution is over carries the outcome of its dispatch. *)
Definition settled (j : Job) : Prop :=
  is_Some (completed_at j) ∧
  match _dispatch mgr j with
  | Returned r => status j = DONE ∧ result j = Some r ∧ error j = None
  | Raised msg => status j = FAILED ∧ result j = None ∧ error j = Some msg
  | Escaped => status j = RUNNING ∧ result j = None ∧ error j = None
  end.

Record Inv (q : JobQueue) : Prop := {
  inv_nodup : NoDup (holders q);
  inv_holders : ∀ l, l ∈ holders q → (l < length (heap q))%nat;
  inv_heap : ∀ l j, (heap q !! l) = Some j →
    (pristine j ∧ l ∈ queued q ∧ (l ∉ dispatched q))
    ∨ (in_flight j ∧ l ∈ flying q ∧ l ∈ dispatched q)
    ∨ (settled j ∧ (l ∉ holders q) ∧ l ∈ dispatched q);
  inv_dispatched : NoDup (dispatched q);
  inv_dispatched_heap : ∀ l, l ∈ dispatched q → (l < length (heap q))%nat;
}.

Lemma omap_replicate_None {A B} (f : A → option B) n x :
  f x = None → omap f (replicate n x) = [].
Proof. intros Hx. induction n as [|n IH]; [done|]. cbn. by rewrite Hx. Qed.

Lemma omap_insert_Permutation {A B} (f : A → option B) (l : list A) i x y :
  l !! i = Some y →
  option_list (f y) ++ omap f (<[i:=x]> l) ≡ₚ option_list (f x) ++ omap f l.
Proof.
  intros Hi.
  assert (Hlt : (i < length l)%nat) by by eapply lookup_lt_Some.
  rewrite insert_take_drop by done.
  rewrite <- (take_drop_middle l i y) at 3 by done.
  rewrite !omap_app. cbn.
  destruct (f x), (f y); cbn; solve_Permutation.
Qed.

Lemma queued_holder q l : l ∈ queued q → l ∈ holders q.
Proof. intros. apply elem_of_app. by left. Qed.

Lemma flying_holder q l : l ∈ flying q → l ∈ holders q.
Proof. intros. apply elem_of_app. by right. Qed.

Lemma holders_disjoint q l : NoDup (holders q) → l ∈ queued q → l ∈ flying q → False.
Proof. unfold holders. intros (_ & H & _)%NoDup_app ??. by eapply H. Qed.

(** What the invariant says of a job that is in the FIFO, or being run. *)
Lemma Inv_queued q l j :
  Inv q → heap q !! l = Some j → l ∈ queued q → pristine j ∧ l ∉ dispatched q.
Proof.
  intros HI Hl Hq.
  destruct (inv_heap q HI l j Hl) as [(?&?&?)|[(?&?&?)|(?&Hn&?)]]; [done| |].
  - by destruct (holders_disjoint q l (inv_nodup q HI)).
  - by destruct Hn; apply queued_holder.
Qed.

Lemma Inv_flying q l j :
  Inv q → heap q !! l = Some j → l ∈ flying q → in_flight j ∧ l ∈ dispatched q.
Proof.
  intros HI Hl Hq.
  destruct (inv_heap q HI l j Hl) as [(?&?&?)|[(?&?&?)|(?&Hn&?)]]; [|done|].
  - by destruct (holders_disjoint q l (inv_nodup q HI)).
  - by destruct Hn; apply flying_holder.
Qed.

Lemma Inv_init : Inv init.
Proof.
  split; cbn; try by constructor.
  - by intros l ?%elem_of_nil.
  - by intros l ?%elem_of_nil.
Qed.

(** The five ways an action changes the queue object. *)
Lemma Inv_bookkeeping q q' :
  heap q' = heap q → dispatched q' = dispatched q →
  queued q' ≡ₚ queued q → flying q' ≡ₚ flying q →
  Inv q → Inv q'.
Proof.
  intros Hh Hd Hq Hf HI.
  assert (Hho : holders q' ≡ₚ holders q) by (unfold holders; by rewrite Hq, Hf).
  split.
  - rewrite Hho. apply HI.
  - intros l. rewrite Hho, Hh. apply HI.
  - intros l j. rewrite Hh, Hd, Hq, Hf, Hho. apply HI.
  - rewrite Hd. apply HI.
  - intros l. rewrite Hd, Hh. apply HI.
Qed.

Lemma Inv_submit_pending q q' j :
  heap q' = heap q ++ [j] → dispatched q' = dispatched q →
  queued q' ≡ₚ length (heap q) :: queued q → flying q' ≡ₚ flying q →
  pristine j →
  Inv q → Inv q'.
Proof.
  intros Hh Hd Hq Hf Hj HI.
  assert (Hho : holders q' ≡ₚ length (heap q) :: holders q)
    by (unfold holders; by rewrite Hq, Hf).
  assert (Hfresh : length (heap q) ∉ holders q).
  { intros Hin%(inv_holders q HI). lia. }
  assert (Hfresh' : length (heap q) ∉ dispatched q).
  { intros Hin%(inv_dispatched_heap q HI). lia. }
  split.
  - rewrite Hho. apply NoDup_cons. split; [done|apply HI].
  - intros l. rewrite Hho, Hh, length_app. cbn.
    intros [->|Hin%(inv_holders q HI)]%elem_of_cons; lia.
  - intros l j'. rewrite Hh, Hd, Hq, Hf, Hho.
    intros [[Hlt Hl]|[-> <-]]%lookup_snoc_Some.
    + destruct (inv_heap q HI l j' Hl) as [(?&?&?)|[(?&?&?)|(?&Hn&?)]].
      * left. split; [done|]. split; [by apply elem_of_cons; right|done].
      * right; left. done.
      * right; right. split; [done|]. split; [|done].
        intros [->|?]%elem_of_cons; [lia|done].
    + left. split; [done|]. split; [by apply elem_of_cons; left|done].
  - rewrite Hd. apply HI.
  - intros l. rewrite Hd, Hh, length_app. cbn.
    intros Hin%(inv_dispatched_heap q HI). lia.
Qed.

Lemma Inv_submit_running q q' j :
  heap q' = heap q ++ [j] → dispatched q' = dispatched q ++ [length (heap q)] →
  queued q' ≡ₚ queued q → flying q' ≡ₚ length (heap q) :: flying q →
  in_flight j →
  Inv q → Inv q'.
Proof.
  intros Hh Hd Hq Hf Hj HI.
  assert (Hho : holders q' ≡ₚ length (heap q) :: holders q).
  { unfold holders. rewrite Hq, Hf. by rewrite Permutation_middle. }
  assert (Hfresh : length (heap q) ∉ holders q).
  { intros Hin%(inv_holders q HI). lia. }
  assert (Hfresh' : length (heap q) ∉ dispatched q).
  { intros Hin%(inv_dispatched_heap q HI). lia. }
  split.
  - rewrite Hho. apply NoDup_cons. split; [done|apply HI].
  - intros l. rewrite Hho, Hh, length_app. cbn.
    intros [->|Hin%(inv_holders q HI)]%elem_of_cons; lia.
  - intros l j'. rewrite Hh, Hd, Hq, Hf, Hho.
    intros [[Hlt Hl]|[-> <-]]%lookup_snoc_Some.
    + destruct (inv_heap q HI l j' Hl) as [(?&?&?)|[(?&?&?)|(?&Hn&?)]].
      * left. split; [done|]. split; [done|].
        intros [?| ->%list_elem_of_singleton]%elem_of_app; [done|lia].
      * right; left. split; [done|].
        split; [by apply elem_of_cons; right|by apply elem_of_app; left].
      * right; right. split; [done|]. split; [|by apply elem_of_app; left].
        intros [->|?]%elem_of_cons; [lia|done].
    + right; left. split; [done|].
      split; [by apply elem_of_cons; left|].
      apply elem_of_app; right. by apply list_elem_of_singleton.
  - rewrite Hd. apply NoDup_app. split; [apply HI|]. split; [|apply NoDup_singleton].
    by intros l Hl ->%list_elem_of_singleton.
  - intros l. rewrite Hd, Hh, length_app. cbn.
    intros [Hin%(inv_dispatched_heap q HI)| ->%list_elem_of_singleton]%elem_of_app; lia.
Qed.

Lemma Inv_begin q q' l j :
  heap q !! l = Some j →
  heap q' = <[l := stores _execute_begin j]> (heap q) →
  dispatched q' = dispatched q ++ [l] →
  queued q ≡ₚ l :: queued q' → flying q' ≡ₚ l :: flying q →
  Inv q → Inv q'.
Proof.
  intros Hl Hh Hd Hq Hf HI.
  assert (Hho : holders q' ≡ₚ holders q).
  { unfold holders. rewrite Hq, Hf. cbn. by rewrite Permutation_middle. }
  destruct (Inv_queued q l j HI Hl) as [Hj Hnd]; [rewrite Hq; by left|].
  assert (Hnq : l ∉ queued q').
  { pose proof (inv_nodup q HI) as Hnodup. unfold holders in Hnodup.
    rewrite Hq in Hnodup. cbn in Hnodup. apply NoDup_cons in Hnodup as [Hn _].
    intros ?. apply Hn, elem_of_app. by left. }
  split.
  - rewrite Hho. apply HI.
  - intros l'. rewrite Hho, Hh, length_insert. apply HI.
  - intros l' j'. rewrite Hh, Hd, Hf, Hho.
    intros [(<- & <- & _)|[Hne Hl']]%list_lookup_insert_Some.
    + right; left. split.
      * destruct Hj as (?&?&?&?). by repeat split.
      * split; [by left|]. apply elem_of_app; right. by apply list_elem_of_singleton.
    + destruct (inv_heap q HI l' j' Hl') as [(?&Hin&?)|[(?&?&?)|(?&Hn&?)]].
      * left. split; [done|]. split.
        -- rewrite Hq in Hin. by apply elem_of_cons in Hin as [?|?].
        -- by intros [?| ?%list_elem_of_singleton]%elem_of_app.
      * right; left. split; [done|].
        split; [by right|by apply elem_of_app; left].
      * right; right. split; [done|]. split; [done|by apply elem_of_app; left].
  - rewrite Hd. apply NoDup_app. split; [apply HI|]. split; [|apply NoDup_singleton].
    by intros l' Hl' ->%list_elem_of_singleton.
  - intros l'. rewrite Hd, Hh, length_insert.
    intros [Hin%(inv_dispatched_heap q HI)| ->%list_elem_of_singleton]%elem_of_app;
      [done|by eapply lookup_lt_Some].
Qed.

Lemma settled_resume (j : Job) now :
  in_flight j → settled (stores (_execute_resume (_dispatch mgr j) now) j).
Proof.
  intros (Hs & Hr & He & Hc). unfold settled.
  rewrite _dispatch_stores.
  destruct (_dispatch mgr j); cbn; by eauto.
Qed.

Lemma Inv_finish q q' l j now :
  heap q !! l = Some j →
  heap q' = <[l := stores (_execute_resume (_dispatch mgr j) now) j]> (heap q) →
  dispatched q' = dispatched q →
  queued q' ≡ₚ queued q → flying q ≡ₚ l :: flying q' →
  Inv q → Inv q'.
Proof.
  intros Hl Hh Hd Hq Hf HI.
  assert (Hho : holders q ≡ₚ l :: holders q').
  { unfold holders. rewrite Hq, Hf. cbn. by rewrite Permutation_middle. }
  destruct (Inv_flying q l j HI Hl) as [Hj Hld]; [rewrite Hf; by left|].
  pose proof (inv_nodup q HI) as Hnodup. rewrite Hho in Hnodup.
  apply NoDup_cons in Hnodup as [Hnl Hnodup].
  split.
  - done.
  - intros l' Hin. rewrite Hh, length_insert. apply HI. rewrite Hho. by right.
  - intros l' j'. rewrite Hh, Hd, Hq.
    intros [(<- & <- & _)|[Hne Hl']]%list_lookup_insert_Some.
    + right; right. split; [by apply settled_resume|done].
    + destruct (inv_heap q HI l' j' Hl') as [(?&Hin&?)|[(?&Hin&?)|(?&Hn&?)]].
      * by left.
      * right; left. split; [done|]. split; [|done].
        rewrite Hf in Hin. by apply elem_of_cons in Hin as [?|?].
      * right; right. split; [done|]. split; [|done].
        intros Hin. apply Hn. rewrite Hho. by right.
  - rewrite Hd. apply HI.
  - intros l'. rewrite Hd, Hh, length_insert. apply HI.
Qed.

(** The fields the transformers leave alone. *)
Lemma register_frame (q : JobQueue) l :
  heap (register q l) = heap q ∧ _queue (register q l) = _queue q
  ∧ _workers (register q l) = _workers q ∧ inline (register q l) = inline q
  ∧ dispatched (register q l) = dispatched q ∧ _running (register q l) = _running q.
Proof. unfold register. by destruct (heap q !! l). Qed.

Lemma mutate_frame (q : JobQueue) l ws :
  _jobs (mutate q l ws) = _jobs q ∧ _queue (mutate q l ws) = _queue q
  ∧ _workers (mutate q l ws) = _workers q ∧ inline (mutate q l ws) = inline q
  ∧ dispatched (mutate q l ws) = dispatched q ∧ _running (mutate q l ws) = _running q.
Proof. unfold mutate. by destruct (heap q !! l). Qed.

Lemma mutate_heap (q : JobQueue) l ws j :
  heap q !! l = Some j → heap (mutate q l ws) = <[l := stores ws j]> (heap q).
Proof. intros H. unfold mutate. by rewrite H. Qed.

Lemma execute_resume_heap (q : JobQueue) l now j :
  heap q !! l = Some j →
  heap (execute_resume mgr q l now).2
  = <[l := stores (_execute_resume (_dispatch mgr j) now) j]> (heap q).
Proof. intros H. unfold execute_resume. rewrite H. cbn. by apply mutate_heap. Qed.

Lemma execute_resume_frame (q : JobQueue) l now :
  let q' := (execute_resume mgr q l now).2 in
  _jobs q' = _jobs q ∧ _queue q' = _queue q ∧ _workers q' = _workers q
  ∧ inline q' = inline q ∧ dispatched q' = dispatched q ∧ _running q' = _running q.
Proof.
  unfold execute_resume. destruct (heap q !! l); cbn; [apply mutate_frame|done].
Qed.

Lemma holder_lookup (q : JobQueue) l : Inv q → l ∈ holders q → is_Some (heap q !! l).
Proof. intros HI Hl. by apply lookup_lt_is_Some, HI. Qed.

(** Every action keeps the invariant. *)
Lemma Inv_worker_step (q : JobQueue) q' w now :
  Inv q → worker_step mgr q w now = Some q' → Inv q'.
Proof.
  intros HI. unfold worker_step.
  destruct (_workers q !! w) as [st|] eqn:Hw; [cbn|done].
  destruct st as [| |l|].
  - intros [= <-]. apply (Inv_bookkeeping q); [done..| |done].
    unfold flying; cbn. f_equiv.
    pose proof (omap_insert_Permutation exec_of (_workers q) w
                  (if _running q then Getting else Exited) _ Hw) as HP.
    by destruct (_running q).
  - destruct (_queue q) as [|[l|] fifo] eqn:Hq; [done| |].
    + intros [= <-].
      assert (Hl : l ∈ queued q) by (unfold queued; rewrite Hq; by left).
      destruct (holder_lookup q l HI (queued_holder q l Hl)) as [j Hj].
      apply (Inv_begin q _ l j); [done| | | |  |done].
      * exact (mutate_heap (set_queue q fifo) l _execute_begin j Hj).
      * unfold set_worker, execute_begin; cbn [dispatched].
        by destruct (mutate_frame (set_queue q fifo) l _execute_begin) as (_&_&_&_&->&_).
      * unfold queued at 1. rewrite Hq. cbn.
        destruct (mutate_frame (set_queue q fifo) l _execute_begin) as (_&->&_).
        reflexivity.
      * unfold flying; cbn.
        destruct (mutate_frame (set_queue q fifo) l _execute_begin) as (_&_&->&->&_). cbn.
        rewrite app_comm_cons. f_equiv.
        apply (omap_insert_Permutation exec_of (_workers q) w (Executing l) _ Hw).
    + intros [= <-]. apply (Inv_bookkeeping q); [done|done| | |done].
      * unfold queued. cbn. by rewrite Hq.
      * unfold flying; cbn. f_equiv.
        apply (omap_insert_Permutation exec_of (_workers q) w Exited _ Hw).
  - destruct (execute_resume mgr q l now) as [o q1] eqn:Hres. intros [= <-].
    assert (Hl : l ∈ flying q).
    { apply elem_of_app; left. apply list_elem_of_omap. exists (Executing l).
      split; [by eapply list_elem_of_lookup_2|done]. }
    destruct (holder_lookup q l HI (flying_holder q l Hl)) as [j Hj].
    pose proof (execute_resume_heap q l now j Hj) as Hh.
    pose proof (execute_resume_frame q l now) as (_&Hfq&Hfw&Hfi&Hfd&_).
    rewrite Hres in *. cbn in Hh, Hfq, Hfw, Hfi, Hfd.
    apply (Inv_finish q _ l j now); [done|done|done| | |done].
    + unfold queued. cbn. by rewrite Hfq.
    + unfold flying; cbn. rewrite Hfw, Hfi. rewrite app_comm_cons. f_equiv.
      pose proof (omap_insert_Permutation exec_of (_workers q) w
                    (match o with Escaped => Exited | _ => LoopHead end) _ Hw) as HP.
      cbn in HP. rewrite HP. by destruct o.
  - done.
Qed.

Lemma Inv_do (q q' : JobQueue) a : Inv q → do mgr a q = Some q' → Inv q'.
Proof.
  intros HI. destruct a as [n| |i t p now|i t p now|k now|w now]; cbn.
  - intros [= <-]. apply (Inv_bookkeeping q); [done|done|done| |done].
    unfold flying; cbn. by rewrite omap_app, omap_replicate_None, app_nil_r.
  - intros [= <-]. apply (Inv_bookkeeping q); [done|done| |done|done].
    unfold queued; cbn. by rewrite omap_app, omap_replicate_None, app_nil_r.
  - intros [= <-].
    set (q1 := set_heap q (heap q ++ [new_job i t p now])).
    destruct (register_frame q1 (length (heap q))) as (Hh&Hq&Hw&Hi&Hd&_).
    apply (Inv_submit_pending q _ (new_job i t p now)); [| | | |done|done].
    + exact Hh.
    + exact Hd.
    + unfold queued; cbn. fold q1. rewrite Hq. cbn.
      rewrite omap_app. cbn. by rewrite <- Permutation_cons_append.
    + unfold flying; cbn. fold q1. by rewrite Hw, Hi.
  - intros [= <-].
    set (j := new_job i t p now).
    set (q1 := register (set_heap q (heap q ++ [j])) (length (heap q))).
    destruct (register_frame (set_heap q (heap q ++ [j])) (length (heap q)))
      as (Hh&Hq&Hw&Hi&Hd&_). fold q1 in Hh, Hq, Hw, Hi, Hd. cbn in Hh, Hq, Hw, Hi, Hd.
    assert (Hl : heap q1 !! length (heap q) = Some j).
    { rewrite Hh. by apply list_lookup_middle. }
    destruct (mutate_frame q1 (length (heap q)) _execute_begin) as (_&Hq'&Hw'&Hi'&Hd'&_).
    apply (Inv_submit_running q _ (stores _execute_begin j)); [| | | |done|done].
    + cbn. rewrite (mutate_heap q1 _ _ j Hl), Hh.
      rewrite insert_app_r_alt by done. by rewrite Nat.sub_diag.
    + cbn. by rewrite Hd', Hd.
    + unfold queued; cbn. by rewrite Hq', Hq.
    + unfold flying; cbn. rewrite Hw', Hw, Hi', Hi.
      rewrite app_assoc. by rewrite <- Permutation_cons_append.
  - destruct (inline q !! k) as [l|] eqn:Hk; [cbn|done].
    destruct (execute_resume mgr q l now) as [o q1] eqn:Hres. intros [= <-].
    assert (Hl : l ∈ flying q).
    { apply elem_of_app; right. by eapply list_elem_of_lookup_2. }
    destruct (holder_lookup q l HI (flying_holder q l Hl)) as [j Hj].
    pose proof (execute_resume_heap q l now j Hj) as Hh.
    pose proof (execute_resume_frame q l now) as (_&Hfq&Hfw&Hfi&Hfd&_).
    rewrite Hres in *. cbn in Hh, Hfq, Hfw, Hfi, Hfd.
    apply (Inv_finish q _ l j now); [done|done|done| | |done].
    + unfold queued. cbn. by rewrite Hfq.
    + unfold flying; cbn. rewrite Hfw, Hfi.
      rewrite (delete_Permutation (inline q) k l Hk) at 1.
      by rewrite Permutation_middle.
  - by apply Inv_worker_step.
Qed.

Lemma Inv_run acts (q q' : JobQueue) : Inv q → run mgr acts q = Some q' → Inv q'.
Proof.
  revert q. induction acts as [|a acts IH]; intros q HI; cbn.
  - by intros [= <-].
  - destruct (do mgr a q) as [q1|] eqn:Hdo; [cbn|done].
    apply IH. by eapply Inv_do.
Qed.

Lemma reachable_Inv (q : JobQueue) : reachable mgr q → Inv q.
Proof. intros [acts Hrun]. eapply Inv_run; [apply Inv_init|done]. Qed.

Lemma reachable_step (q q' : JobQueue) : reachable mgr q → step mgr q q' → reachable mgr q'.
Proof.
  intros [acts Hrun] [a Hdo]. exists (acts ++ [a]).
  revert Hrun. generalize (@init ParseResponse).
  induction acts as [|a' acts IH]; intros q0; cbn.
  - intros [= ->]. by rewrite Hdo.
  - destruct (do mgr a' q0); [cbn; apply IH|done].
Qed.

(** What an action does to the objects: nothing, or it creates one, or it
    starts the execution of a queued one, or it ends a running execution. *)
Lemma do_heap (q q' : JobQueue) a :
  Inv q → do mgr a q = Some q' →
  heap q' = heap q
  ∨ (∃ j, heap q' = heap q ++ [j])
  ∨ (∃ l j, heap q !! l = Some j ∧ pristine j
            ∧ heap q' = <[l := stores _execute_begin j]> (heap q))
  ∨ (∃ l j now, heap q !! l = Some j ∧ in_flight j
            ∧ heap q' = <[l := stores (_execute_resume (_dispatch mgr j) now) j]> (heap q)).
Proof.
  intros HI. destruct a as [n| |i t p now|i t p now|k now|w now]; cbn.
  - intros [= <-]. by left.
  - intros [= <-]. by left.
  - intros [= <-]. right; left. exists (new_job i t p now).
    set (q1 := set_heap q (heap q ++ [new_job i t p now])).
    destruct (register_frame q1 (length (heap q))) as (Hh&_). exact Hh.
  - intros [= <-]. right; left.
    set (j := new_job i t p now).
    set (q1 := register (set_heap q (heap q ++ [j])) (length (heap q))).
    destruct (register_frame (set_heap q (heap q ++ [j])) (length (heap q))) as (Hh&_).
    fold q1 in Hh. cbn in Hh.
    assert (Hl : heap q1 !! length (heap q) = Some j).
    { rewrite Hh. by apply list_lookup_middle. }
    exists (stores _execute_begin j). cbn.
    rewrite (mutate_heap q1 _ _ j Hl), Hh.
    rewrite insert_app_r_alt by done. by rewrite Nat.sub_diag.
  - destruct (inline q !! k) as [l|] eqn:Hk; [cbn|done].
    destruct (execute_resume mgr q l now) as [o q1] eqn:Hres. intros [= <-].
    assert (Hl : l ∈ flying q).
    { apply elem_of_app; right. by eapply list_elem_of_lookup_2. }
    destruct (holder_lookup q l HI (flying_holder q l Hl)) as [j Hj].
    pose proof (execute_resume_heap q l now j Hj) as Hh.
    rewrite Hres in Hh. cbn in Hh.
    right; right; right. exists l, j, now.
    split; [done|]. split; [|done]. by eapply Inv_flying.
  - unfold worker_step.
    destruct (_workers q !! w) as [st|] eqn:Hw; [cbn|done].
    destruct st as [| |l|].
    + intros [= <-]. by left.
    + destruct (_queue q) as [|[l|] fifo] eqn:Hq; [done| |].
      * intros [= <-].
        assert (Hl : l ∈ queued q) by (unfold queued; rewrite Hq; by left).
        destruct (holder_lookup q l HI (queued_holder q l Hl)) as [j Hj].
        right; right; left. exists l, j.
        split; [done|]. split; [by eapply Inv_queued|].
        exact (mutate_heap (set_queue q fifo) l _execute_begin j Hj).
      * intros [= <-]. by left.
    + destruct (execute_resume mgr q l now) as [o q1] eqn:Hres. intros [= <-].
      assert (Hl : l ∈ flying q).
      { apply elem_of_app; left. apply list_elem_of_omap. exists (Executing l).
        split; [by eapply list_elem_of_lookup_2|done]. }
      destruct (holder_lookup q l HI (flying_holder q l Hl)) as [j Hj].
      pose proof (execute_resume_heap q l now j Hj) as Hh.
      rewrite Hres in Hh. cbn in Hh.
      right; right; right. exists l, j, now.
      split; [done|]. split; [|done]. by eapply Inv_flying.
    + done.
Qed.

(** The lifecycle graph: a status stays, or moves along one edge of
    PENDING → RUNNING → DONE | FAILED. *)
Definition forward (a b : JobStatus) : Prop :=
  a = b ∨ (a = PENDING ∧ b = RUNNING) ∨ (a = RUNNING ∧ terminal b).

Lemma do_forward (q q' : JobQueue) a l (j : Job) :
  Inv q → do mgr a q = Some q' → heap q !! l = Some j →
  ∃ j', heap q' !! l = Some j' ∧ forward (status j) (status j').
Proof.
  intros HI Hdo Hl.
  destruct (do_heap q q' a HI Hdo)
    as [->|[[j0 ->]|[(l0&j0&Hl0&Hp&->)|(l0&j0&now&Hl0&Hf&->)]]].
  - exists j. split; [done|by left].
  - exists j. split; [|by left]. by apply lookup_app_l_Some.
  - destruct (decide (l0 = l)) as [->|Hne].
    + exists (stores _execute_begin j). assert (j0 = j) as -> by congruence.
      split; [apply list_lookup_insert_eq; by eapply lookup_lt_Some|].
      right; left. by destruct Hp as (->&_).
    + exists j. split; [by rewrite list_lookup_insert_ne|by left].
  - destruct (decide (l0 = l)) as [->|Hne].
    + exists (stores (_execute_resume (_dispatch mgr j0) now) j0).
      assert (j0 = j) as -> by congruence.
      split; [apply list_lookup_insert_eq; by eapply lookup_lt_Some|].
      destruct Hf as (Hs&_). rewrite Hs.
      destruct (_dispatch mgr j); cbn.
      * right; right. split; [done|by left].
      * right; right. split; [done|by right].
      * by left.
    + exists j. split; [by rewrite list_lookup_insert_ne|by left].
Qed.

(** C3, as the code has it.  In every state the event loop can reach,
    where each job is created and then submitted once (to the FIFO or to
    [run_sync]): a job's result is set (it is not [None]) exactly when the
    job is DONE, and its error is set (it is not [None]) exactly when the
    job is FAILED, so that it never has both; the error is the failure's
    message, which is the empty string when the exception has none.  And
    every action leaves each job's status where it is or moves it one edge
    along PENDING → RUNNING → DONE | FAILED, so that DONE and FAILED are
    final and exclude each other. *)
Theorem lifecycle_invariant (q : JobQueue) :
  reachable mgr q →
  (∀ l (j : Job), heap q !! l = Some j →
     (is_Some (result j) ↔ status j = DONE)
     ∧ (is_Some (error j) ↔ status j = FAILED)
     ∧ ¬ (is_Some (result j) ∧ is_Some (error j)))
  ∧ (∀ q' l (j : Job), step mgr q q' → heap q !! l = Some j →
     ∃ j', heap q' !! l = Some j'
           ∧ forward (status j) (status j')
           ∧ (terminal (status j) → status j' = status j)).
Proof.
  intros HI%reachable_Inv. split.
  - intros l j Hl.
    assert (H : (is_Some (result j) ↔ status j = DONE)
                ∧ (is_Some (error j) ↔ status j = FAILED)).
    { destruct (inv_heap q HI l j Hl)
        as [((Hs&Hr&He&_)&_)|[((Hs&Hr&He&_)&_)|((_&Hd)&_)]].
      - rewrite Hs, Hr, He. split; (split; [by intros [? ?]|done]).
      - rewrite Hs, Hr, He. split; (split; [by intros [? ?]|done]).
      - destruct (_dispatch mgr j); destruct Hd as (Hs&Hr&He); rewrite Hs, Hr, He;
          split; (split; [by (intros [? ?] || eauto)|by eauto]). }
    destruct H as [Hr He]. split; [done|]. split; [done|].
    intros [HR HE]. apply Hr in HR. apply He in HE. congruence.
  - intros q' l j [a Hdo] Hl.
    destruct (do_forward q q' a l j HI Hdo Hl) as (j'&Hl'&Hfw).
    exists j'. split; [done|]. split; [done|].
    intros [Ht|Ht]; destruct Hfw as [?|[[? ?]|[? ?]]]; congruence.
Qed.

(** *** Unknown task kinds *)

(** The task kinds [_dispatch] recognises. *)
Definition known_tasks : list string :=
  ["parse_document"; "parse_image"; "parse_audio"; "parse_video"; "parse_web"]%string.

Lemma _dispatch_unknown (j : Job) :
  task j ∉ known_tasks → _dispatch mgr j = Raised ("Unknown task: " +:+ task j)%string.
Proof.
  intros Hn.
  assert (Hk : ∀ k, k ∈ known_tasks → task j ≠ k) by (by intros k Hk <-).
  unfold _dispatch.
  rewrite !decide_False; [done|apply Hk; unfold known_tasks..];
    repeat (first [by apply list_elem_of_here | apply list_elem_of_further]).
Qed.

Lemma filter_eq_not_elem_of (l : nat) (ls : list nat) :
  l ∉ ls → filter (eq l) ls = [].
Proof.
  induction ls as [|x ls IH]; [done|].
  intros [Hx Hl]%not_elem_of_cons.
  rewrite filter_cons. by rewrite decide_False, IH.
Qed.

Lemma NoDup_filter_eq_length (l : nat) (ls : list nat) :
  NoDup ls → (length (filter (eq l) ls) ≤ 1)%nat.
Proof.
  induction 1 as [|x ls Hx Hnd IH]; [cbn; lia|].
  rewrite filter_cons. case_decide as Hl; [subst x; cbn|done].
  by rewrite filter_eq_not_elem_of.
Qed.

(** C4. A job whose task is none of the recognised kinds, whatever its
    payload: the dispatcher raises "Unknown task: <task>"; the execution
    routine ends normally and leaves the job FAILED with that message as its
    error; and the job is not retried: in every reachable state the
    dispatcher has been called on it at most once, and once its execution is
    over it is FAILED with that message and no longer in the FIFO. *)
Theorem unknown_task_fails (j : Job) :
  task j ∉ known_tasks →
  let msg := ("Unknown task: " +:+ task j)%string in
  _dispatch mgr j = Raised msg
  ∧ (∀ now, (_execute mgr j now).1 = Returned ()
            ∧ status (_execute mgr j now).2 = FAILED
            ∧ error (_execute mgr j now).2 = Some msg)
  ∧ (∀ (q : JobQueue) l, reachable mgr q → heap q !! l = Some j →
       (length (filter (eq l) (dispatched q)) ≤ 1)%nat
       ∧ (l ∈ dispatched q → l ∉ flying q →
            status j = FAILED ∧ error j = Some msg ∧ l ∉ queued q)).
Proof.
  intros Hn msg. pose proof (_dispatch_unknown j Hn) as Hd. fold msg in Hd.
  split; [done|]. split.
  - intros now. unfold _execute, _execute_writes. cbn [fst snd].
    rewrite _dispatch_stores, Hd. by cbn.
  - intros q l HI%reachable_Inv Hl. split.
    + apply NoDup_filter_eq_length, HI.
    + intros Hdis Hfl.
      destruct (inv_heap q HI l j Hl) as [(_&_&?)|[(_&?&_)|((_&Hs)&Hh&_)]]; [done..|].
      rewrite Hd in Hs. destruct Hs as (?&?&?).
      split; [done|]. split; [done|].
      intros ?. by apply Hh, queued_holder.
Qed.

(** *** [run_sync] *)

(** What [run_sync] does with a job fresh from its constructor: the job is
    registered and left in the state its dispatch decides, and the call
    returns the result or raises [RuntimeError] with the error, except that
    an error that is the empty string is not raised. *)
Lemma run_sync_outcome (q : JobQueue) l (j : Job) now :
  heap q !! l = Some j → pristine j →
  ∃ j', get_job (run_sync mgr q l now).2 (id j) = Some j' ∧
    match _dispatch mgr j with
    | Returned r =>
        (run_sync mgr q l now).1 = Returned (Some r)
        ∧ status j' = DONE ∧ result j' = Some r
    | Raised msg =>
        (run_sync mgr q l now).1
        = (if decide (msg = ""%string) then Returned None else Raised msg)
        ∧ status j' = FAILED ∧ error j' = Some msg
    | Escaped =>
        (run_sync mgr q l now).1 = Escaped ∧ status j' = RUNNING
    end.
Proof.
  intros Hl (Hs&Hr&He&Hc). unfold run_sync.
  set (q1 := execute_begin (register q l) l).
  assert (Hj : _jobs q1 !! id j = Some l).
  { unfold q1. cbn.
    destruct (mutate_frame (register q l) l _execute_begin) as (->&_).
    unfold register. rewrite Hl. cbn. apply lookup_insert_eq. }
  assert (Hh : heap q1 !! l = Some (stores _execute_begin j)).
  { unfold q1. cbn.
    destruct (register_frame q l) as (Hrh&_).
    rewrite (mutate_heap (register q l) l _ j) by (by rewrite Hrh).
    rewrite Hrh. apply list_lookup_insert_eq. by eapply lookup_lt_Some. }
  destruct (execute_resume mgr q1 l now) as [o q2] eqn:Hres.
  pose proof (execute_resume_heap q1 l now _ Hh) as Hh2.
  pose proof (execute_resume_frame q1 l now) as (Hj2&_).
  rewrite Hres in Hh2, Hj2. cbn [snd] in Hh2, Hj2.
  assert (Ho : o = match _dispatch mgr j with Escaped => Escaped | _ => Returned () end).
  { unfold execute_resume in Hres. rewrite Hh in Hres.
    rewrite (_dispatch_stores _execute_begin j) in Hres. by injection Hres as <- _. }
  rewrite _dispatch_stores in Hh2.
  set (j2 := stores (_execute_resume (_dispatch mgr j) now) (stores _execute_begin j)) in Hh2.
  assert (Hl2 : heap q2 !! l = Some j2).
  { rewrite Hh2. apply list_lookup_insert_eq. by eapply lookup_lt_Some. }
  rewrite Hl2. exists j2. split.
  { unfold get_job. destruct o; cbn [snd]; rewrite Hj2, Hj; exact Hl2. }
  subst o. unfold j2, run_sync_return.
  destruct (_dispatch mgr j) as [r|msg|]; cbn.
  - rewrite He. by cbn.
  - rewrite Hr. destruct msg; cbn; by case_decide.
  - done.
Qed.

End Facts.

(** *** A concrete queue

    Only the document parser is loaded; it answers with the file name, and
    fails the way a bare [assert] in a converter does, with an exception
    whose message is empty, when the content is empty. *)
Definition demo_manager : @ModelManager string :=
  {| _document_parser :=
       Some (fun content filename _ _ _ =>
               match content, filename with
               | PyBytes EmptyString, _ => Raised ""%string
               | _, PyStr f => Returned f
               | _, _ => Raised "filename is not a string"%string
               end);
     _image_parser := None;
     _media_parser := None;
     _web_parser := None |}.

Definition demo_payload (content : string) : gmap string pyval :=
  <["content"%string := PyBytes content]> {["filename"%string := PyStr "a.pdf"]}.

Definition demo_job : @Job string :=
  new_job "job-1" "parse_document" (demo_payload "%PDF-1.7") 0%float.

Definition bogus_job : @Job string := new_job "job-2" "bogus" ∅ 0%float.

(** Two workers; one job goes through the FIFO and a worker, a job of an
    unknown kind goes through [run_sync]. *)
Definition demo_actions : list action :=
  [Start 2;
   Enqueue "job-1" "parse_document" (demo_payload "%PDF-1.7") 0%float;
   WorkerStep 0 1%float; WorkerStep 0 1%float;
   RunSyncCall "job-2" "bogus" ∅ 2%float;
   WorkerStep 0 3%float;
   RunSyncResume 0 4%float;
   Stop].

Definition demo_queue : @JobQueue string :=
  default init (run demo_manager demo_actions init).

Lemma demo_queue_reachable : reachable demo_manager demo_queue.
Proof. exists demo_actions. by vm_compute. Qed.

Lemma execute_lifecycle_witness :
  unstarted demo_job ∧ status (_execute demo_manager demo_job 1%float).2 = DONE.
Proof.
  split; [done|].
  destruct (execute_lifecycle demo_manager demo_job 1%float) as (_ & Hr & _); [done|].
  destruct (Hr "a.pdf"%string) as (_ & _ & _ & H); [by vm_compute|exact H].
Defined.

(** A manager whose document parser is being awaited when the task that
    runs the job is cancelled: [asyncio.CancelledError], which derives from
    [BaseException] only, is raised at the [await] inside [_dispatch]. *)
Definition cancelled_manager : @ModelManager string :=
  {| _document_parser := Some (fun _ _ _ _ _ => Escaped);
     _image_parser := None;
     _media_parser := None;
     _web_parser := None |}.

(** The job of the run above, executed by that manager instead. *)
Definition cancelled_job_after : @Job string :=
  (_execute cancelled_manager demo_job 1%float).2.

(** C1 as stated fails when the dispatch is cancelled: the handler of
    [_execute] catches [Exception] only, its [finally] block runs on every
    path.  The job was PENDING and never stamped; the exception leaves
    [_execute]; the job is left RUNNING with neither result nor error, yet
    with [completed_at] set, so "set if and only if DONE or FAILED" does not
    hold of it. *)
Lemma execute_cancelled_stamped :
  unstarted demo_job
  ∧ _dispatch cancelled_manager (stores _execute_begin demo_job) = Escaped
  ∧ (_execute cancelled_manager demo_job 1%float).1 = Escaped
  ∧ _execute_writes cancelled_manager demo_job 1%float
    = [SetStatus RUNNING; SetCompletedAt 1%float]
  ∧ status cancelled_job_after = RUNNING
  ∧ result cancelled_job_after = None
  ∧ error cancelled_job_after = None
  ∧ completed_at cancelled_job_after = Some 1%float
  ∧ ¬ terminal (status cancelled_job_after)
  ∧ ¬ completed_iff_terminal cancelled_job_after.
Proof.
  split; [done|]. split; [by vm_compute|]. split; [by vm_compute|].
  split; [by vm_compute|]. split; [by vm_compute|]. split; [by vm_compute|].
  split; [by vm_compute|]. split; [by vm_compute|].
  assert (Hs : status cancelled_job_after = RUNNING) by (by vm_compute).
  assert (Hc : completed_at cancelled_job_after = Some 1%float) by (by vm_compute).
  assert (Ht : ¬ terminal (status cancelled_job_after)).
  { rewrite Hs. by intros [?|?]. }
  split; [exact Ht|].
  intros [H _]. apply Ht, H. rewrite Hc. by eexists.
Qed.

Lemma lifecycle_invariant_witness :
  reachable demo_manager demo_queue
  ∧ Forall (fun j => is_Some (error j) ↔ status j = FAILED) (heap demo_queue).
Proof.
  split; [exact demo_queue_reachable|].
  apply Forall_lookup. intros l j Hl.
  destruct (lifecycle_invariant demo_manager demo_queue demo_queue_reachable)
    as [H _].
  by destruct (H l j Hl) as (_ & He & _).
Defined.

(** One worker; a document job with empty content goes through the FIFO. *)
Definition silent_actions : list action :=
  [Start 1;
   Enqueue "job-4" "parse_document" (demo_payload "") 0%float;
   WorkerStep 0 1%float; WorkerStep 0 1%float; WorkerStep 0 2%float].

Definition silent_queue : @JobQueue string :=
  default init (run demo_manager silent_actions init).

(** C3 as stated fails at a job whose parser raises an exception with an
    empty message: [_execute] stores [str(e)], the empty string, as the
    error.  The job, created once and executed once by a worker, is FAILED
    with no result, and its error is set but empty; "the error is non-empty
    if and only if the status is FAILED" does not hold of it. *)
Lemma failed_with_empty_error :
  reachable demo_manager silent_queue
  ∧ ∃ j : @Job string,
      get_job silent_queue "job-4" = Some j
      ∧ heap silent_queue !! 0%nat = Some j
      ∧ 0%nat ∈ dispatched silent_queue
      ∧ status j = FAILED
      ∧ result j = None
      ∧ error j = Some ""%string
      ∧ Queue.truthy (error j) = false
      ∧ ¬ (Queue.truthy (error j) = true ↔ status j = FAILED).
Proof.
  split; [exists silent_actions; by vm_compute|].
  destruct (heap silent_queue !! 0%nat) as [j|] eqn:Hj; [|by vm_compute in Hj].
  exists j.
  assert (Hg : get_job silent_queue "job-4" = Some j).
  { rewrite <- Hj. by vm_compute. }
  assert (Hd : 0%nat ∈ dispatched silent_queue)
    by (apply (bool_decide_unpack _); by vm_compute).
  assert (Hs : status j = FAILED).
  { apply (inj Some). change (status <$> Some j = Some FAILED).
    rewrite <- Hj. by vm_compute. }
  assert (He : error j = Some ""%string).
  { apply (inj Some). change (error <$> Some j = Some (Some ""%string)).
    rewrite <- Hj. by vm_compute. }
  assert (Hr : result j = None).
  { apply (inj Some). change (result <$> Some j = Some None).
    rewrite <- Hj. by vm_compute. }
  split; [exact Hg|]. split; [done|]. split; [exact Hd|].
  split; [exact Hs|]. split; [exact Hr|]. split; [exact He|].
  rewrite He. split; [done|].
  intros [_ H]. by specialize (H Hs).
Qed.

(** The job of unknown kind, as the run above leaves it. *)
Definition bogus_job_after : @Job string :=
  default bogus_job (heap demo_queue !! 1%nat).

Lemma unknown_task_fails_witness :
  (task bogus_job_after ∉ known_tasks)
  ∧ reachable demo_manager demo_queue
  ∧ heap demo_queue !! 1%nat = Some bogus_job_after
  ∧ 1%nat ∈ dispatched demo_queue
  ∧ (1%nat ∉ flying demo_queue)
  ∧ status bogus_job_after = FAILED
  ∧ error bogus_job_after = Some "Unknown task: bogus"%string.
Proof.
  assert (H1 : task bogus_job_after ∉ known_tasks)
    by (apply (bool_decide_unpack _); by vm_compute).
  assert (H2 : heap demo_queue !! 1%nat = Some bogus_job_after) by (by vm_compute).
  assert (H3 : 1%nat ∈ dispatched demo_queue)
    by (apply (bool_decide_unpack _); by vm_compute).
  assert (H4 : 1%nat ∉ flying demo_queue)
    by (apply (bool_decide_unpack _); by vm_compute).
  split; [exact H1|]. split; [exact demo_queue_reachable|].
  split; [exact H2|]. split; [exact H3|]. split; [exact H4|].
  destruct (unknown_task_fails demo_manager bogus_job_after H1) as (_ & _ & H).
  destruct (H demo_queue 1%nat demo_queue_reachable H2) as (_ & Hf).
  destruct (Hf H3 H4) as (Hs & He & _). by split.
Defined.

(** C2, at a job whose parser raises an exception with an empty message
    (here the document parser, on empty content).  [_execute] records the
    failure: the job is FAILED and its error is the empty string.  But
    [run_sync] tests the error for truth, so it raises nothing and returns
    the job's result, [None], while [get_job] shows the job FAILED. *)
Theorem run_sync_empty_error_returns :
  let job := new_job "job-3" "parse_document" (demo_payload "") 0%float in
  let '(l, q) := alloc init job in
  let '(o, q') := run_sync demo_manager q l 1%float in
  _dispatch demo_manager job = Raised ""%string
  ∧ o = Returned None
  ∧ status <$> get_job q' "job-3" = Some FAILED
  ∧ error <$> get_job q' "job-3" = Some (Some ""%string).
Proof. by vm_compute. Qed.

End QueueProofs.

(** ** Part IV: properties of the semantic chunker *)

Module ChunkerProofs.
Import Chunker.

(** *** Whitespace *)

(** All-whitespace text, the empty text included. *)
Definition blank (s : pystr) : Prop := Forall (fun c => isspace c = true) s.

#[export] Instance blank_dec s : Decision (blank s).
Proof. unfold blank. apply Forall_dec. intros c. apply bool_eq_dec. Defined.

Lemma lstrip_head s c t : lstrip s = c :: t → isspace c = false.
Proof.
  induction s as [|a s IH]; [done|]. cbn.
  destruct (isspace a) eqn:Ha; [done|]. by intros [= <- _].
Qed.

Lemma lstrip_nil_iff s : lstrip s = [] ↔ blank s.
Proof.
  unfold blank. induction s as [|a s IH]; [done|]. cbn.
  destruct (isspace a) eqn:Ha.
  - rewrite IH. split; [by constructor|by inversion 1].
  - split; [done|]. inversion 1; congruence.
Qed.

Lemma lstrip_blank s : blank (lstrip s) → lstrip s = [].
Proof.
  destruct (lstrip s) as [|c t] eqn:Hs; [done|].
  apply lstrip_head in Hs. inversion 1; congruence.
Qed.

Lemma blank_reverse s : blank (reverse s) ↔ blank s.
Proof. apply Forall_reverse. Qed.

Lemma blank_app s t : blank (s ++ t) ↔ blank s ∧ blank t.
Proof. apply Forall_app. Qed.

Lemma reverse_nil_inv {A} (l : list A) : reverse l = [] → l = [].
Proof. intros H. by rewrite <- (reverse_involutive l), H. Qed.

Lemma rstrip_nil_iff s : rstrip s = [] ↔ blank s.
Proof.
  unfold rstrip. rewrite <- blank_reverse, <- lstrip_nil_iff.
  split; [apply reverse_nil_inv|by intros ->].
Qed.

Lemma rstrip_blank s : blank (rstrip s) → rstrip s = [].
Proof.
  unfold rstrip. rewrite blank_reverse. by intros ->%lstrip_blank.
Qed.

(** [not s.strip()] holds exactly of all-whitespace text. *)
Lemma strip_nil_iff s : strip s = [] ↔ blank s.
Proof.
  unfold strip. rewrite rstrip_nil_iff. split.
  - intros H%lstrip_blank. by apply lstrip_nil_iff.
  - intros H%lstrip_nil_iff. rewrite H. constructor.
Qed.

(** A stripped text that is not empty is not all-whitespace either. *)
Lemma strip_blank s : blank (strip s) → strip s = [].
Proof. apply rstrip_blank. Qed.

Lemma truthy_true {A} (l : list A) : truthy l = true ↔ l ≠ [].
Proof. by destruct l. Qed.

Lemma truthy_false {A} (l : list A) : truthy l = false ↔ l = [].
Proof. by destruct l. Qed.

Lemma blank_join sep ps : blank (join sep ps) → Forall blank ps.
Proof.
  induction ps as [|p [|p' ps] IH]; cbn.
  - constructor.
  - by repeat constructor.
  - intros [Hp [_ Hr]%blank_app]%blank_app. constructor; [done|by apply IH].
Qed.

(** *** The heading pattern always has its two groups *)

Fixpoint captures (pat : list item) : nat :=
  match pat with
  | [] => O
  | Rep _ _ _ true :: pat' => S (captures pat')
  | _ :: pat' => captures pat'
  end.

Lemma try_down_unfold {R} (f : nat → option R) lo k :
  try_down f lo k
  = if (k <? lo)%nat then None
    else match f k with
         | Some r => Some r
         | None => match k with
                   | O => None
                   | S k' => try_down f lo k'
                   end
         end.
Proof. by destruct k. Qed.

Lemma try_down_Some {R} (f : nat → option R) lo k r :
  try_down f lo k = Some r → ∃ k', f k' = Some r.
Proof.
  induction k as [|k IH]; rewrite try_down_unfold;
    (destruct (_ <? lo)%nat; [done|]);
    destruct (f _) eqn:Hf; try done; intros [= <-]; eauto.
Qed.

Lemma match_here_groups pat prev s n gs :
  match_here pat prev s = Some (n, gs) → length gs = captures pat.
Proof.
  revert prev s n gs. induction pat as [|it pat IH]; intros prev s n gs; cbn.
  - by intros [= _ <-].
  - destruct it as [| |cls lo hi capture].
    + destruct (at_bol prev); [apply IH|done].
    + destruct (at_eol s); [apply IH|done].
    + intros [k Hk]%try_down_Some.
      destruct (match_here pat _ _) as [[n' gs']|] eqn:Hm; [|done].
      cbn in Hk. injection Hk as _ <-. apply IH in Hm.
      destruct capture; cbn; by rewrite Hm.
Qed.

Lemma scan_groups pat prev s pos skip m :
  m ∈ scan pat prev s pos skip → length (groups m) = captures pat.
Proof.
  revert prev pos skip. induction s as [|c s IH]; intros prev pos skip; cbn.
  - destruct skip; [|by intros ?%elem_of_nil].
    destruct (match_here pat prev []) as [[n gs]|] eqn:Hm; [|by intros ?%elem_of_nil].
    intros ->%list_elem_of_singleton. cbn. by eapply match_here_groups.
  - destruct skip; [|apply IH].
    destruct (match_here pat prev (c :: s)) as [[n gs]|] eqn:Hm; [|apply IH].
    intros [->|Hin]%elem_of_cons; [cbn; by eapply match_here_groups|by eapply IH].
Qed.

Lemma heading_groups text m :
  m ∈ finditer heading_pattern text → length (groups m) = 2%nat.
Proof. apply scan_groups. Qed.

(** *** Heading segmentation *)

(** A loop whose body cannot raise on the items it is given returns, and
    keeps what its body keeps. *)
Lemma for_each_Ok {A S} (P : S → Prop) (xs : list A) s (body : S → A → result S) :
  P s →
  (∀ s x, P s → x ∈ xs → ∃ s', body s x = Ok s' ∧ P s') →
  ∃ s', for_each xs s body = Ok s' ∧ P s'.
Proof.
  revert s. induction xs as [|x xs IH]; intros s Hs Hbody; cbn.
  - eauto.
  - destruct (Hbody s x Hs) as (s1 & -> & Hs1); [by left|]. cbn.
    apply IH; [done|]. intros s2 y Hs2 Hy. apply Hbody; [done|by right].
Qed.

(** Where the body under the [i]-th heading ends. *)
Definition next_start (text : pystr) (ms : list re_match) (i : nat) : nat :=
  match ms !! S i with
  | Some m' => m_start m'
  | None => length text
  end.

(** The section the [i]-th heading would give, were its body kept. *)
Definition candidate (text : pystr) (ms : list re_match) (i : nat) (m : re_match)
  : option pystr * pystr :=
  (Some (strip (default [] (groups m !! 1%nat))),
   strip (slice text (m_end m) (next_start text ms i))).

(** The preamble and the headings with their bodies, in order. *)
Definition candidates (text : pystr) (ms : list re_match) : list (option pystr * pystr) :=
  match ms with
  | [] => [(None, text)]
  | m0 :: _ => (None, strip (slice text 0 (m_start m0))) :: imap (candidate text ms) ms
  end.

Definition has_body (sec : option pystr * pystr) : Prop := sec.2 ≠ [].

#[export] Instance has_body_dec sec : Decision (has_body sec).
Proof. unfold has_body. apply _. Defined.

Lemma heading_body_Ok text ms acc k m :
  length (groups m) = 2%nat →
  heading_body text ms acc (k, m)
  = Ok (acc ++ filter has_body [candidate text ms k m]).
Proof.
  intros Hm. unfold heading_body, candidate, group, getitem.
  destruct (groups m) as [|g1 [|g2 [|]]] eqn:Hgs; try done. cbn [pred lookup list_lookup].
  cbn [mbind result_bind].
  assert (Hend : (if (k + 1 <? length ms)%nat
                  then m' ← match ms !! (k + 1)%nat with
                            | Some x => Ok x
                            | None => IndexError
                            end; Ok (m_start m')
                  else Ok (length text)) = Ok (next_start text ms k)).
  { unfold next_start. rewrite Nat.add_1_r.
    destruct (S k <? length ms)%nat eqn:Hlt.
    - apply Nat.ltb_lt, lookup_lt_is_Some in Hlt as [m' Hm']. by rewrite Hm'.
    - apply Nat.ltb_ge, lookup_ge_None in Hlt. by rewrite Hlt. }
  rewrite Hend. cbn [mbind result_bind default].
  rewrite filter_cons, filter_nil.
  destruct (strip (slice text (m_end m) (next_start text ms k))) eqn:Hb; cbn [truthy].
  - rewrite decide_False by (unfold has_body; cbn; by intros []). by rewrite app_nil_r.
  - by rewrite decide_True by (unfold has_body; by cbn).
Qed.

Lemma heading_loop text ms k rest acc :
  (∀ m, m ∈ ms → length (groups m) = 2%nat) →
  drop k ms = rest →
  for_each (imap (fun i m => ((k + i)%nat, m)) rest) acc (heading_body text ms)
  = Ok (acc ++ filter has_body (imap (fun i m => candidate text ms (k + i) m) rest)).
Proof.
  intros Hg. revert k acc. induction rest as [|m rest IH]; intros k acc Hdrop.
  - cbn. by rewrite app_nil_r.
  - assert (Hk : ms !! k = Some m).
    { pose proof (lookup_drop ms k 0) as H. rewrite Hdrop, Nat.add_0_r in H. by cbn in H. }
    assert (Hrest : drop (S k) ms = rest).
    { pose proof (drop_drop ms 1 k) as H. rewrite Hdrop, Nat.add_1_r in H. by cbn in H. }
    assert (Hm : length (groups m) = 2%nat) by (eapply Hg, list_elem_of_lookup_2, Hk).
    rewrite !imap_cons, Nat.add_0_r. cbn [for_each].
    rewrite heading_body_Ok by done. cbn [mbind result_bind].
    rewrite (imap_ext _ (fun i m => ((S k + i)%nat, m)) rest)
      by (intros; cbn; f_equal; lia).
    rewrite (IH (S k)) by done. f_equal.
    rewrite (imap_ext (_ ∘ S) (fun i m => candidate text ms (S k + i) m) rest) 
      by (intros; cbn; f_equal; lia).
    rewrite <- app_assoc. f_equal.
    symmetry. exact (filter_app has_body [_] _).
Qed.

(** Heading segmentation never raises, and its sections are the preamble
    and the headings with their bodies, without those whose body is empty
    after trimming. *)
Lemma _split_by_headings_spec text :
  finditer heading_pattern text ≠ [] →
  _split_by_headings text
  = Ok (filter has_body (candidates text (finditer heading_pattern text))).
Proof.
  intros Hne. unfold _split_by_headings, candidates.
  pose proof (heading_groups text) as Hg.
  destruct (finditer heading_pattern text) as [|m0 ms] eqn:Hms; [done|].
  cbn [truthy negb getitem lookup list_lookup mbind result_bind].
  unfold enumerate.
  rewrite (heading_loop text (m0 :: ms) 0 (m0 :: ms)) by done.
  f_equal. rewrite filter_cons.
  destruct (strip (slice text 0 (m_start m0))) eqn:Hp; cbn [truthy].
  - rewrite decide_False by (unfold has_body; cbn; by intros []). done.
  - rewrite decide_True by (unfold has_body; by cbn). done.
Qed.

Lemma _split_by_headings_none text :
  finditer heading_pattern text = [] → _split_by_headings text = Ok [(None, text)].
Proof. intros H. unfold _split_by_headings. by rewrite H. Qed.

Lemma _split_by_headings_total text : ∃ secs, _split_by_headings text = Ok secs.
Proof.
  destruct (finditer heading_pattern text) eqn:H.
  - rewrite _split_by_headings_none by done. eauto.
  - rewrite _split_by_headings_spec by (by rewrite H). eauto.
Qed.

(** *** The loop over the sections *)

Section WithSettings.

Variables chunk_size chunk_overlap : Z.

Abbreviation _sliding_window := (Chunker._sliding_window chunk_size chunk_overlap).
Abbreviation chunk_section := (Chunker.chunk_section chunk_size chunk_overlap).
Abbreviation chunk := (Chunker.chunk chunk_size chunk_overlap).

(** The chunk made of one window, or of one whole section. *)
Definition mk_chunk (section_title : option pystr) (i : Z) (sub : pystr) (t : Z)
  : DocumentChunk :=
  {| index := i; text := strip sub; page := None; section := section_title;
     tokens := Some t |}.

(** What one section appends to [chunks] when [index] is [i]. *)
Definition section_chunks (i : Z) (sec : option pystr * pystr) : list DocumentChunk :=
  (chunk_section ([], i) sec).1.

(** What a run of sections appends. *)
Fixpoint all_chunks (i : Z) (secs : list (option pystr * pystr)) : list DocumentChunk :=
  match secs with
  | [] => []
  | sec :: rest =>
      section_chunks i sec
      ++ all_chunks (i + Z.of_nat (length (section_chunks i sec))) rest
  end.

Lemma emit_windows title ws cs i :
  fold_left
    (fun '(chunks, index) sub =>
       (chunks ++ [{| index := index; text := strip sub; page := None;
                      section := title;
                      tokens := Some (_estimate_tokens sub) |}],
        index + 1))
    ws (cs, i)
  = (cs ++ imap (fun k sub => mk_chunk title (i + Z.of_nat k) sub (_estimate_tokens sub)) ws,
     i + Z.of_nat (length ws)).
Proof.
  revert cs i. induction ws as [|w ws IH]; intros cs i.
  - cbn. by rewrite app_nil_r, Z.add_0_r.
  - cbn [fold_left]. rewrite IH, imap_cons, <- app_assoc. cbn [app length].
    f_equal; [|lia]. f_equal. unfold mk_chunk at 2. rewrite Z.add_0_r. f_equal.
    apply imap_ext. intros k sub _. cbn. f_equal. lia.
Qed.

Lemma section_chunks_small i title body :
  _estimate_tokens body ≤ chunk_size →
  section_chunks i (title, body) = [mk_chunk title i body (_estimate_tokens body)].
Proof.
  intros Hle. unfold section_chunks, Chunker.chunk_section.
  by rewrite (proj2 (Z.leb_le _ _) Hle).
Qed.

Lemma section_chunks_large i title body :
  chunk_size < _estimate_tokens body →
  section_chunks i (title, body)
  = imap (fun k sub => mk_chunk title (i + Z.of_nat k) sub (_estimate_tokens sub))
      (_sliding_window body).
Proof.
  intros Hlt. unfold section_chunks, Chunker.chunk_section.
  rewrite (proj2 (Z.leb_gt _ _) Hlt). by rewrite emit_windows.
Qed.

Lemma chunk_section_app cs i sec :
  chunk_section (cs, i) sec
  = (cs ++ section_chunks i sec, i + Z.of_nat (length (section_chunks i sec))).
Proof.
  destruct sec as [title body].
  destruct (Z.le_gt_cases (_estimate_tokens body) chunk_size) as [Hle|Hlt].
  - rewrite section_chunks_small by done. unfold Chunker.chunk_section.
    by rewrite (proj2 (Z.leb_le _ _) Hle).
  - rewrite section_chunks_large by done. unfold Chunker.chunk_section.
    rewrite (proj2 (Z.leb_gt _ _) Hlt). by rewrite emit_windows, length_imap.
Qed.

Lemma chunk_sections_app secs cs i :
  fold_left chunk_section secs (cs, i)
  = (cs ++ all_chunks i secs, i + Z.of_nat (length (all_chunks i secs))).
Proof.
  revert cs i. induction secs as [|sec secs IH]; intros cs i.
  - cbn. by rewrite app_nil_r, Z.add_0_r.
  - cbn [fold_left all_chunks]. rewrite chunk_section_app, IH, <- app_assoc.
    f_equal. rewrite length_app. lia.
Qed.

Lemma all_chunks_app i secs1 secs2 :
  all_chunks i (secs1 ++ secs2)
  = all_chunks i secs1
    ++ all_chunks (i + Z.of_nat (length (all_chunks i secs1))) secs2.
Proof.
  revert i. induction secs1 as [|sec secs1 IH]; intros i.
  - cbn. by rewrite Z.add_0_r.
  - cbn [app all_chunks]. rewrite IH, <- app_assoc. do 3 f_equal.
    rewrite length_app. lia.
Qed.

(** [chunk] on text that is not all-whitespace: the chunks of its
    sections, numbered from 0. *)
Lemma chunk_sections text secs :
  ¬ blank text → _split_by_headings text = Ok secs →
  chunk text = Ok (all_chunks 0 secs).
Proof.
  intros Hb Hs. unfold Chunker.chunk.
  assert (truthy text = true) as ->.
  { apply truthy_true. intros ->. apply Hb. constructor. }
  assert (truthy (strip text) = true) as ->.
  { apply truthy_true. by rewrite strip_nil_iff. }
  cbn [negb orb]. rewrite Hs. cbn [mbind result_bind].
  by rewrite chunk_sections_app.
Qed.

Lemma chunk_blank text : blank text → chunk text = Ok [].
Proof.
  intros Hb%strip_nil_iff. unfold Chunker.chunk. rewrite Hb. cbn.
  by rewrite orb_true_r.
Qed.

End WithSettings.

(** *** Trimmed text *)

(** Text that neither starts nor ends with whitespace. *)
Definition trimmed (s : pystr) : Prop :=
  (∀ c, head s = Some c → isspace c = false)
  ∧ (∀ c, last s = Some c → isspace c = false).

Lemma lstrip_suffix s : ∃ w, s = w ++ lstrip s.
Proof.
  induction s as [|a s [w IH]]; [by exists []|]. cbn.
  destruct (isspace a); [|by exists []].
  exists (a :: w). cbn. by rewrite <- IH.
Qed.

Lemma rstrip_prefix s : ∃ w, s = rstrip s ++ w.
Proof.
  unfold rstrip. destruct (lstrip_suffix (reverse s)) as [w Hw].
  exists (reverse w). rewrite <- reverse_app, <- Hw. by rewrite reverse_involutive.
Qed.

Lemma strip_trimmed s : trimmed (strip s).
Proof.
  split; intros c Hc.
  - unfold strip in Hc. destruct (rstrip_prefix (lstrip s)) as [w Hw].
    destruct (rstrip (lstrip s)) as [|c' t] eqn:Hr; [done|]. cbn in Hc.
    injection Hc as ->. rewrite <- app_comm_cons in Hw.
    by apply lstrip_head in Hw.
  - unfold strip, rstrip in Hc. rewrite last_reverse in Hc.
    destruct (lstrip (reverse (lstrip s))) as [|c' t] eqn:Hl; [done|].
    injection Hc as ->. by apply lstrip_head in Hl.
Qed.

Lemma trimmed_strip s : trimmed s → strip s = s.
Proof.
  intros [Hh Hl].
  assert (Hlstrip : ∀ t, (∀ c, head t = Some c → isspace c = false) → lstrip t = t).
  { intros [|c t] Ht; [done|]. cbn. by rewrite (Ht c). }
  unfold strip, rstrip. rewrite (Hlstrip s) by done.
  rewrite Hlstrip; [apply reverse_involutive|].
  intros c. rewrite head_reverse. apply Hl.
Qed.

Lemma trimmed_not_blank s : s ≠ [] → trimmed s → ¬ blank s.
Proof.
  destruct s as [|c s]; [done|]. intros _ [Hh _] Hb.
  inversion Hb; subst. rewrite (Hh c) in *; done.
Qed.

Lemma trimmed_app a m b :
  a ≠ [] → b ≠ [] → trimmed a → trimmed b → trimmed (a ++ m ++ b).
Proof.
  intros Ha Hb [Hha _] [_ Hlb]. split; intros c.
  - destruct a; [done|]. apply Hha.
  - rewrite !last_app. destruct (last b) eqn:Hlast; [apply Hlb|].
    by apply last_None in Hlast.
Qed.

Lemma join_trimmed sep ps :
  ps ≠ [] → Forall (fun p => p ≠ [] ∧ trimmed p) ps →
  join sep ps ≠ [] ∧ trimmed (join sep ps).
Proof.
  induction ps as [|p [|p' ps] IH]; [done|..].
  - intros _ [[??] _]%Forall_cons. done.
  - intros _ [[Hp Ht] Hrest]%Forall_cons.
    destruct IH as [Hne Htr]; [done|done|].
    change (join sep (p :: p' :: ps)) with (p ++ sep ++ join sep (p' :: ps)).
    split; [by destruct p|by apply trimmed_app].
Qed.

(** Every paragraph is trimmed and not empty. *)
Lemma paragraphs_trimmed text :
  Forall (fun p => p ≠ [] ∧ trimmed p) (paragraphs text).
Proof.
  unfold paragraphs. apply Forall_fmap, Forall_forall.
  intros p [Hp _]%list_elem_of_filter. cbn.
  split; [by apply truthy_true|apply strip_trimmed].
Qed.

(** *** The sliding window *)

Lemma _estimate_tokens_pos p : 1 ≤ _estimate_tokens p.
Proof. unfold _estimate_tokens. lia. Qed.

(** The cumulative size estimate of some paragraphs. *)
Definition sum_tokens (ps : list pystr) : Z :=
  foldr (fun p acc => _estimate_tokens p + acc) 0 ps.

Lemma sum_tokens_cons p ps : sum_tokens (p :: ps) = _estimate_tokens p + sum_tokens ps.
Proof. done. Qed.

Lemma sum_tokens_app ps qs : sum_tokens (ps ++ qs) = sum_tokens ps + sum_tokens qs.
Proof.
  induction ps as [|p ps IH]; [done|].
  rewrite <- app_comm_cons, !sum_tokens_cons. lia.
Qed.

Lemma sum_tokens_nonneg ps : 0 ≤ sum_tokens ps.
Proof.
  induction ps as [|p ps IH]; [done|].
  rewrite sum_tokens_cons. pose proof (_estimate_tokens_pos p). lia.
Qed.

Lemma sum_tokens_pos ps : ps ≠ [] → 1 ≤ sum_tokens ps.
Proof.
  destruct ps as [|p ps]; [done|]. intros _. rewrite sum_tokens_cons.
  pose proof (_estimate_tokens_pos p). pose proof (sum_tokens_nonneg ps). lia.
Qed.

Lemma sum_tokens_reverse ps : sum_tokens (reverse ps) = sum_tokens ps.
Proof.
  induction ps as [|p ps IH]; [done|].
  rewrite reverse_cons, sum_tokens_app, !sum_tokens_cons, IH. cbn. lia.
Qed.

Section Window.

Variables chunk_size chunk_overlap : Z.

Abbreviation overlap_loop := (Chunker.overlap_loop chunk_overlap).
Abbreviation window_step := (Chunker.window_step chunk_size chunk_overlap).
Abbreviation _sliding_window := (Chunker._sliding_window chunk_size chunk_overlap).

(** The paragraphs a flushed window hands to the next one. *)
Definition overlap_of (paras : list pystr) : list pystr :=
  (overlap_loop (reverse paras) [] 0).1.

(** The backward walk takes paragraphs while they fit: what it returns is
    the accumulator extended by the longest run of paragraphs, from the end
    of the window, whose estimates add up to at most [chunk_overlap]. *)
Lemma overlap_loop_spec rev_paras acc tok :
  ∃ taken rest,
    rev_paras = taken ++ rest
    ∧ overlap_loop rev_paras acc tok = (reverse taken ++ acc, tok + sum_tokens taken)
    ∧ (taken = [] ∨ tok + sum_tokens taken ≤ chunk_overlap)
    ∧ (∀ p, head rest = Some p → chunk_overlap < tok + sum_tokens taken + _estimate_tokens p).
Proof.
  revert acc tok. induction rev_paras as [|p rev_paras IH]; intros acc tok.
  - exists [], []. cbn. rewrite Z.add_0_r.
    split; [done|]. split; [done|]. split; [by left|done].
  - cbn [Chunker.overlap_loop].
    destruct (tok + _estimate_tokens p >? chunk_overlap) eqn:Hgt.
    + exists [], (p :: rev_paras). cbn. rewrite Z.add_0_r.
      split; [done|]. split; [done|]. split; [by left|].
      intros ? [= <-]. lia.
    + destruct (IH (p :: acc) (tok + _estimate_tokens p))
        as (taken & rest & -> & Heq & Hle & Hmax).
      exists (p :: taken), rest. rewrite sum_tokens_cons.
      split; [done|]. split; [|split].
      * rewrite Heq, reverse_cons, <- app_assoc. cbn. f_equal. lia.
      * right. destruct Hle as [->|Hle]; cbn in *; lia.
      * intros q Hq. specialize (Hmax q Hq). lia.
Qed.

Lemma overlap_of_spec paras :
  ∃ dropped,
    paras = dropped ++ overlap_of paras
    ∧ overlap_loop (reverse paras) [] 0 = (overlap_of paras, sum_tokens (overlap_of paras))
    ∧ (overlap_of paras = [] ∨ sum_tokens (overlap_of paras) ≤ chunk_overlap)
    ∧ (∀ p, last dropped = Some p →
         chunk_overlap < _estimate_tokens p + sum_tokens (overlap_of paras)).
Proof.
  unfold overlap_of.
  destruct (overlap_loop_spec (reverse paras) [] 0)
    as (taken & rest & Hrev & Heq & Hle & Hmax).
  rewrite Heq. cbn [fst]. rewrite app_nil_r, sum_tokens_reverse.
  exists (reverse rest). split; [|split; [|split]].
  - rewrite <- reverse_app, <- Hrev. by rewrite reverse_involutive.
  - done.
  - destruct Hle as [->|Hle]; [by left|right]. lia.
  - intros p Hp. rewrite last_reverse in Hp. specialize (Hmax p Hp). lia.
Qed.

(** The two ways one iteration of the loop goes. *)
Lemma window_step_flush st para :
  current_paras st ≠ [] →
  chunk_size < current_tokens st + _estimate_tokens para →
  window_step st para
  = {| windows := windows st ++ [join PARA_SEP (current_paras st)];
       current_tokens := sum_tokens (overlap_of (current_paras st)) + _estimate_tokens para;
       current_paras := overlap_of (current_paras st) ++ [para] |}.
Proof.
  intros Hne%truthy_true Hgt. unfold Chunker.window_step.
  rewrite Hne, (proj2 (Z.gtb_gt _ _)) by lia. cbn [andb].
  destruct (overlap_of_spec (current_paras st)) as (_ & _ & -> & _). done.
Qed.

Lemma window_step_keep st para :
  current_paras st = [] ∨ current_tokens st + _estimate_tokens para ≤ chunk_size →
  window_step st para
  = {| windows := windows st;
       current_tokens := current_tokens st + _estimate_tokens para;
       current_paras := current_paras st ++ [para] |}.
Proof.
  intros H. unfold Chunker.window_step.
  assert ((current_tokens st + _estimate_tokens para >? chunk_size)
          && truthy (current_paras st) = false) as ->; [|done].
  destruct H as [->|Hle]; [by rewrite andb_false_r|].
  rewrite Z.gtb_ltb, (proj2 (Z.ltb_ge _ _)); done.
Qed.

(** C6. Whenever a window is flushed (the window is not empty and the next
    paragraph would overflow it), the flushed window is the joined current
    paragraphs, and the next window starts from [carried], a suffix of the
    flushed window's paragraphs in their order: whole paragraphs, taken from
    the end backward up to the first that no longer fits (the paragraph
    before [carried], if any, would exceed [chunk_overlap]); the carried
    paragraphs' cumulative estimate is at most [chunk_overlap] (no paragraph
    is carried when [chunk_overlap] is below 1), and it is the running
    estimate the next window starts from. *)
Theorem overlap_carry st para :
  current_paras st ≠ [] →
  chunk_size < current_tokens st + _estimate_tokens para →
  let st' := window_step st para in
  windows st' = windows st ++ [join PARA_SEP (current_paras st)]
  ∧ ∃ dropped carried,
      current_paras st = dropped ++ carried
      ∧ current_paras st' = carried ++ [para]
      ∧ current_tokens st' = sum_tokens carried + _estimate_tokens para
      ∧ (carried = [] ∨ sum_tokens carried ≤ chunk_overlap)
      ∧ (0 ≤ chunk_overlap → sum_tokens carried ≤ chunk_overlap)
      ∧ (∀ p, last dropped = Some p →
           chunk_overlap < _estimate_tokens p + sum_tokens carried).
Proof.
  intros Hne Hgt. cbn zeta. rewrite window_step_flush by done. cbn.
  split; [done|].
  destruct (overlap_of_spec (current_paras st)) as (dropped & Heq & _ & Hle & Hmax).
  exists dropped, (overlap_of (current_paras st)).
  split; [done|]. split; [done|]. split; [done|]. split; [done|]. split; [|done].
  intros Hov. destruct Hle as [->|Hle]; [done|lia].
Qed.

(** The loop over the paragraphs: after the paragraphs [processed], the
    running estimate is that of the current paragraphs, which are the last of
    the processed ones, and every window flushed so far is a non-empty run
    of processed paragraphs, joined. *)
Record win_inv (processed : list pystr) (st : window_state) : Prop := {
  wi_tokens : current_tokens st = sum_tokens (current_paras st);
  wi_suffix : ∃ d, processed = d ++ current_paras st;
  wi_nonempty : processed ≠ [] → current_paras st ≠ [];
  wi_windows : Forall (fun w => ∃ ps, ps ≠ [] ∧ w = join PARA_SEP ps ∧ ps ⊆ processed)
                 (windows st);
}.

Definition window_init : window_state :=
  {| windows := []; current_tokens := 0; current_paras := [] |}.

Lemma win_inv_init : win_inv [] window_init.
Proof. split; cbn; [done|by exists []|done|constructor]. Qed.

Lemma win_inv_step processed st para :
  win_inv processed st → win_inv (processed ++ [para]) (window_step st para).
Proof.
  intros [Htok [d Hd] Hne Hws].
  assert (Hws' : Forall (fun w => ∃ ps, ps ≠ [] ∧ w = join PARA_SEP ps
                                        ∧ ps ⊆ processed ++ [para]) (windows st)).
  { eapply Forall_impl; [exact Hws|]. intros w (ps & ? & ? & Hsub).
    exists ps. split; [done|]. split; [done|].
    intros x Hx. apply elem_of_app. left. by apply Hsub. }
  destruct (decide (current_paras st = [])) as [Hnil|Hcur].
  { rewrite window_step_keep by (by left). rewrite Hnil. split; cbn.
    - rewrite Htok, Hnil. cbn. lia.
    - exists processed. done.
    - done.
    - done. }
  destruct (Z.le_gt_cases (current_tokens st + _estimate_tokens para) chunk_size)
    as [Hle|Hgt].
  { rewrite window_step_keep by (by right). split; cbn.
    - rewrite sum_tokens_app, Htok. cbn. lia.
    - exists d. by rewrite Hd, <- app_assoc.
    - intros _. by destruct (current_paras st).
    - done. }
  rewrite window_step_flush by done.
  destruct (overlap_of_spec (current_paras st)) as (dropped & Heq & _).
  split; cbn.
  - rewrite sum_tokens_app. cbn. lia.
  - exists (d ++ dropped). rewrite Hd. rewrite Heq at 1. by rewrite <- !app_assoc.
  - intros _. by destruct (overlap_of (current_paras st)).
  - apply Forall_app. split; [done|]. constructor; [|constructor].
    exists (current_paras st). split; [done|]. split; [done|].
    intros x Hx. apply elem_of_app. left. rewrite Hd. apply elem_of_app. by right.
Qed.

Lemma win_inv_fold ps processed st :
  win_inv processed st → win_inv (processed ++ ps) (fold_left window_step ps st).
Proof.
  revert processed st. induction ps as [|p ps IH]; intros processed st HI.
  - by rewrite app_nil_r.
  - cbn [fold_left]. rewrite (cons_middle p processed ps), app_assoc.
    by apply IH, win_inv_step.
Qed.

Lemma windows_grow ps st :
  ∃ ws, windows (fold_left window_step ps st) = windows st ++ ws.
Proof.
  revert st. induction ps as [|p ps IH]; intros st.
  - exists []. by rewrite app_nil_r.
  - cbn [fold_left]. destruct (IH (window_step st p)) as [ws ->].
    unfold Chunker.window_step.
    destruct (_ && _); [destruct (overlap_loop _ _ _)|]; cbn; [|by eauto].
    exists (join PARA_SEP (current_paras st) :: ws). by rewrite <- app_assoc.
Qed.

(** What [_sliding_window] returns: the windows flushed in the loop, and
    the last window. *)
Lemma _sliding_window_unfold text :
  let st := fold_left window_step (paragraphs text) window_init in
  _sliding_window text
  = windows st ++ (if truthy (current_paras st)
                   then [join PARA_SEP (current_paras st)] else []).
Proof.
  cbn zeta. unfold Chunker._sliding_window. fold window_init.
  destruct (truthy _); [done|by rewrite app_nil_r].
Qed.

(** Every window is a non-empty run of paragraphs of the section, joined. *)
Lemma _sliding_window_windows text w :
  w ∈ _sliding_window text →
  ∃ ps, ps ≠ [] ∧ w = join PARA_SEP ps ∧ ps ⊆ paragraphs text.
Proof.
  rewrite _sliding_window_unfold.
  pose proof (win_inv_fold (paragraphs text) [] window_init win_inv_init) as HI.
  cbn [app] in HI. destruct HI as [_ [d Hd] _ Hws].
  intros [Hw|Hw]%elem_of_app.
  - rewrite Forall_forall in Hws. by apply Hws.
  - destruct (current_paras _) as [|p cur] eqn:Hcur; cbn in Hw; [by apply elem_of_nil in Hw|].
    apply list_elem_of_singleton in Hw as ->.
    exists (p :: cur). split; [done|]. split; [done|].
    intros x Hx. rewrite Hd. apply elem_of_app. by right.
Qed.

(** A window is trimmed already, and not all-whitespace. *)
Lemma _sliding_window_trimmed text w :
  w ∈ _sliding_window text → strip w = w ∧ ¬ blank w.
Proof.
  intros Hw. apply _sliding_window_windows in Hw as (ps & Hne & Hw & Hsub). subst w.
  destruct (join_trimmed PARA_SEP ps Hne) as [Hj Ht].
  { apply Forall_forall. intros p Hp%Hsub.
    by apply (proj1 (Forall_forall _ _) (paragraphs_trimmed text)). }
  split; [by apply trimmed_strip|by apply trimmed_not_blank].
Qed.

(** A window whose running estimate is over [chunk_size] is flushed as it
    is: by the next paragraph, or at the end of the section. *)
Lemma flushed_as_is st post :
  current_paras st ≠ [] → chunk_size < current_tokens st →
  let st' := fold_left window_step post st in
  join PARA_SEP (current_paras st)
  ∈ windows st' ++ (if truthy (current_paras st')
                    then [join PARA_SEP (current_paras st')] else []).
Proof.
  intros Hne Hgt. destruct post as [|q post]; cbn zeta; cbn [fold_left].
  - apply elem_of_app. right. apply truthy_true in Hne. rewrite Hne. by left.
  - pose proof (_estimate_tokens_pos q).
    destruct (windows_grow post (window_step st q)) as [ws ->].
    rewrite window_step_flush by first [done|lia]. cbn [windows].
    apply elem_of_app. left. apply elem_of_app. left. apply elem_of_app. right. by left.
Qed.

End Window.

(** *** The chunks of a call *)

Lemma length_lstrip s : (length (lstrip s) ≤ length s)%nat.
Proof. destruct (lstrip_suffix s) as [w Hw]. rewrite Hw at 2. rewrite length_app. lia. Qed.

Lemma length_strip s : (length (strip s) ≤ length s)%nat.
Proof.
  unfold strip, rstrip. rewrite length_reverse.
  etrans; [apply length_lstrip|]. rewrite length_reverse. apply length_lstrip.
Qed.

Lemma length_slice {A} (l : list A) a b : (length (slice l a b) ≤ length l)%nat.
Proof. unfold slice. rewrite length_take, length_drop. lia. Qed.

Lemma split_at_length text ms from piece :
  piece ∈ split_at text ms from → (length piece ≤ length text)%nat.
Proof.
  revert from. induction ms as [|m ms IH]; intros from; cbn.
  - intros ->%list_elem_of_singleton. apply length_slice.
  - intros [->|Hin]%elem_of_cons; [apply length_slice|by eapply IH].
Qed.

(** A paragraph is no longer than the section it comes from. *)
Lemma paragraphs_length text p : p ∈ paragraphs text → (length p ≤ length text)%nat.
Proof.
  unfold paragraphs. intros (piece & -> & [_ Hin]%list_elem_of_filter)%list_elem_of_fmap.
  etrans; [apply length_strip|]. by eapply split_at_length.
Qed.

Lemma _estimate_tokens_mono a b :
  (length a ≤ length b)%nat → _estimate_tokens a ≤ _estimate_tokens b.
Proof.
  intros H. unfold _estimate_tokens.
  assert (Z.of_nat (length a) / 4 ≤ Z.of_nat (length b) / 4)
    by (apply Z.div_le_mono; lia).
  lia.
Qed.

Section Properties.

Variables chunk_size chunk_overlap : Z.

Abbreviation _sliding_window := (Chunker._sliding_window chunk_size chunk_overlap).
Abbreviation window_step := (Chunker.window_step chunk_size chunk_overlap).
Abbreviation chunk := (Chunker.chunk chunk_size chunk_overlap).
Abbreviation section_chunks := (section_chunks chunk_size chunk_overlap).
Abbreviation all_chunks := (all_chunks chunk_size chunk_overlap).

(** C5, as the code has it.  In the splitting of an oversized section, a
    paragraph [P] whose own estimate exceeds [chunk_size] is emitted whole,
    as the last paragraph of a window: the window is [carried ++ [P]] joined
    by blank lines, where [carried] are the paragraphs carried over as
    overlap, a suffix of the paragraphs before [P] whose estimates add up to
    at most [chunk_overlap].  The section emits a chunk whose text is that
    window.  When nothing is carried over ([P] is the first paragraph, or
    [chunk_overlap] is below 1), the text is [P] alone. *)
Theorem oversized_paragraph_whole (section_text : pystr) pre P post :
  paragraphs section_text = pre ++ P :: post →
  chunk_size < _estimate_tokens P →
  ∃ dropped carried,
    pre = dropped ++ carried
    ∧ (carried = [] ∨ sum_tokens carried ≤ chunk_overlap)
    ∧ (chunk_overlap < 1 → carried = [])
    ∧ join PARA_SEP (carried ++ [P]) ∈ _sliding_window section_text
    ∧ ∀ i title, ∃ c,
        c ∈ section_chunks i (title, section_text)
        ∧ text c = join PARA_SEP (carried ++ [P])
        ∧ section c = title.
Proof.
  intros Hps Hbig.
  set (st0 := fold_left window_step pre window_init).
  pose proof (win_inv_fold chunk_size chunk_overlap pre [] window_init
                (win_inv_init)) as HI.
  cbn [app] in HI. fold st0 in HI. destruct HI as [Htok [d Hd] Hne _].
  pose proof (sum_tokens_nonneg (current_paras st0)) as Hpos.
  (* the iteration on [P] *)
  assert (∃ dropped carried,
            pre = dropped ++ carried
            ∧ (carried = [] ∨ sum_tokens carried ≤ chunk_overlap)
            ∧ current_paras (window_step st0 P) = carried ++ [P]
            ∧ current_tokens (window_step st0 P)
              = sum_tokens carried + _estimate_tokens P)
    as (dropped & carried & Hpre & Hle & Hcur & Htok1).
  { destruct (decide (current_paras st0 = [])) as [Hnil|Hcur].
    - exists pre, []. rewrite window_step_keep by (by left).
      rewrite Hnil in *. cbn. rewrite Htok.
      split; [by rewrite app_nil_r|]. split; [by left|done].
    - rewrite window_step_flush by first [done|lia].
      destruct (overlap_of_spec chunk_overlap (current_paras st0))
        as (dropped & Heq & _ & Hle & _).
      exists (d ++ dropped), (overlap_of chunk_overlap (current_paras st0)). cbn.
      split; [|done]. rewrite Hd. rewrite Heq at 1. by rewrite <- app_assoc. }
  assert (Hin : join PARA_SEP (carried ++ [P]) ∈ _sliding_window section_text).
  { rewrite _sliding_window_unfold, Hps, fold_left_app. cbn [fold_left].
    fold st0. rewrite <- Hcur. apply flushed_as_is.
    - rewrite Hcur. by destruct carried.
    - rewrite Htok1. pose proof (sum_tokens_nonneg carried). lia. }
  exists dropped, carried.
  split; [done|]. split; [done|]. split; [|split; [done|]].
  - intros Hov. destruct Hle as [Hc|Hle]; [done|].
    destruct carried as [|p carried]; [done|].
    pose proof (sum_tokens_pos (p :: carried) ltac:(done)). lia.
  - intros i title.
    assert (Hlarge : chunk_size < _estimate_tokens section_text).
    { eapply Z.lt_le_trans; [exact Hbig|]. apply _estimate_tokens_mono.
      apply paragraphs_length. rewrite Hps. apply elem_of_app. right. by left. }
    rewrite section_chunks_large by done.
    apply list_elem_of_lookup in Hin as [k Hk].
    eexists. split; [by eapply elem_of_lookup_imap_2|]. cbn.
    split; [|done].
    apply (_sliding_window_trimmed chunk_size chunk_overlap section_text).
    by eapply list_elem_of_lookup_2.
Qed.

(** C7. A section of the heading segmentation whose estimate
    [max(1, len // 4)] is at most [chunk_size] (equal to it included) gives
    exactly one chunk: between the chunks of the sections before it and
    those of the sections after it, [chunk] returns one chunk with the
    section's heading, its trimmed text and its estimate. *)
Theorem small_section_one_chunk text pre title body post :
  ¬ blank text →
  _split_by_headings text = Ok (pre ++ (title, body) :: post) →
  Z.max 1 (Z.of_nat (length body) / 4) ≤ chunk_size →
  let before := all_chunks 0 pre in
  let i := Z.of_nat (length before) in
  let c := {| index := i; text := strip body; page := None; section := title;
              tokens := Some (_estimate_tokens body) |} in
  section_chunks i (title, body) = [c]
  ∧ chunk text = Ok (before ++ c :: all_chunks (i + 1) post).
Proof.
  intros Hb Hs Hle. cbn zeta.
  assert (Hone : ∀ i, section_chunks i (title, body)
                      = [mk_chunk title i body (_estimate_tokens body)])
    by (intros; by apply section_chunks_small).
  split; [apply Hone|].
  rewrite (chunk_sections chunk_size chunk_overlap text _ Hb Hs).
  rewrite all_chunks_app, Z.add_0_l. cbn [ChunkerProofs.all_chunks].
  by rewrite Hone.
Qed.

Lemma section_chunks_index i sec :
  index <$> section_chunks i sec = seqZ i (Z.of_nat (length (section_chunks i sec))).
Proof.
  destruct sec as [title body].
  destruct (Z.le_gt_cases (_estimate_tokens body) chunk_size) as [Hle|Hlt].
  - rewrite section_chunks_small by done. cbn.
    rewrite seqZ_cons by lia. by rewrite seqZ_nil by lia.
  - rewrite section_chunks_large by done.
    rewrite fmap_imap, length_imap.
    rewrite (imap_ext _ (fun k _ => i + Z.of_nat k)) by done.
    rewrite imap_seq_0. unfold seqZ. rewrite Nat2Z.id.
    apply list_fmap_ext. intros; lia.
Qed.

Lemma all_chunks_index i secs :
  index <$> all_chunks i secs = seqZ i (Z.of_nat (length (all_chunks i secs))).
Proof.
  revert i. induction secs as [|sec secs IH]; intros i; [done|].
  cbn [ChunkerProofs.all_chunks]. rewrite fmap_app, length_app, Nat2Z.inj_add.
  rewrite seqZ_app by lia. by rewrite section_chunks_index, IH.
Qed.

(** C9. [chunk] never raises: on every text it returns a list of chunks;
    on the empty text and on all-whitespace text it returns the empty
    list. *)
Theorem chunk_total text :
  (∃ chunks, chunk text = Ok chunks)
  ∧ chunk [] = Ok []
  ∧ (blank text → chunk text = Ok []).
Proof.
  split; [|split; [done|apply chunk_blank]].
  destruct (decide (blank text)) as [Hb|Hb].
  - exists []. by apply chunk_blank.
  - destruct (_split_by_headings_total text) as [secs Hs].
    exists (all_chunks 0 secs). by apply chunk_sections.
Qed.

(** C8. The chunks [chunk] returns are numbered 0, 1, 2, ... in the order
    they are returned, through all the sections; and so the chunks of the
    sections after some first ones go on from the number of chunks of
    these. *)
Theorem chunk_indices text :
  ∃ chunks,
    chunk text = Ok chunks
    ∧ index <$> chunks = seqZ 0 (Z.of_nat (length chunks))
    ∧ ∀ secs1 secs2,
        ¬ blank text → _split_by_headings text = Ok (secs1 ++ secs2) →
        chunks = all_chunks 0 secs1
                 ++ all_chunks (Z.of_nat (length (all_chunks 0 secs1))) secs2.
Proof.
  destruct (decide (blank text)) as [Hb|Hb].
  - exists []. split; [by apply chunk_blank|]. split; [done|]. by intros.
  - destruct (_split_by_headings_total text) as [secs Hs].
    exists (all_chunks 0 secs). split; [by apply chunk_sections|].
    split; [apply all_chunks_index|].
    intros secs1 secs2 _ Hs'. rewrite Hs in Hs'. injection Hs' as ->.
    by rewrite all_chunks_app, Z.add_0_l.
Qed.

Lemma section_chunks_not_blank i title body c :
  ¬ blank body → c ∈ section_chunks i (title, body) → ¬ blank (text c).
Proof.
  intros Hb.
  destruct (Z.le_gt_cases (_estimate_tokens body) chunk_size) as [Hle|Hlt].
  - rewrite section_chunks_small by done. intros ->%list_elem_of_singleton. cbn.
    intros Hs%strip_blank. by apply strip_nil_iff in Hs.
  - rewrite section_chunks_large by done.
    intros (k & w & -> & Hw)%elem_of_lookup_imap. cbn.
    apply list_elem_of_lookup_2, _sliding_window_trimmed in Hw as [-> Hw]. done.
Qed.

Lemma all_chunks_not_blank i secs c :
  Forall (fun sec => ¬ blank sec.2) secs → c ∈ all_chunks i secs → ¬ blank (text c).
Proof.
  revert i. induction secs as [|[title body] secs IH]; intros i.
  - by intros _ ?%elem_of_nil.
  - intros [Hb Hrest]%Forall_cons. cbn [ChunkerProofs.all_chunks].
    intros [Hc|Hc]%elem_of_app; [by eapply section_chunks_not_blank|by eapply IH].
Qed.

End Properties.

(** The body of every section is text that is not all-whitespace. *)
Lemma _split_by_headings_bodies text secs :
  ¬ blank text → _split_by_headings text = Ok secs →
  Forall (fun sec => ¬ blank sec.2) secs.
Proof.
  intros Hb. destruct (finditer heading_pattern text) as [|m0 ms] eqn:Hms.
  - rewrite _split_by_headings_none by done. intros [= <-]. by repeat constructor.
  - rewrite _split_by_headings_spec by (by rewrite Hms). intros [= <-].
    rewrite Hms. apply Forall_forall. intros sec [Hbody Hin]%list_elem_of_filter.
    assert (Hstrip : ∃ x, sec.2 = strip x).
    { unfold candidates in Hin. apply elem_of_cons in Hin as [->|Hin]; [by eexists|].
      apply elem_of_lookup_imap in Hin as (k & m & -> & _). by eexists. }
    destruct Hstrip as [x Hx]. unfold has_body in Hbody. rewrite Hx in *.
    by intros ?%strip_blank.
Qed.

(** Text made of heading lines only. *)
Definition headings_only : pystr := str "# A" ++ [LF] ++ str "## B".

(** C10. The sections of a text with headings are the preamble and the
    headings with their bodies, without those whose body is empty after
    trimming; so the text "# A", "## B" on two lines, which is not
    all-whitespace, has no section and no chunk; and no chunk [chunk]
    returns has all-whitespace text. *)
Theorem empty_sections_dropped :
  (∀ text, finditer heading_pattern text ≠ [] →
     _split_by_headings text
     = Ok (filter has_body (candidates text (finditer heading_pattern text))))
  ∧ (¬ blank headings_only
     ∧ _split_by_headings headings_only = Ok []
     ∧ ∀ chunk_size chunk_overlap,
         Chunker.chunk chunk_size chunk_overlap headings_only = Ok [])
  ∧ (∀ chunk_size chunk_overlap text chunks c,
       Chunker.chunk chunk_size chunk_overlap text = Ok chunks →
       c ∈ chunks → ¬ blank (Chunker.text c)).
Proof.
  split; [apply _split_by_headings_spec|]. split.
  - assert (Hb : ¬ blank headings_only).
    { intros Hb. by inversion Hb. }
    assert (Hs : _split_by_headings headings_only = Ok []) by by vm_compute.
    split; [done|]. split; [done|].
    intros cs co. by rewrite (chunk_sections cs co _ _ Hb Hs).
  - intros cs co text chunks c Hc Hin.
    destruct (decide (blank text)) as [Hb|Hb].
    + rewrite chunk_blank in Hc by done. injection Hc as <-.
      by apply elem_of_nil in Hin.
    + destruct (_split_by_headings_total text) as [secs Hs].
      rewrite (chunk_sections cs co _ _ Hb Hs) in Hc. injection Hc as <-.
      eapply all_chunks_not_blank; [|done].
      by eapply _split_by_headings_bodies.
Qed.

(** *** Concrete texts *)

(** A short first paragraph, then one paragraph of 2052 characters, whose
    estimate is 513. *)
Definition long_paragraph : pystr := replicate 2052 98%N.
Definition intro_then_long : pystr := str "Intro." ++ [LF; LF] ++ long_paragraph.

(** C5 as stated fails with the default settings (chunk_size 512,
    chunk_overlap 64): the section is oversized, its second paragraph has an
    estimate of 513, and the two chunks are "Intro." and "Intro." joined to
    the long paragraph, the first one being carried over as overlap; no
    chunk's text is the long paragraph alone. *)
Lemma oversized_paragraph_merged :
  512 < _estimate_tokens intro_then_long
  ∧ paragraphs intro_then_long = [str "Intro."; long_paragraph]
  ∧ 512 < _estimate_tokens long_paragraph
  ∧ ∃ chunks,
      chunk 512 64 intro_then_long = Ok chunks
      ∧ text <$> chunks = [str "Intro."; str "Intro." ++ [LF; LF] ++ long_paragraph]
      ∧ ¬ ∃ c, c ∈ chunks ∧ text c = long_paragraph.
Proof.
  split; [by vm_compute|]. split; [by vm_compute|]. split; [by vm_compute|].
  destruct (chunk 512 64 intro_then_long) as [chunks|] eqn:Hc; [|by vm_compute in Hc].
  exists chunks. split; [done|].
  assert (Ht : text <$> chunks
               = [str "Intro."; str "Intro." ++ [LF; LF] ++ long_paragraph]).
  { vm_compute in Hc. injection Hc as <-. by vm_compute. }
  split; [done|].
  intros (c & Hin & Hlong).
  assert (Hmem : long_paragraph ∈ text <$> chunks).
  { rewrite <- Hlong. by apply list_elem_of_fmap_2. }
  rewrite Ht in Hmem.
  apply elem_of_cons in Hmem as [H|Hmem]; [by vm_compute in H|].
  apply elem_of_cons in Hmem as [H|Hmem]; [by vm_compute in H|].
  by apply elem_of_nil in Hmem.
Qed.

Lemma oversized_paragraph_whole_witness :
  paragraphs intro_then_long = [str "Intro."] ++ long_paragraph :: []
  ∧ 512 < _estimate_tokens long_paragraph
  ∧ ∃ carried,
      join PARA_SEP (carried ++ [long_paragraph]) ∈ _sliding_window 512 64 intro_then_long.
Proof.
  assert (H1 : paragraphs intro_then_long = [str "Intro."] ++ long_paragraph :: [])
    by (by vm_compute).
  assert (H2 : 512 < _estimate_tokens long_paragraph) by (by vm_compute).
  split; [exact H1|]. split; [exact H2|].
  destruct (oversized_paragraph_whole 512 64 intro_then_long _ _ _ H1 H2)
    as (dropped & carried & _ & _ & _ & Hin & _).
  by exists carried.
Defined.

(** A window holding "a" and "b" (estimate 1 each) meets "c" when
    chunk_size is 2 and chunk_overlap is 1. *)
Definition two_paragraphs : window_state :=
  {| windows := []; current_tokens := 2; current_paras := [str "a"; str "b"] |}.

Lemma overlap_carry_witness :
  current_paras two_paragraphs ≠ []
  ∧ 2 < current_tokens two_paragraphs + _estimate_tokens (str "c")
  ∧ windows (window_step 2 1 two_paragraphs (str "c"))
    = [str "a" ++ [LF; LF] ++ str "b"].
Proof.
  assert (H1 : current_paras two_paragraphs ≠ []) by done.
  assert (H2 : 2 < current_tokens two_paragraphs + _estimate_tokens (str "c"))
    by (by vm_compute).
  split; [exact H1|]. split; [exact H2|].
  by destruct (overlap_carry 2 1 two_paragraphs (str "c") H1 H2) as [-> _].
Defined.

(** Eight characters: the estimate is 2, exactly a chunk_size of 2. *)
Lemma small_section_one_chunk_witness :
  ¬ blank (str "abcdefgh")
  ∧ _split_by_headings (str "abcdefgh") = Ok ([] ++ (None, str "abcdefgh") :: [])
  ∧ Z.max 1 (Z.of_nat (length (str "abcdefgh")) / 4) ≤ 2
  ∧ chunk 2 64 (str "abcdefgh")
    = Ok [{| index := 0; text := str "abcdefgh"; page := None; section := None;
             tokens := Some 2 |}].
Proof.
  assert (H1 : ¬ blank (str "abcdefgh")) by (intros Hb; by inversion Hb).
  assert (H2 : _split_by_headings (str "abcdefgh")
               = Ok ([] ++ (None, str "abcdefgh") :: [])) by (by vm_compute).
  assert (H3 : Z.max 1 (Z.of_nat (length (str "abcdefgh")) / 4) ≤ 2) by (by vm_compute).
  split; [exact H1|]. split; [exact H2|]. split; [exact H3|].
  by destruct (small_section_one_chunk 2 64 _ _ _ _ _ H1 H2 H3) as [_ ->].
Defined.

Lemma chunk_total_witness :
  blank [32%N; LF; 9%N] ∧ chunk 512 64 [32%N; LF; 9%N] = Ok [].
Proof.
  assert (H : blank [32%N; LF; 9%N]) by (by repeat constructor).
  split; [exact H|].
  by destruct (chunk_total 512 64 [32%N; LF; 9%N]) as (_ & _ & ->).
Defined.

(** A preamble, a section "A" in two paragraphs and a section "B". *)
Definition two_sections : pystr :=
  str "intro" ++ [LF] ++ str "# A" ++ [LF] ++ str " aaaa aaaa " ++ [LF; LF]
  ++ str "bbbb" ++ [LF] ++ str "# B" ++ [LF] ++ str "Short.".

Definition two_sections_preamble : list (option pystr * pystr) :=
  [(None, str "intro")].

Definition two_sections_headed : list (option pystr * pystr) :=
  [(Some (str "A"), str "aaaa aaaa " ++ [LF; LF] ++ str "bbbb");
   (Some (str "B"), str "Short.")].

Lemma chunk_indices_witness :
  ¬ blank two_sections
  ∧ _split_by_headings two_sections = Ok (two_sections_preamble ++ two_sections_headed)
  ∧ ∃ chunks,
      chunk 2 1 two_sections = Ok chunks
      ∧ index <$> chunks = [0; 1; 2; 3]
      ∧ chunks = all_chunks 2 1 0 two_sections_preamble
                 ++ all_chunks 2 1 1 two_sections_headed.
Proof.
  assert (H1 : ¬ blank two_sections) by (intros Hb; by inversion Hb).
  assert (H2 : _split_by_headings two_sections
               = Ok (two_sections_preamble ++ two_sections_headed)) by (by vm_compute).
  split; [exact H1|]. split; [exact H2|].
  destruct (chunk_indices 2 1 two_sections) as (chunks & Hc & Hi & Happ).
  exists chunks. split; [done|]. split.
  - rewrite Hi. vm_compute in Hc. injection Hc as <-. by vm_compute.
  - exact (Happ _ _ H1 H2).
Defined.

Definition two_sections_chunks : list DocumentChunk :=
  match chunk 2 1 two_sections with
  | Ok chunks => chunks
  | IndexError => []
  end.

Lemma empty_sections_dropped_witness :
  chunk 2 1 two_sections = Ok two_sections_chunks
  ∧ length two_sections_chunks = 4%nat
  ∧ Forall (fun c => ¬ blank (text c)) two_sections_chunks.
Proof.
  assert (H : chunk 2 1 two_sections = Ok two_sections_chunks) by (by vm_compute).
  split; [exact H|]. split; [by vm_compute|].
  destruct empty_sections_dropped as (_ & _ & Hnb).
  apply Forall_forall. intros c Hc. exact (Hnb 2 1 two_sections _ c H Hc).
Defined.

End ChunkerProofs.

(** ** Part V: further properties of the job queue *)

Module QueueLaws.
Import Queue QueueProofs.

Section Laws.

Context {ParseResponse : Type}.
Variable mgr : @ModelManager ParseResponse.

Abbreviation Job := (@Queue.Job ParseResponse).
Abbreviation JobQueue := (@Queue.JobQueue ParseResponse).

(** Proof by invariant over the states the event loop reaches. *)
Lemma reachable_invariant (P : JobQueue → Prop) :
  P init →
  (∀ a q q', P q → do mgr a q = Some q' → P q') →
  ∀ q, reachable mgr q → P q.
Proof.
  intros H0 Hstep q [acts Hrun]. revert Hrun.
  generalize (@init ParseResponse) H0. clear H0.
  induction acts as [|a acts IH]; intros q0 H0; cbn.
  - by intros [= <-].
  - destruct (do mgr a q0) as [q1|] eqn:Hdo; [cbn|done].
    apply IH. by eapply Hstep.
Qed.

(** *** The registry *)

Lemma store_id (j : Job) a : id (store j a) = id j.
Proof. by destruct a. Qed.

Lemma stores_id ws (j : Job) : id (stores ws j) = id j.
Proof.
  revert j; induction ws as [|a ws IH]; intros j; [done|].
  unfold stores in *; simpl. by rewrite IH, store_id.
Qed.

(** The ids of the objects, by address. *)
Definition ids (q : JobQueue) : list string := id <$> heap q.

Lemma mutate_ids (q : JobQueue) l ws : ids (mutate q l ws) = ids q.
Proof.
  unfold ids, mutate. destruct (heap q !! l) as [j|] eqn:Hl; [cbn|done].
  rewrite list_fmap_insert, stores_id. apply list_insert_id.
  by rewrite list_lookup_fmap, Hl.
Qed.

Lemma execute_resume_ids (q : JobQueue) l now :
  ids (execute_resume mgr q l now).2 = ids q.
Proof.
  unfold execute_resume. destruct (heap q !! l); cbn; [apply mutate_ids|done].
Qed.

Lemma register_jobs (q : JobQueue) l j :
  heap q !! l = Some j → _jobs (register q l) = <[id j := l]> (_jobs q).
Proof. intros H. unfold register. by rewrite H. Qed.

(** An action leaves the registry and the ids alone, or it submits one new
    object, registered under its id at the next address. *)
Lemma do_registry (q q' : JobQueue) a :
  do mgr a q = Some q' →
  (_jobs q' = _jobs q ∧ ids q' = ids q)
  ∨ (∃ i, _jobs q' = <[i := length (heap q)]> (_jobs q) ∧ ids q' = ids q ++ [i]).
Proof.
  destruct a as [n| |i t p now|i t p now|k now|w now]; cbn.
  - intros [= <-]. by left.
  - intros [= <-]. by left.
  - intros [= <-]. right. exists i. cbn.
    set (q0 := set_heap q (heap q ++ [new_job i t p now])).
    assert (Hl : heap q0 !! length (heap q) = Some (new_job i t p now))
      by (by apply list_lookup_middle).
    rewrite (register_jobs q0 _ _ Hl).
    destruct (register_frame q0 (length (heap q))) as (->&_).
    split; [done|]. unfold ids; cbn. by rewrite fmap_app.
  - intros [= <-]. right. exists i. cbn.
    set (q0 := set_heap q (heap q ++ [new_job i t p now])).
    assert (Hl : heap q0 !! length (heap q) = Some (new_job i t p now))
      by (by apply list_lookup_middle).
    destruct (mutate_frame (register q0 (length (heap q))) (length (heap q))
                _execute_begin) as (->&_).
    rewrite (register_jobs q0 _ _ Hl). split; [done|].
    fold (ids (mutate (register q0 (length (heap q))) (length (heap q)) _execute_begin)).
    rewrite mutate_ids. unfold ids.
    destruct (register_frame q0 (length (heap q))) as (->&_).
    cbn. by rewrite fmap_app.
  - destruct (inline q !! k) as [l|]; [cbn|done].
    pose proof (execute_resume_ids q l now) as Hi.
    pose proof (execute_resume_frame mgr q l now) as (Hj&_).
    destruct (execute_resume mgr q l now) as [o q1]. intros [= <-]. by left.
  - unfold worker_step.
    destruct (_workers q !! w) as [st|]; [cbn|done].
    destruct st as [| |l|].
    + intros [= <-]. by left.
    + destruct (_queue q) as [|[l|] fifo]; [done| |].
      * intros [= <-]. left. cbn.
        destruct (mutate_frame (set_queue q fifo) l _execute_begin) as (->&_).
        split; [done|].
        fold (ids (mutate (set_queue q fifo) l _execute_begin)). by rewrite mutate_ids.
      * intros [= <-]. by left.
    + pose proof (execute_resume_ids q l now) as Hi.
      pose proof (execute_resume_frame mgr q l now) as (Hj&_).
      destruct (execute_resume mgr q l now) as [o q1]. intros [= <-]. by left.
    + done.
Qed.

(** The registry maps an id to the address of an object with that id, and
    every object's id is registered, at that object's address or a later
    one. *)
Record registry_ok (q : JobQueue) : Prop := {
  reg_sound : ∀ i l, _jobs q !! i = Some l → ids q !! l = Some i;
  reg_latest : ∀ l i, ids q !! l = Some i →
    ∃ l', _jobs q !! i = Some l' ∧ (l ≤ l')%nat;
}.

Lemma registry_ok_do (q q' : JobQueue) a :
  registry_ok q → do mgr a q = Some q' → registry_ok q'.
Proof.
  intros [Hs Hl] [[Hj Hi]|(i&Hj&Hi)]%do_registry.
  - split; rewrite Hj, Hi; [apply Hs|apply Hl].
  - assert (Hlen : length (ids q) = length (heap q))
      by (unfold ids; by rewrite length_fmap).
    split; rewrite Hj, Hi.
    + intros i' l. destruct (decide (i = i')) as [->|Hne].
      * rewrite lookup_insert_eq. intros [= <-].
        rewrite <- Hlen. by apply list_lookup_middle.
      * rewrite lookup_insert_ne by done. intros H%Hs.
        by apply lookup_app_l_Some.
    + intros l i' [H|[-> <-]]%lookup_snoc_Some.
      * destruct H as [Hlt H]. destruct (decide (i = i')) as [->|Hne].
        -- exists (length (heap q)). rewrite lookup_insert_eq. split; [done|lia].
        -- rewrite lookup_insert_ne by done. by apply Hl.
      * exists (length (heap q)). rewrite lookup_insert_eq. split; [done|lia].
Qed.

Lemma reachable_registry_ok (q : JobQueue) : reachable mgr q → registry_ok q.
Proof.
  apply reachable_invariant.
  - split; cbn; by intros ??; rewrite ?lookup_empty.
  - intros a q0 q1. apply registry_ok_do.
Qed.

(** What a registry in order says of a lookup. *)
Lemma registry_latest (q : JobQueue) (job_id : string) :
  registry_ok q →
  match get_job q job_id with
  | Some job =>
      id job = job_id
      ∧ ∃ l, heap q !! l = Some job
             ∧ ∀ l' job', heap q !! l' = Some job' → id job' = job_id → (l' ≤ l)%nat
  | None => ∀ job, job ∈ heap q → id job ≠ job_id
  end.
Proof.
  intros [Hs Hl]. unfold get_job.
  destruct (_jobs q !! job_id) as [l|] eqn:Hj; cbn.
  - pose proof (Hs _ _ Hj) as Hi. unfold ids in Hi.
    apply list_lookup_fmap_Some in Hi as (job&Hid&Hjob).
    rewrite Hjob. split; [done|]. exists l. split; [done|].
    intros l' job' Hjob' Hid'.
    destruct (Hl l' job_id) as (l''&Hj'&Hle).
    { unfold ids. by rewrite list_lookup_fmap, Hjob'; cbn; rewrite Hid'. }
    congruence.
  - intros job (l&Hjob)%list_elem_of_lookup_1 Hid.
    destruct (Hl l job_id) as (l'&Hj'&_); [|congruence].
    unfold ids. by rewrite list_lookup_fmap, Hjob; cbn; rewrite Hid.
Qed.

(** X1. [get_job] answers with the object that was submitted last under the id
    asked for, as that object is now; it answers [None] exactly when no
    object with that id was ever submitted. *)
Theorem get_job_latest (q : JobQueue) (job_id : string) :
  reachable mgr q →
  match get_job q job_id with
  | Some job =>
      id job = job_id
      ∧ ∃ l, heap q !! l = Some job
             ∧ ∀ l' job', heap q !! l' = Some job' → id job' = job_id → (l' ≤ l)%nat
  | None => ∀ job, job ∈ heap q → id job ≠ job_id
  end.
Proof. intros Hre. by apply registry_latest, reachable_registry_ok. Qed.

(** X2. Submitting through [enqueue]: the new job is what [get_job] answers for
    its id, still as its constructor left it; the answers for the other ids
    do not change; the FIFO is one longer, with the new job last. *)
Theorem enqueue_get_job (q : JobQueue) (i t : string) p now :
  reachable mgr q →
  let job := new_job i t p now in
  let q' := enqueue (alloc q job).2 (alloc q job).1 in
  get_job q' i = Some job
  ∧ (∀ i', i' ≠ i → get_job q' i' = get_job q i')
  ∧ _queue q' = _queue q ++ [Some (length (heap q))]
  ∧ queue_size q' = S (queue_size q).
Proof.
  intros [Hs _]%reachable_registry_ok job q'. subst q'. cbn.
  set (q0 := set_heap q (heap q ++ [job])).
  assert (Hl : heap q0 !! length (heap q) = Some job) by (by apply list_lookup_middle).
  destruct (register_frame q0 (length (heap q))) as (Hh&Hq&_).
  unfold get_job, queue_size; cbn. rewrite (register_jobs q0 _ _ Hl), Hh, Hq. cbn.
  split; [by rewrite lookup_insert_eq; cbn; apply list_lookup_middle|].
  split; [|split; [done|rewrite length_app; cbn; lia]].
  intros i' Hne. rewrite lookup_insert_ne by done.
  destruct (_jobs q !! i') as [l|] eqn:Hj; [cbn|done].
  apply Hs, lookup_lt_Some in Hj. unfold ids in Hj. rewrite length_fmap in Hj.
  by apply lookup_app_l.
Qed.

(** X3. Submitting through [run_sync], at its suspension in the dispatch: the
    job is what [get_job] answers for its id, and it is RUNNING; the answers
    for the other ids do not change; the job never enters the FIFO. *)
Theorem run_sync_get_job (q : JobQueue) (i t : string) p now :
  reachable mgr q →
  let job := new_job i t p now in
  let l := (alloc q job).1 in
  let q' := execute_begin (register (alloc q job).2 l) l in
  get_job q' i = Some (stores [SetStatus RUNNING] job)
  ∧ (∀ i', i' ≠ i → get_job q' i' = get_job q i')
  ∧ _queue q' = _queue q.
Proof.
  intros [Hs _]%reachable_registry_ok job l q'. subst l q'. cbn.
  set (q0 := set_heap q (heap q ++ [job])).
  assert (Hl : heap q0 !! length (heap q) = Some job) by (by apply list_lookup_middle).
  destruct (register_frame q0 (length (heap q))) as (Hh&Hq&_).
  destruct (mutate_frame (register q0 (length (heap q))) (length (heap q))
              _execute_begin) as (Hj'&Hq'&_).
  unfold get_job; cbn.
  rewrite Hj', Hq', Hq, (register_jobs q0 _ _ Hl).
  rewrite (mutate_heap (register q0 (length (heap q))) _ _ job) by (by rewrite Hh).
  rewrite Hh. cbn.
  split; [|split; [|done]].
  - rewrite lookup_insert_eq; cbn.
    apply list_lookup_insert_eq. rewrite length_app; cbn; lia.
  - intros i' Hne. rewrite lookup_insert_ne by done.
    destruct (_jobs q !! i') as [l|] eqn:Hj; [cbn|done].
    apply Hs, lookup_lt_Some in Hj. unfold ids in Hj. rewrite length_fmap in Hj.
    rewrite list_lookup_insert_ne by lia. by apply lookup_app_l.
Qed.

(** *** The dispatcher *)

(** The payload keys the dispatcher looks up for a task. *)
Definition read_keys (t : string) : list string :=
  (if decide (t = "parse_document") then
     ["content"; "filename"; "extract_tables"; "extract_images"; "output_format"]
   else if decide (t = "parse_image") then
     ["content"; "filename"; "task"; "prompt"]
   else if decide (t = "parse_audio") then
     ["content"; "filename"; "language"; "diarize"]
   else if decide (t = "parse_video") then
     ["content"; "filename"; "language"; "diarize"; "extract_frames"]
   else if decide (t = "parse_web") then
     ["url"; "max_depth"; "css_selector"; "extraction_schema"; "headers"]
   else [])%string.

(** The keys it subscripts, in the order it does. *)
Definition required_keys (t : string) : list string :=
  (if decide (t = "parse_web") then ["url"] else ["content"; "filename"])%string.

Fixpoint first_missing (p : gmap string pyval) (ks : list string) : option string :=
  match ks with
  | [] => None
  | k :: ks' =>
      match p !! k with
      | Some _ => first_missing p ks'
      | None => Some k
      end
  end.

Definition failure {A} (o : outcome A) : option string :=
  match o with
  | Raised msg => Some msg
  | _ => None
  end.

(** What the accessor of the parser of a task raises, if it does. *)
Definition accessor_failure (t : string) : option string :=
  (if decide (t = "parse_document") then failure (document_parser mgr)
   else if decide (t = "parse_image") then failure (image_parser mgr)
   else if decide (t = "parse_web") then failure (web_parser mgr)
   else failure (media_parser mgr))%string.

(** The failure of a dispatch that does not get to the call of the parser. *)
Definition early_failure (j : Job) : option string :=
  match accessor_failure (task j) with
  | Some e => Some e
  | None =>
      (λ k, "'" +:+ k +:+ "'")%string
        <$> first_missing (payload j) (required_keys (task j))
  end.

Ltac key_in :=
  repeat first [apply list_elem_of_here | apply list_elem_of_further].

(** X4. The dispatcher looks at the task and at the keys of [read_keys] only:
    two jobs with the same task whose payloads agree on these keys are
    dispatched alike, whatever else the payloads hold. *)
Theorem _dispatch_reads (j j' : Job) :
  task j = task j' →
  (∀ k, k ∈ read_keys (task j) → payload j !! k = payload j' !! k) →
  _dispatch mgr j = _dispatch mgr j'.
Proof.
  intros Ht Hk. unfold _dispatch. rewrite <- Ht.
  unfold read_keys in Hk.
  repeat case_decide; [..|done]; unfold getitem, get;
    repeat match goal with
    | |- context [payload j !! ?k] =>
        rewrite (Hk k) by key_in
    end; done.
Qed.

(** X5. The order of the failures of a dispatch of a known task: if the parser
    is not loaded, the accessor's [RuntimeError], whatever the payload;
    otherwise, if a subscripted key is missing, the [KeyError] of the first
    such key.  [_execute] then leaves the job FAILED with that message. *)
Theorem dispatch_precedence (j : Job) (msg : string) :
  task j ∈ known_tasks →
  early_failure j = Some msg →
  _dispatch mgr j = Raised msg
  ∧ ∀ now, (_execute mgr j now).1 = Returned ()
           ∧ status (_execute mgr j now).2 = FAILED
           ∧ error (_execute mgr j now).2 = Some msg.
Proof.
  intros Hk Hm.
  assert (Hd : _dispatch mgr j = Raised msg).
  { unfold known_tasks in Hk. unfold _dispatch.
    unfold early_failure, accessor_failure, required_keys in Hm.
    repeat (apply elem_of_cons in Hk as [Hk|Hk]); [..|by apply elem_of_nil in Hk];
      rewrite Hk in *; repeat (case_decide; try done); cbn in *.
    - unfold document_parser in *.
      destruct (_document_parser mgr); cbn in *; [|by injection Hm as <-].
      unfold getitem.
      destruct (payload j !! "content"%string); cbn in *; [|by injection Hm as <-].
      destruct (payload j !! "filename"%string); cbn in *; [done|by injection Hm as <-].
    - unfold image_parser in *.
      destruct (_image_parser mgr); cbn in *; [|by injection Hm as <-].
      unfold getitem.
      destruct (payload j !! "content"%string); cbn in *; [|by injection Hm as <-].
      destruct (payload j !! "filename"%string); cbn in *; [done|by injection Hm as <-].
    - unfold media_parser in *.
      destruct (_media_parser mgr); cbn in *; [|by injection Hm as <-].
      unfold getitem.
      destruct (payload j !! "content"%string); cbn in *; [|by injection Hm as <-].
      destruct (payload j !! "filename"%string); cbn in *; [done|by injection Hm as <-].
    - unfold media_parser in *.
      destruct (_media_parser mgr); cbn in *; [|by injection Hm as <-].
      unfold getitem.
      destruct (payload j !! "content"%string); cbn in *; [|by injection Hm as <-].
      destruct (payload j !! "filename"%string); cbn in *; [done|by injection Hm as <-].
    - unfold web_parser in *.
      destruct (_web_parser mgr); cbn in *; [|by injection Hm as <-].
      unfold getitem.
      destruct (payload j !! "url"%string); cbn in *; [done|by injection Hm as <-]. }
  split; [done|]. intros now.
  unfold _execute, _execute_writes; cbn [fst snd].
  rewrite _dispatch_stores, Hd. by cbn.
Qed.

(** *** The worker loop *)

Lemma run_app acts1 acts2 (q : JobQueue) :
  run mgr (acts1 ++ acts2) q = q' ← run mgr acts1 q; run mgr acts2 q'.
Proof.
  revert q. induction acts1 as [|a acts1 IH]; intros q; cbn; [done|].
  destruct (do mgr a q); cbn; [apply IH|done].
Qed.

Lemma reachable_run acts (q q' : JobQueue) :
  reachable mgr q → run mgr acts q = Some q' → reachable mgr q'.
Proof.
  intros [acts0 H0] Hrun. exists (acts0 ++ acts). by rewrite run_app, H0.
Qed.

(** The stretches of [_worker]. *)
Lemma step_loop_test (q : JobQueue) w now :
  _workers q !! w = Some LoopHead →
  worker_step mgr q w now
  = Some (set_worker q w (if _running q then Getting else Exited)).
Proof. intros Hw. unfold worker_step. by rewrite Hw. Qed.

Lemma step_get_job (q : JobQueue) w l fifo now :
  _workers q !! w = Some Getting → _queue q = Some l :: fifo →
  worker_step mgr q w now
  = Some (set_worker (execute_begin (set_queue q fifo) l) w (Executing l)).
Proof. intros Hw Hq. unfold worker_step. rewrite Hw; cbn. by rewrite Hq. Qed.

Lemma step_get_sentinel (q : JobQueue) w fifo now :
  _workers q !! w = Some Getting → _queue q = None :: fifo →
  worker_step mgr q w now = Some (set_worker (set_queue q fifo) w Exited).
Proof. intros Hw Hq. unfold worker_step. rewrite Hw; cbn. by rewrite Hq. Qed.

Lemma step_resume (q : JobQueue) w l j now :
  _workers q !! w = Some (Executing l) → heap q !! l = Some j →
  worker_step mgr q w now
  = Some (set_worker (mutate q l (_execute_resume (_dispatch mgr j) now)) w
            (match _dispatch mgr j with Escaped => Exited | _ => LoopHead end)).
Proof.
  intros Hw Hl. unfold worker_step. rewrite Hw; cbn.
  unfold execute_resume. rewrite Hl. by destruct (_dispatch mgr j).
Qed.

(** A job taken from the FIFO and run to the end of [_execute]: two
    stretches of the worker, [get] up to the dispatch and the rest. *)
Lemma take_and_execute (q : JobQueue) w l j fifo now :
  _workers q !! w = Some Getting → _queue q = Some l :: fifo →
  heap q !! l = Some j → _dispatch mgr j ≠ Escaped →
  ∃ q', run mgr [WorkerStep w now; WorkerStep w now] q = Some q'
    ∧ heap q' = <[l := (_execute mgr j now).2]> (heap q)
    ∧ _jobs q' = _jobs q ∧ _queue q' = fifo
    ∧ _workers q' = <[w := LoopHead]> (_workers q)
    ∧ _running q' = _running q ∧ inline q' = inline q
    ∧ dispatched q' = dispatched q ++ [l].
Proof.
  intros Hw Hq Hl He.
  assert (Hlt : (w < length (_workers q))%nat) by (by eapply lookup_lt_Some).
  assert (Hll : (l < length (heap q))%nat) by (by eapply lookup_lt_Some).
  set (q1 := set_worker (execute_begin (set_queue q fifo) l) w (Executing l)).
  destruct (mutate_frame (set_queue q fifo) l _execute_begin)
    as (Hj1&Hq1&Hw1&Hi1&Hd1&Hr1).
  pose proof (mutate_heap (set_queue q fifo) l _execute_begin j Hl) as Hh1.
  assert (Hl1 : heap q1 !! l = Some (stores _execute_begin j)).
  { unfold q1; cbn. rewrite Hh1. cbn. by apply list_lookup_insert_eq. }
  assert (Hw1' : _workers q1 !! w = Some (Executing l)).
  { unfold q1; cbn. rewrite Hw1. cbn. by apply list_lookup_insert_eq. }
  set (o := _dispatch mgr (stores _execute_begin j)).
  set (q2 := set_worker (mutate q1 l (_execute_resume o now)) w
               (match o with Escaped => Exited | _ => LoopHead end)).
  exists q2.
  destruct (mutate_frame q1 l (_execute_resume o now)) as (Hj2&Hq2&Hw2&Hi2&Hd2&Hr2).
  pose proof (mutate_heap q1 l (_execute_resume o now) _ Hl1) as Hh2.
  split.
  { cbn [run do]. rewrite (step_get_job q w l fifo now Hw Hq). cbn. fold q1.
    by rewrite (step_resume q1 w l _ now Hw1' Hl1). }
  assert (Ho : o ≠ Escaped) by (unfold o; by rewrite _dispatch_stores).
  unfold q2; cbn. rewrite Hh2, Hj2, Hq2, Hw2, Hi2, Hd2, Hr2.
  unfold q1; cbn. rewrite Hh1, Hj1, Hq1, Hw1, Hi1, Hd1, Hr1. cbn.
  split; [|split; [done|split; [done|split; [|done]]]].
  - rewrite list_insert_insert_eq. reflexivity.
  - rewrite list_insert_insert_eq. by destruct o.
Qed.

(** One turn of the loop of worker [w]: the test of [self._running], the
    return of [get], the rest of [_execute]. *)
Definition turn (w : nat) (now : float) : list action :=
  [WorkerStep w now; WorkerStep w now; WorkerStep w now].

Fixpoint turns (w : nat) (now : float) (n : nat) : list action :=
  match n with
  | O => []
  | S n' => turn w now ++ turns w now n'
  end.

Lemma worker_turn (q : JobQueue) w l j fifo now :
  _workers q !! w = Some LoopHead → _running q = true →
  _queue q = Some l :: fifo → heap q !! l = Some j → _dispatch mgr j ≠ Escaped →
  ∃ q', run mgr (turn w now) q = Some q'
    ∧ heap q' = <[l := (_execute mgr j now).2]> (heap q)
    ∧ _jobs q' = _jobs q ∧ _queue q' = fifo ∧ _workers q' = _workers q
    ∧ _running q' = true ∧ inline q' = inline q
    ∧ dispatched q' = dispatched q ++ [l].
Proof.
  intros Hw Hr Hq Hl He.
  assert (Hlt : (w < length (_workers q))%nat) by (by eapply lookup_lt_Some).
  destruct (take_and_execute (set_worker q w Getting) w l j fifo now)
    as (q'&Hrun&Hh&Hj&Hq'&Hw'&Hr'&Hi&Hd); [|done..|].
  { cbn. by apply list_lookup_insert_eq. }
  exists q'. split.
  { unfold turn. cbn [run do]. rewrite (step_loop_test q w now Hw), Hr. exact Hrun. }
  cbn in *. rewrite Hw', list_insert_insert_eq, Hr', Hr.
  by rewrite (list_insert_id _ _ _ Hw).
Qed.

Lemma execute_terminal (j : Job) now :
  _dispatch mgr j ≠ Escaped →
  terminal (status (_execute mgr j now).2)
  ∧ completed_at (_execute mgr j now).2 = Some now.
Proof.
  intros He. unfold _execute, _execute_writes; cbn [snd].
  rewrite _dispatch_stores.
  destruct (_dispatch mgr j); [split; [by left|done]|split; [by right|done]|done].
Qed.

Lemma omap_Some {A} (l : list A) : omap (λ o, o) (Some <$> l) = l.
Proof. induction l as [|x l IH]; [done|]. cbn. by rewrite IH. Qed.

(** X6. A running worker at the head of its loop, with jobs [ls] at the front of
    the FIFO, none of whose dispatches lets an exception escape (a failing
    job does not stop the worker): turn after turn it takes them all, in
    the order they were queued, and runs each through [_execute] to DONE or
    FAILED; then it is at the head of its loop again, the FIFO holds what
    was behind [ls], and no other job has been touched. *)
Theorem worker_drains_fifo (q : JobQueue) w ls tail now :
  reachable mgr q →
  _workers q !! w = Some LoopHead → _running q = true →
  _queue q = (Some <$> ls) ++ tail →
  (∀ l j, l ∈ ls → heap q !! l = Some j → _dispatch mgr j ≠ Escaped) →
  ∃ q', run mgr (turns w now (length ls)) q = Some q'
    ∧ _queue q' = tail
    ∧ _workers q' = _workers q
    ∧ dispatched q' = dispatched q ++ ls
    ∧ (∀ l, l ∈ ls → ∃ j, heap q !! l = Some j
          ∧ status j = PENDING
          ∧ heap q' !! l = Some (_execute mgr j now).2
          ∧ terminal (status (_execute mgr j now).2)
          ∧ completed_at (_execute mgr j now).2 = Some now)
    ∧ (∀ l, l ∉ ls → heap q' !! l = heap q !! l)
    ∧ _jobs q' = _jobs q.
Proof.
  revert q. induction ls as [|l ls IH]; intros q Hre Hw Hr Hq He.
  { exists q. cbn. split; [done|]. split; [done|]. split; [done|].
    split; [by rewrite app_nil_r|]. split; [by intros ? ?%elem_of_nil|done]. }
  pose proof (reachable_Inv mgr q Hre) as HI.
  assert (Hqd : queued q = l :: ls ++ omap (λ o, o) tail).
  { unfold queued. rewrite Hq, omap_app, omap_Some. done. }
  assert (Hlq : l ∈ queued q) by (rewrite Hqd; by left).
  destruct (holder_lookup mgr q l HI (queued_holder q l Hlq)) as [j Hl].
  assert (Hnl : l ∉ ls).
  { pose proof (inv_nodup mgr q HI) as Hnd. unfold holders in Hnd.
    apply NoDup_app in Hnd as (Hnd&_). rewrite Hqd in Hnd.
    apply NoDup_cons in Hnd as (Hn&_). intros ?. apply Hn, elem_of_app. by left. }
  assert (Hej : _dispatch mgr j ≠ Escaped) by (eapply He; [by left|done]).
  destruct (worker_turn q w l j ((Some <$> ls) ++ tail) now)
    as (q1&Hrun1&Hh1&Hj1&Hq1&Hw1&Hr1&Hi1&Hd1); [done..|].
  assert (Hre1 : reachable mgr q1) by (by eapply reachable_run).
  destruct (IH q1) as (q'&Hrun&Hq'&Hw'&Hd'&Hdone&Hrest&Hj'); [done|by rewrite Hw1|done|done| |].
  { intros l' j' Hin. rewrite Hh1.
    rewrite list_lookup_insert_ne by (by intros ->). by apply He; right. }
  exists q'. split.
  { cbn [length turns]. by rewrite run_app, Hrun1. }
  split; [done|]. split; [by rewrite Hw', Hw1|].
  split; [by rewrite Hd', Hd1, <- app_assoc|].
  split; [|split; [|by rewrite Hj', Hj1]].
  - intros l' [->|Hin]%elem_of_cons.
    + exists j. split; [done|].
      split; [by destruct (Inv_queued mgr q l j HI Hl Hlq) as ((?&_)&_)|].
      split; [|by apply execute_terminal].
      rewrite (Hrest l Hnl), Hh1. apply list_lookup_insert_eq. by eapply lookup_lt_Some.
    + destruct (Hdone l' Hin) as (j'&Hl'&Hrem).
      rewrite Hh1, list_lookup_insert_ne in Hl' by (by intros ->).
      by exists j'.
  - intros l' [Hne Hn]%not_elem_of_cons.
    by rewrite (Hrest l' Hn), Hh1, list_lookup_insert_ne.
Qed.

(** *** Shutdown *)

Lemma sentinels_taken (q : JobQueue) pre m now :
  _workers q = pre ++ replicate m Getting → _queue q = replicate m None →
  ∃ q', run mgr ((λ w, WorkerStep w now) <$> seq (length pre) m) q = Some q'
    ∧ _workers q' = pre ++ replicate m Exited ∧ _queue q' = []
    ∧ heap q' = heap q ∧ _jobs q' = _jobs q ∧ _running q' = _running q
    ∧ inline q' = inline q ∧ dispatched q' = dispatched q.
Proof.
  revert q pre. induction m as [|m IH]; intros q pre Hw Hq.
  { exists q. by cbn in *. }
  cbn in Hw, Hq.
  assert (Hw0 : _workers q !! length pre = Some Getting)
    by (rewrite Hw; by apply list_lookup_middle).
  destruct (IH (set_worker (set_queue q (replicate m None)) (length pre) Exited)
              (pre ++ [Exited]))
    as (q'&Hrun&Hw'&Hrest).
  { cbn. rewrite Hw, <- app_assoc. cbn.
    rewrite insert_app_r_alt by done. by rewrite Nat.sub_diag. }
  { done. }
  exists q'. split.
  { cbn [seq fmap list_fmap run do].
    rewrite (step_get_sentinel q (length pre) (replicate m None) now Hw0 Hq). cbn.
    rewrite length_app, Nat.add_1_r in Hrun. exact Hrun. }
  split; [by rewrite Hw', <- app_assoc|]. exact Hrest.
Qed.

(** X7. [stop] on an idle pool (every worker waiting in [get], nothing queued):
    each worker takes one sentinel and leaves its loop; in the end every
    worker has exited and the FIFO is empty again.  No job is touched. *)
Theorem stop_idle_pool (q : JobQueue) n now :
  _workers q = replicate n Getting → _queue q = [] →
  ∃ q', run mgr (Stop :: ((λ w, WorkerStep w now) <$> seq 0 n)) q = Some q'
    ∧ _workers q' = replicate n Exited ∧ _queue q' = [] ∧ _running q' = false
    ∧ heap q' = heap q ∧ _jobs q' = _jobs q ∧ dispatched q' = dispatched q.
Proof.
  intros Hw Hq.
  destruct (sentinels_taken (stop q) [] n now)
    as (q'&Hrun&Hw'&Hq'&Hh&Hj&Hr&_&Hd).
  { done. }
  { cbn. by rewrite Hq, Hw, length_replicate. }
  exists q'. by cbn in *.
Qed.

(** X8. [stop] does not drain the FIFO.  A worker waiting in [get] when jobs are
    queued and [stop] is called takes the first job and runs it to the end;
    at the loop test it then sees [_running] false and exits.  The jobs
    behind stay in the FIFO, untouched, in front of the sentinels; if the
    other workers have exited, no worker can move any more. *)
Theorem stop_abandons_queue (q : JobQueue) w l j rest now :
  _workers q !! w = Some Getting → _queue q = Some l :: rest →
  heap q !! l = Some j → _dispatch mgr j ≠ Escaped →
  ∃ q', run mgr (Stop :: turn w now) q = Some q'
    ∧ _workers q' = <[w := Exited]> (_workers q)
    ∧ _queue q' = rest ++ replicate (length (_workers q)) None
    ∧ heap q' = <[l := (_execute mgr j now).2]> (heap q)
    ∧ dispatched q' = dispatched q ++ [l]
    ∧ ((∀ w' st, w' ≠ w → _workers q !! w' = Some st → st = Exited) →
       ∀ w' t, worker_step mgr q' w' t = None).
Proof.
  intros Hw Hq Hl He.
  assert (Hlt : (w < length (_workers q))%nat) by (by eapply lookup_lt_Some).
  destruct (take_and_execute (stop q) w l j
              (rest ++ replicate (length (_workers q)) None) now)
    as (q1&Hrun&Hh&Hj&Hq1&Hw1&Hr1&Hi&Hd); [done|by cbn; rewrite Hq|done|done|].
  cbn in Hh, Hj, Hq1, Hw1, Hr1, Hi, Hd.
  assert (Hw1' : _workers q1 !! w = Some LoopHead).
  { rewrite Hw1. by apply list_lookup_insert_eq. }
  exists (set_worker q1 w Exited). split.
  { unfold turn. change (Stop :: ?a :: ?b :: ?c) with ([Stop; a; b] ++ c).
    rewrite run_app. cbn [run do mbind option_bind] in Hrun |- *.
    destruct (worker_step mgr (stop q) w now) as [qa|]; [cbn in Hrun |- *|done].
    rewrite Hrun. cbn. by rewrite (step_loop_test q1 w now Hw1'), Hr1. }
  cbn. rewrite Hw1, list_insert_insert_eq.
  split; [done|]. split; [done|]. split; [done|]. split; [done|].
  intros Hothers w' t. unfold worker_step; cbn.
  rewrite Hw1, list_insert_insert_eq.
  destruct (decide (w' = w)) as [->|Hne].
  - by rewrite list_lookup_insert_eq.
  - rewrite list_lookup_insert_ne by done.
    destruct (_workers q !! w') as [st|] eqn:Hst; [cbn|done].
    by rewrite (Hothers w' st Hne Hst).
Qed.

(** X9. [stop] while a worker is running a job: the worker finishes that
    job and exits at the loop test, without another [get]; everything that
    was queued stays queued, untouched, in front of the sentinels; if the
    other workers have exited, no worker can move any more. *)
Theorem stop_while_busy (q : JobQueue) w l j now :
  _workers q !! w = Some (Executing l) → heap q !! l = Some j →
  _dispatch mgr j ≠ Escaped →
  ∃ q', run mgr [Stop; WorkerStep w now; WorkerStep w now] q = Some q'
    ∧ _workers q' = <[w := Exited]> (_workers q)
    ∧ _queue q' = _queue q ++ replicate (length (_workers q)) None
    ∧ heap q' = <[l := stores (_execute_resume (_dispatch mgr j) now) j]> (heap q)
    ∧ dispatched q' = dispatched q
    ∧ ((∀ w' st, w' ≠ w → _workers q !! w' = Some st → st = Exited) →
       ∀ w' t, worker_step mgr q' w' t = None).
Proof.
  intros Hw Hl He.
  assert (Hlt : (w < length (_workers q))%nat) by (by eapply lookup_lt_Some).
  set (q1 := set_worker (mutate (stop q) l (_execute_resume (_dispatch mgr j) now)) w
               LoopHead).
  destruct (mutate_frame (stop q) l (_execute_resume (_dispatch mgr j) now))
    as (Hj1&Hq1&Hw1&Hi1&Hd1&Hr1).
  pose proof (mutate_heap (stop q) l (_execute_resume (_dispatch mgr j) now) j Hl) as Hh1.
  assert (Hw1' : _workers q1 !! w = Some LoopHead).
  { unfold q1; cbn. rewrite Hw1. cbn. by apply list_lookup_insert_eq. }
  exists (set_worker q1 w Exited). split.
  { cbn [run do mbind option_bind].
    rewrite (step_resume (stop q) w l j now Hw Hl).
    assert ((match _dispatch mgr j with Escaped => Exited | _ => LoopHead end)
            = LoopHead) as -> by (by destruct (_dispatch mgr j)).
    cbn [mbind option_bind]. fold q1.
    rewrite (step_loop_test q1 w now Hw1').
    unfold q1 at 2; cbn [_running set_worker]. by rewrite Hr1. }
  cbn. rewrite Hw1, Hq1, Hh1, Hd1. cbn. rewrite list_insert_insert_eq.
  split; [done|]. split; [done|]. split; [done|]. split; [done|].
  intros Hothers w' t. unfold worker_step; cbn.
  rewrite Hw1. cbn. rewrite list_insert_insert_eq.
  destruct (decide (w' = w)) as [->|Hne].
  - by rewrite list_lookup_insert_eq.
  - rewrite list_lookup_insert_ne by done.
    destruct (_workers q !! w') as [st|] eqn:Hst; [cbn|done].
    by rewrite (Hothers w' st Hne Hst).
Qed.

(** What the invariant says of the fields of any job. *)
Lemma Inv_fields (q : JobQueue) l (j : Job) :
  Inv mgr q → heap q !! l = Some j →
  (is_Some (result j) ↔ status j = DONE) ∧ (is_Some (error j) ↔ status j = FAILED).
Proof.
  intros HI Hl.
  destruct (inv_heap mgr q HI l j Hl)
    as [((Hs&Hr&He&_)&_)|[((Hs&Hr&He&_)&_)|((_&Hd)&_)]].
  - rewrite Hs, Hr, He. split; (split; [by intros [? ?]|done]).
  - rewrite Hs, Hr, He. split; (split; [by intros [? ?]|done]).
  - destruct (_dispatch mgr j); destruct Hd as (Hs&Hr&He); rewrite Hs, Hr, He;
      split; (split; [by (intros [? ?] || eauto)|by eauto]).
Qed.

End Laws.


(** *** Concrete queues *)

(** Two jobs submitted under the same id. *)
Definition shadow_actions : list action :=
  [Enqueue "job-1" "parse_document" (demo_payload "%PDF-1.7") 0%float;
   Enqueue "job-1" "parse_web" ∅ 1%float].

Definition shadow_queue : @JobQueue string :=
  default init (run demo_manager shadow_actions init).

Lemma shadow_queue_reachable : reachable demo_manager shadow_queue.
Proof. exists shadow_actions. by vm_compute. Qed.

Lemma get_job_latest_witness :
  reachable demo_manager shadow_queue
  ∧ match get_job shadow_queue "job-1" with
    | Some job => id job = "job-1"%string ∧ task job = "parse_web"%string
    | None => False
    end.
Proof.
  split; [exact shadow_queue_reachable|].
  pose proof (get_job_latest demo_manager shadow_queue "job-1" shadow_queue_reachable) as H.
  destruct (get_job shadow_queue "job-1") as [job|] eqn:Hj; [|by vm_compute in Hj].
  split; [exact (proj1 H)|]. vm_compute in Hj. by injection Hj as <-.
Defined.

Lemma enqueue_get_job_witness :
  reachable demo_manager demo_queue
  ∧ let job := new_job "job-7" "parse_web" ∅ 5%float in
    get_job (enqueue (alloc demo_queue job).2 (alloc demo_queue job).1) "job-7"
    = Some job.
Proof.
  split; [exact demo_queue_reachable|].
  exact (proj1 (enqueue_get_job demo_manager demo_queue "job-7" "parse_web" ∅ 5%float
                  demo_queue_reachable)).
Defined.

Lemma run_sync_get_job_witness :
  reachable demo_manager demo_queue
  ∧ let job := new_job "job-7" "parse_web" ∅ 5%float in
    let l := (alloc demo_queue job).1 in
    status <$> get_job (execute_begin (register (alloc demo_queue job).2 l) l) "job-7"
    = Some RUNNING.
Proof.
  split; [exact demo_queue_reachable|]. cbn zeta.
  by rewrite (proj1 (run_sync_get_job demo_manager demo_queue "job-7" "parse_web" ∅
                       5%float demo_queue_reachable)).
Defined.

(** The demo job with a content type in its payload, as the route sends
    it. *)
Definition demo_job_typed : @Job string :=
  new_job "job-1" "parse_document"
    (<["content_type"%string := PyStr "application/pdf"]> (demo_payload "%PDF-1.7"))
    0%float.

Lemma _dispatch_reads_witness :
  task demo_job = task demo_job_typed
  ∧ (∀ k, k ∈ read_keys (task demo_job) →
       payload demo_job !! k = payload demo_job_typed !! k)
  ∧ _dispatch demo_manager demo_job = _dispatch demo_manager demo_job_typed.
Proof.
  assert (H1 : task demo_job = task demo_job_typed) by done.
  assert (H2 : ∀ k, k ∈ read_keys (task demo_job) →
                 payload demo_job !! k = payload demo_job_typed !! k).
  { intros k Hk.
    assert (read_keys (task demo_job)
            = ["content"; "filename"; "extract_tables"; "extract_images";
               "output_format"]%string) as Hr by (by vm_compute).
    rewrite Hr in Hk.
    repeat (apply elem_of_cons in Hk as [->|Hk]); [by vm_compute..|].
    by apply elem_of_nil in Hk. }
  split; [exact H1|]. split; [exact H2|].
  exact (_dispatch_reads demo_manager demo_job demo_job_typed H1 H2).
Defined.

(** An image job on a server without the image parser, and a document
    job without a file name. *)
Definition image_job : @Job string := new_job "job-4" "parse_image" ∅ 0%float.

Definition nameless_job : @Job string :=
  new_job "job-5" "parse_document" {["content"%string := PyBytes "%PDF-1.7"]} 0%float.

Lemma dispatch_precedence_witness :
  task nameless_job ∈ known_tasks
  ∧ early_failure demo_manager nameless_job = Some "'filename'"%string
  ∧ _dispatch demo_manager nameless_job = Raised "'filename'"%string.
Proof.
  assert (H1 : task nameless_job ∈ known_tasks)
    by (apply (bool_decide_unpack _); by vm_compute).
  assert (H2 : early_failure demo_manager nameless_job = Some "'filename'"%string)
    by (by vm_compute).
  split; [exact H1|]. split; [exact H2|].
  exact (proj1 (dispatch_precedence demo_manager nameless_job _ H1 H2)).
Defined.

(** One worker at the head of its loop, two jobs queued: the demo job and a
    job of unknown kind. *)
Definition backlog_actions : list action :=
  [Start 1;
   Enqueue "job-1" "parse_document" (demo_payload "%PDF-1.7") 0%float;
   Enqueue "job-2" "bogus" ∅ 0%float].

Definition backlog_queue : @JobQueue string :=
  default init (run demo_manager backlog_actions init).

Lemma backlog_queue_reachable : reachable demo_manager backlog_queue.
Proof. exists backlog_actions. by vm_compute. Qed.

Lemma worker_drains_fifo_witness :
  reachable demo_manager backlog_queue
  ∧ _workers backlog_queue !! 0%nat = Some LoopHead
  ∧ _running backlog_queue = true
  ∧ _queue backlog_queue = (Some <$> [0; 1]%nat) ++ []
  ∧ ∃ q', run demo_manager (turns 0 1%float 2) backlog_queue = Some q'
      ∧ _queue q' = []
      ∧ dispatched q' = [0; 1]%nat.
Proof.
  assert (H2 : _workers backlog_queue !! 0%nat = Some LoopHead) by (by vm_compute).
  assert (H3 : _running backlog_queue = true) by (by vm_compute).
  assert (H4 : _queue backlog_queue = (Some <$> [0; 1]%nat) ++ []) by (by vm_compute).
  assert (H5 : ∀ l j, l ∈ [0; 1]%nat → heap backlog_queue !! l = Some j →
                 _dispatch demo_manager j ≠ Escaped).
  { intros l j Hl Hj.
    repeat (apply elem_of_cons in Hl as [->|Hl]); [..|by apply elem_of_nil in Hl];
      vm_compute in Hj; injection Hj as <-; by vm_compute. }
  split; [exact backlog_queue_reachable|]. split; [exact H2|].
  split; [exact H3|]. split; [exact H4|].
  destruct (worker_drains_fifo demo_manager backlog_queue 0 [0; 1]%nat [] 1%float
              backlog_queue_reachable H2 H3 H4 H5) as (q'&Hrun&Hq&_&Hd&_).
  exists q'. split; [exact Hrun|]. split; [exact Hq|]. exact Hd.
Defined.

(** Two workers, both waiting for a job. *)
Definition idle_queue : @JobQueue string :=
  default init
    (run demo_manager [Start 2; WorkerStep 0 0%float; WorkerStep 1 0%float] init).

Lemma stop_idle_pool_witness :
  _workers idle_queue = replicate 2 Getting
  ∧ _queue idle_queue = []
  ∧ ∃ q', run demo_manager [Stop; WorkerStep 0 1%float; WorkerStep 1 1%float] idle_queue
          = Some q'
      ∧ _workers q' = [Exited; Exited] ∧ _queue q' = [].
Proof.
  assert (H1 : _workers idle_queue = replicate 2 Getting) by (by vm_compute).
  assert (H2 : _queue idle_queue = []) by (by vm_compute).
  split; [exact H1|]. split; [exact H2|].
  destruct (stop_idle_pool demo_manager idle_queue 2 1%float H1 H2)
    as (q'&Hrun&Hw&Hq&_).
  exists q'. split; [exact Hrun|]. split; [exact Hw|exact Hq].
Defined.

(** One worker waiting, and two jobs queued before it wakes up. *)
Definition waiting_queue : @JobQueue string :=
  default init
    (run demo_manager
       [Start 1; WorkerStep 0 0%float;
        Enqueue "job-1" "parse_document" (demo_payload "%PDF-1.7") 0%float;
        Enqueue "job-2" "parse_document" (demo_payload "%PDF-1.4") 0%float]
       init).

Lemma stop_abandons_queue_witness :
  _workers waiting_queue !! 0%nat = Some Getting
  ∧ _queue waiting_queue = Some 0%nat :: [Some 1%nat]
  ∧ heap waiting_queue !! 0%nat = Some demo_job
  ∧ _dispatch demo_manager demo_job ≠ Escaped
  ∧ ∃ q', run demo_manager (Stop :: turn 0 1%float) waiting_queue = Some q'
      ∧ _workers q' = [Exited]
      ∧ _queue q' = [Some 1%nat; None]
      ∧ status <$> heap q' !! 1%nat = Some PENDING
      ∧ ∀ w t, worker_step demo_manager q' w t = None.
Proof.
  assert (H1 : _workers waiting_queue !! 0%nat = Some Getting) by (by vm_compute).
  assert (H2 : _queue waiting_queue = Some 0%nat :: [Some 1%nat]) by (by vm_compute).
  assert (H3 : heap waiting_queue !! 0%nat = Some demo_job) by (by vm_compute).
  assert (H4 : _dispatch demo_manager demo_job ≠ Escaped) by (by vm_compute).
  split; [exact H1|]. split; [exact H2|]. split; [exact H3|]. split; [exact H4|].
  destruct (stop_abandons_queue demo_manager waiting_queue 0 0 demo_job
              [Some 1%nat] 1%float H1 H2 H3 H4) as (q'&Hrun&Hw&Hq&Hh&_&Hnone).
  exists q'. split; [exact Hrun|]. split; [exact Hw|]. split; [exact Hq|].
  split; [by rewrite Hh|].
  apply Hnone. intros [|w'] st Hne Hst; [done|by vm_compute in Hst].
Defined.

(** One worker busy with the first job while a second one is queued. *)
Definition busy_queue : @JobQueue string :=
  default init
    (run demo_manager
       [Start 1;
        Enqueue "job-1" "parse_document" (demo_payload "%PDF-1.7") 0%float;
        Enqueue "job-2" "parse_document" (demo_payload "%PDF-1.4") 0%float;
        WorkerStep 0 1%float; WorkerStep 0 1%float]
       init).

Lemma stop_while_busy_witness :
  _workers busy_queue !! 0%nat = Some (Executing 0)
  ∧ heap busy_queue !! 0%nat = Some (stores [SetStatus RUNNING] demo_job)
  ∧ _dispatch demo_manager (stores [SetStatus RUNNING] demo_job) ≠ Escaped
  ∧ ∃ q', run demo_manager [Stop; WorkerStep 0 2%float; WorkerStep 0 2%float] busy_queue
          = Some q'
      ∧ _workers q' = [Exited]
      ∧ _queue q' = [Some 1%nat; None]
      ∧ status <$> heap q' !! 1%nat = Some PENDING.
Proof.
  assert (H1 : _workers busy_queue !! 0%nat = Some (Executing 0)) by (by vm_compute).
  assert (H2 : heap busy_queue !! 0%nat = Some (stores [SetStatus RUNNING] demo_job))
    by (by vm_compute).
  assert (H3 : _dispatch demo_manager (stores [SetStatus RUNNING] demo_job) ≠ Escaped)
    by (by vm_compute).
  split; [exact H1|]. split; [exact H2|]. split; [exact H3|].
  destruct (stop_while_busy demo_manager busy_queue 0 0 _ 2%float H1 H2 H3)
    as (q'&Hrun&Hw&Hq&Hh&_).
  exists q'. split; [exact Hrun|]. split; [exact Hw|]. split; [exact Hq|].
  by rewrite Hh.
Defined.


End QueueLaws.

(** ** Part VI: the request layer and the model manager *)

Module ServerProofs.
Import Queue QueueProofs QueueLaws Server.

Section Routes.

Context {ParseResponse : Type}.
Variable mgr : @ModelManager ParseResponse.

Abbreviation JobQueue := (@Queue.JobQueue ParseResponse).

(** X10. The route [get_job_status] on a running server, in any state of the
    queue: the answer is about the id asked for, and is that of the job
    submitted last under it; it shows a result exactly with DONE and an error
    exactly with FAILED; and the route answers 404, with the id in the
    detail, exactly when no job with that id was ever submitted. *)
Theorem get_job_status_answers (q : JobQueue) (job_id : string) :
  reachable mgr q →
  match get_job_status (Some q) job_id with
  | Respond r =>
      Server.job_id r = job_id
      ∧ (is_Some (Server.result r) ↔ Server.status r = DONE)
      ∧ (is_Some (Server.error r) ↔ Server.status r = FAILED)
      ∧ ∃ l job, heap q !! l = Some job
          ∧ r = {| Server.job_id := id job; Server.status := Queue.status job;
                   Server.result := Queue.result job; Server.error := Queue.error job |}
          ∧ ∀ l' job', heap q !! l' = Some job' → id job' = job_id → (l' ≤ l)%nat
  | HTTPException status_code detail =>
      status_code = 404
      ∧ detail = ("Job " +:+ job_id +:+ " not found")%string
      ∧ ∀ job, job ∈ heap q → id job ≠ job_id
  end.
Proof.
  intros Hre.
  pose proof (registry_latest q job_id (reachable_registry_ok mgr q Hre)) as H.
  unfold get_job_status. destruct (get_job q job_id) as [job|]; [|done].
  destruct H as (Hid&l&Hl&Hlast).
  destruct (Inv_fields mgr q l job (reachable_Inv mgr q Hre) Hl) as [Hr He].
  cbn. split; [done|]. split; [done|]. split; [done|]. by exists l, job.
Qed.

Ltac lookup_payload :=
  repeat first
    [ rewrite lookup_insert_eq
    | rewrite lookup_singleton_eq
    | rewrite lookup_insert_ne by done
    | rewrite lookup_singleton_ne by done ].

Ltac dispatch_route :=
  unfold _dispatch; cbn [task payload new_job];
  repeat (case_decide; try done);
  unfold getitem, get;
  first [ unfold parse_document_payload | unfold parse_image_payload
        | unfold parse_audio_payload | unfold parse_video_payload
        | unfold parse_web_payload | unfold parse_web_batch_payload
        | unfold parse_batch_payload ];
  lookup_payload; reflexivity.

(** X11. The jobs the routes build, dispatched: every key the dispatcher
    subscripts is there, so no [KeyError]; every optional key it reads is
    there too, except for the batch of URLs, so the dispatcher's defaults are
    not used; the content type, [include_links] and [async_mode] are not
    passed on.  The dispatch is the accessor and then the call of the parser
    on the values of the request. *)
Theorem routes_dispatch (i : string) (now : float) :
  (∀ content filename content_type extract_tables extract_images output_format,
     _dispatch mgr (new_job i "parse_document"
       (parse_document_payload content filename content_type extract_tables
          extract_images output_format) now)
     = parser ← document_parser mgr;
       parser content filename extract_tables extract_images output_format)
  ∧ (∀ content filename content_type output_format,
     _dispatch mgr (new_job i "parse_document"
       (parse_batch_payload content filename content_type output_format) now)
     = parser ← document_parser mgr;
       parser content filename (PyBool true) (PyBool true) output_format)
  ∧ (∀ content filename task prompt,
     _dispatch mgr (new_job i "parse_image"
       (parse_image_payload content filename task prompt) now)
     = parser ← image_parser mgr; parser content filename task prompt)
  ∧ (∀ content filename language diarize,
     _dispatch mgr (new_job i "parse_audio"
       (parse_audio_payload content filename language diarize) now)
     = parser ← media_parser mgr; parse_audio parser content filename language diarize)
  ∧ (∀ content filename language diarize extract_frames,
     _dispatch mgr (new_job i "parse_video"
       (parse_video_payload content filename language diarize extract_frames) now)
     = parser ← media_parser mgr;
       parse_video parser content filename language diarize extract_frames)
  ∧ (∀ url max_depth include_links css_selector extraction_schema headers async_mode,
     _dispatch mgr (new_job i "parse_web"
       (parse_web_payload url max_depth include_links css_selector
          extraction_schema headers async_mode) now)
     = parser ← web_parser mgr;
       parser url max_depth css_selector extraction_schema headers)
  ∧ (∀ url max_depth,
     _dispatch mgr (new_job i "parse_web" (parse_web_batch_payload url max_depth) now)
     = parser ← web_parser mgr; parser url max_depth PyNone PyNone PyNone).
Proof.
  repeat split; intros; dispatch_route.
Qed.

(** [run_sync] on an object of the heap, in one piece: the object is left
    as [_execute] leaves it and is registered under its id. *)
Lemma run_sync_exact (q : JobQueue) l (j : Queue.Job) now :
  heap q !! l = Some j →
  let q' := (run_sync mgr q l now).2 in
  heap q' = <[l := (_execute mgr j now).2]> (heap q)
  ∧ _jobs q' = <[id j := l]> (_jobs q)
  ∧ (run_sync mgr q l now).1
    = match _dispatch mgr j with
      | Escaped => Escaped
      | _ => run_sync_return (_execute mgr j now).2
      end.
Proof.
  intros Hl. cbn zeta. unfold run_sync.
  assert (Hll : (l < length (heap q))%nat) by (by eapply lookup_lt_Some).
  set (q1 := execute_begin (register q l) l).
  destruct (register_frame q l) as (Hrh&_).
  destruct (mutate_frame (register q l) l _execute_begin) as (Hj1&_).
  assert (Hh1 : heap q1 = <[l := stores _execute_begin j]> (heap q)).
  { unfold q1; cbn. rewrite (mutate_heap (register q l) l _ j) by (by rewrite Hrh).
    by rewrite Hrh. }
  assert (Hl1 : heap q1 !! l = Some (stores _execute_begin j)).
  { rewrite Hh1. by apply list_lookup_insert_eq. }
  assert (Hjobs1 : _jobs q1 = <[id j := l]> (_jobs q)).
  { unfold q1; cbn. rewrite Hj1. by apply register_jobs. }
  pose proof (execute_resume_heap mgr q1 l now _ Hl1) as Hh2.
  pose proof (execute_resume_frame mgr q1 l now) as (Hj2&_).
  assert (Ho : (execute_resume mgr q1 l now).1
               = match _dispatch mgr j with Escaped => Escaped | _ => Returned () end).
  { unfold execute_resume. rewrite Hl1. cbn [fst].
    by rewrite (_dispatch_stores mgr _execute_begin j). }
  destruct (execute_resume mgr q1 l now) as [o q2]. cbn [fst snd] in *.
  assert (Hfinal : heap q2 = <[l := (_execute mgr j now).2]> (heap q)).
  { rewrite Hh2, Hh1, list_insert_insert_eq. reflexivity. }
  assert (Hl2 : heap q2 !! l = Some (_execute mgr j now).2).
  { rewrite Hfinal. by apply list_lookup_insert_eq. }
  rewrite Hl2. subst o.
  destruct (_dispatch mgr j); cbn [fst snd]; by rewrite Hj2, Hjobs1.
Qed.

(** X12. A single-job route and a status poll right after it.  With
    [async_mode] the route answers PENDING and so does the poll.  Without
    it: if the dispatch returns, the route answers DONE with the result and
    so does the poll; if the dispatch raises, the poll shows the job FAILED
    with the message, and the route lets [RuntimeError] with that message
    out, except when the message is empty: then the route answers DONE with
    no result.  The answers carry the id of the job. *)
Theorem submit_then_status (q : JobQueue) (i t : string) p (async_mode : bool)
    (created now : float) :
  let job := new_job i t p created in
  let o := (submit mgr q i t p async_mode created now).1 in
  let poll := get_job_status (Some (submit mgr q i t p async_mode created now).2) i in
  if async_mode then
    o = Returned {| r_job_id := i; r_status := PENDING; r_result := None; r_error := None |}
    ∧ poll = Respond {| Server.job_id := i; Server.status := PENDING;
                        Server.result := None; Server.error := None |}
  else
    match _dispatch mgr job with
    | Returned r =>
        o = Returned {| r_job_id := i; r_status := DONE; r_result := Some r;
                        r_error := None |}
        ∧ poll = Respond {| Server.job_id := i; Server.status := DONE;
                            Server.result := Some r; Server.error := None |}
    | Raised msg =>
        o = (if decide (msg = ""%string)
             then Returned {| r_job_id := i; r_status := DONE; r_result := None;
                              r_error := None |}
             else Raised msg)
        ∧ poll = Respond {| Server.job_id := i; Server.status := FAILED;
                            Server.result := None; Server.error := Some msg |}
    | Escaped => o = Escaped
    end.
Proof.
  cbn zeta. unfold submit. cbn [alloc].
  set (job := new_job i t p created).
  set (q1 := set_heap q (heap q ++ [job])).
  assert (Hl : heap q1 !! length (heap q) = Some job) by (by apply list_lookup_middle).
  destruct async_mode.
  - destruct (register_frame q1 (length (heap q))) as (Hrh&_).
    assert (Hh : heap (enqueue q1 (length (heap q))) !! length (heap q) = Some job).
    { cbn. by rewrite Hrh. }
    cbn [fst snd]. rewrite Hh. cbn [fmap option_fmap option_map default id job new_job].
    split; [done|].
    unfold get_job_status, get_job. cbn [_jobs heap enqueue].
    rewrite (register_jobs q1 _ _ Hl), Hrh. cbn [id job new_job].
    rewrite lookup_insert_eq. cbn. by rewrite list_lookup_middle.
  - destruct (run_sync_exact q1 (length (heap q)) job now Hl) as (Hh&Hj&Ho).
    destruct (run_sync mgr q1 (length (heap q)) now) as [o q2].
    cbn [fst snd] in *.
    assert (Hl2 : heap q2 !! length (heap q) = Some (_execute mgr job now).2).
    { rewrite Hh. apply list_lookup_insert_eq. by eapply lookup_lt_Some. }
    rewrite Hl2. unfold get_job_status, get_job. rewrite Hj.
    change (id job) with i. rewrite lookup_insert_eq. cbn [mbind option_bind].
    rewrite Hl2. subst o.
    unfold _execute, _execute_writes, run_sync_return. cbn [snd].
    rewrite _dispatch_stores.
    destruct (_dispatch mgr job) as [r|msg|]; cbn; [done| |done].
    destruct msg; cbn; [by rewrite decide_True|by rewrite decide_False].
Qed.

(** *** The batch of URLs *)

Lemma alloc_all_spec (q : JobQueue) (jobs : list (@Queue.Job ParseResponse)) :
  alloc_all q jobs
  = (seq (length (heap q)) (length jobs), set_heap q (heap q ++ jobs)).
Proof.
  revert q. induction jobs as [|job jobs IH]; intros q.
  - cbn. rewrite app_nil_r. by destruct q.
  - cbn [alloc_all alloc]. rewrite IH. cbn.
    rewrite length_app, Nat.add_1_r, <- app_assoc. done.
Qed.

(** What [enqueue] does to the registry, given the heap. *)
Definition reg (H : list (@Queue.Job ParseResponse)) (m : gmap string nat) (l : nat) : gmap string nat :=
  match H !! l with
  | Some j => <[id j := l]> m
  | None => m
  end.

Lemma foldl_enqueue (q : JobQueue) ls :
  heap (foldl enqueue q ls) = heap q
  ∧ _queue (foldl enqueue q ls) = _queue q ++ (Some <$> ls)
  ∧ _jobs (foldl enqueue q ls) = foldl (reg (heap q)) (_jobs q) ls.
Proof.
  revert q. induction ls as [|l ls IH]; intros q.
  - cbn. by rewrite app_nil_r.
  - cbn [foldl]. destruct (IH (enqueue q l)) as (Hh&Hq&Hj).
    destruct (register_frame q l) as (Hrh&Hrq&_).
    assert (Hheap : heap (enqueue q l) = heap q) by (cbn; exact Hrh).
    rewrite Hh, Hq, Hj, Hheap. split; [done|]. split.
    + cbn. rewrite Hrq, <- app_assoc. done.
    + f_equal. cbn. unfold register, reg. by destruct (heap q !! l).
Qed.

Lemma foldl_reg_other H m ls i :
  (∀ l j, l ∈ ls → H !! l = Some j → id j ≠ i) →
  foldl (reg H) m ls !! i = m !! i.
Proof.
  revert m. induction ls as [|l ls IH]; intros m Hne; [done|].
  cbn [foldl]. rewrite IH by (intros l' j' Hl'; apply Hne; by right).
  unfold reg. destruct (H !! l) as [j|] eqn:Hl; [|done].
  rewrite lookup_insert_ne; [done|]. eapply Hne; [by left|done].
Qed.

Lemma foldl_reg_here H m ls l j :
  l ∈ ls → H !! l = Some j →
  (∀ l' j', l' ∈ ls → H !! l' = Some j' → id j' = id j → l' = l) →
  foldl (reg H) m ls !! id j = Some l.
Proof.
  revert m. induction ls as [|l0 ls IH]; intros m Hin Hl Huniq.
  { by apply elem_of_nil in Hin. }
  cbn [foldl]. destruct (decide (l ∈ ls)) as [Hls|Hls].
  - apply IH; [done|done|]. intros l' j' Hl'. apply Huniq. by right.
  - apply elem_of_cons in Hin as [<-|?]; [|done].
    rewrite foldl_reg_other.
    + unfold reg. rewrite Hl. apply lookup_insert_eq.
    + intros l' j' Hl' Hj' Hid. apply Hls.
      rewrite <- (Huniq l' j'); [done|by right|done|done].
Qed.

Lemma omap_lookup_seq {A B} (f : A → B) (h xs : list A) :
  omap (λ l, f <$> (h ++ xs) !! l) (seq (length h) (length xs)) = f <$> xs.
Proof.
  revert h. induction xs as [|x xs IH]; intros h; [done|].
  cbn. rewrite list_lookup_middle by done. cbn. f_equal.
  rewrite (cons_middle x h xs), app_assoc.
  replace (S (length h)) with (length (h ++ [x])) by (rewrite length_app; cbn; lia).
  apply IH.
Qed.

(** X13. The route [parse_web_batch] for URLs whose jobs get distinct ids: the
    answers are PENDING, one per URL in the order of the URLs, each with its
    job's id; the jobs are appended to the FIFO in that same order; each of
    them is what [get_job] answers for its id, as its constructor left it;
    and the answers of [get_job] for other ids do not change. *)
Theorem parse_web_batch_queued (q : JobQueue) urls max_depth :
  reachable mgr q →
  NoDup ((λ e, e.1.1) <$> urls) →
  let jobs :=
    (λ '(i, created, url),
       new_job i "parse_web" (parse_web_batch_payload url max_depth) created)
      <$> urls in
  let rs := (parse_web_batch q urls max_depth).1 in
  let q' := (parse_web_batch q urls max_depth).2 in
  rs = (λ job, {| r_job_id := id job; r_status := PENDING;
                  r_result := None; r_error := None |}) <$> jobs
  ∧ heap q' = heap q ++ jobs
  ∧ _queue q' = _queue q ++ (Some <$> seq (length (heap q)) (length jobs))
  ∧ (∀ job, job ∈ jobs → get_job q' (id job) = Some job)
  ∧ (∀ i, i ∉ id <$> jobs → get_job q' i = get_job q i).
Proof.
  intros Hre Hnd. cbn zeta. unfold parse_web_batch.
  set (jobs := _ <$> urls).
  assert (Hids : id <$> jobs = (λ e, e.1.1) <$> urls).
  { unfold jobs. rewrite <- list_fmap_compose. apply list_fmap_ext.
    by intros k [[i created] url] _. }
  rewrite <- Hids in Hnd.
  rewrite alloc_all_spec.
  set (q1 := set_heap q (heap q ++ jobs)).
  set (ls := seq (length (heap q)) (length jobs)).
  destruct (foldl_enqueue q1 ls) as (Hh&Hq&Hj). cbn [fst snd].
  change (heap q1) with (heap q ++ jobs) in Hh, Hj.
  change (_queue q1) with (_queue q) in Hq.
  change (_jobs q1) with (_jobs q) in Hj.
  assert (Hls : ∀ l j, l ∈ ls → (heap q ++ jobs) !! l = Some j →
                  ∃ k, l = (length (heap q) + k)%nat ∧ jobs !! k = Some j).
  { intros l j [Hge Hlt]%elem_of_seq Hl. exists (l - length (heap q))%nat.
    split; [lia|]. by rewrite lookup_app_r in Hl by lia. }
  split; [|split; [done|split; [done|split]]].
  - rewrite Hh. apply omap_lookup_seq.
  - intros job (k&Hk)%list_elem_of_lookup_1.
    assert (Hlt : (k < length jobs)%nat) by (by eapply lookup_lt_Some).
    assert (Hl : (heap q ++ jobs) !! (length (heap q) + k)%nat = Some job).
    { rewrite lookup_app_r by lia. by replace (_ + k - _)%nat with k by lia. }
    unfold get_job. rewrite Hj, Hh.
    rewrite (foldl_reg_here _ _ ls (length (heap q) + k)%nat job); [done| |done|].
    + apply elem_of_seq. lia.
    + intros l' j' Hl' Hj' Hid. destruct (Hls l' j' Hl' Hj') as (k'&->&Hk').
      f_equal. eapply (NoDup_lookup (id <$> jobs)); [done| |].
      * by rewrite list_lookup_fmap, Hk'; cbn; rewrite Hid.
      * by rewrite list_lookup_fmap, Hk.
  - intros i Hi. unfold get_job. rewrite Hj, Hh.
    rewrite foldl_reg_other.
    + destruct (_jobs q !! i) as [l|] eqn:Hl; [cbn|done].
      destruct (reachable_registry_ok mgr q Hre) as [Hs _].
      apply Hs, lookup_lt_Some in Hl. unfold ids in Hl. rewrite length_fmap in Hl.
      by apply lookup_app_l.
    + intros l j Hl Hjl <-. destruct (Hls l j Hl Hjl) as (k&_&Hk).
      apply Hi, list_elem_of_fmap. exists j. split; [done|].
      by eapply list_elem_of_lookup_2.
Qed.

End Routes.


Lemma submit_then_status_witness :
  (submit demo_manager demo_queue "job-8" "parse_image" ∅ false 5%float 6%float).1
  = Raised "Image parser not loaded."%string
  ∧ get_job_status
      (Some (submit demo_manager demo_queue "job-8" "parse_image" ∅ false
               5%float 6%float).2) "job-8"
    = Respond {| Server.job_id := "job-8"; Server.status := FAILED;
                 Server.result := None;
                 Server.error := Some "Image parser not loaded."%string |}.
Proof.
  exact (submit_then_status demo_manager demo_queue "job-8" "parse_image" ∅ false
           5%float 6%float).
Defined.

(** Two URLs in one batch. *)
Definition demo_urls : list (string * float * pyval) :=
  [("job-a"%string, 7%float, PyStr "https://a.example");
   ("job-b"%string, 7%float, PyStr "https://b.example")].

Lemma parse_web_batch_queued_witness :
  reachable demo_manager demo_queue
  ∧ NoDup ((λ e, e.1.1) <$> demo_urls)
  ∧ r_job_id <$> (parse_web_batch demo_queue demo_urls (PyInt 1)).1
    = ["job-a"; "job-b"]%string
  ∧ _queue (parse_web_batch demo_queue demo_urls (PyInt 1)).2
    = _queue demo_queue ++ [Some 2%nat; Some 3%nat].
Proof.
  assert (H : NoDup ((λ e, e.1.1) <$> demo_urls))
    by (apply (bool_decide_unpack _); by vm_compute).
  split; [exact demo_queue_reachable|]. split; [exact H|].
  destruct (parse_web_batch_queued demo_manager demo_queue demo_urls (PyInt 1)
              demo_queue_reachable H) as (Hrs&_&Hq&_).
  split; [by rewrite Hrs|by rewrite Hq].
Defined.

Lemma get_job_status_answers_witness :
  reachable demo_manager demo_queue
  ∧ match get_job_status (Some demo_queue) "job-1" with
    | Respond r => Server.job_id r = "job-1"%string
    | HTTPException _ _ => False
    end
  ∧ match get_job_status (Some demo_queue) "job-9" with
    | Respond _ => False
    | HTTPException status_code detail =>
        status_code = 404 ∧ detail = "Job job-9 not found"%string
    end.
Proof.
  split; [exact demo_queue_reachable|].
  pose proof (get_job_status_answers demo_manager demo_queue "job-1"
                demo_queue_reachable) as H1.
  pose proof (get_job_status_answers demo_manager demo_queue "job-9"
                demo_queue_reachable) as H9.
  split.
  - destruct (get_job_status (Some demo_queue) "job-1") as [r|c d] eqn:Hr;
      [exact (proj1 H1)|by vm_compute in Hr].
  - destruct (get_job_status (Some demo_queue) "job-9") as [r|c d] eqn:Hr;
      [by vm_compute in Hr|].
    destruct H9 as (-> & -> & _). by split.
Defined.

End ServerProofs.

Module ManagerProofs.
Import Queue QueueProofs QueueLaws Manager.

Section Startup.

Context {ParseResponse : Type}.
Variable L : @Loaders ParseResponse.

Abbreviation Job := (@Queue.Job ParseResponse).

(** The flag under which [initialize] loads the parser of a task. *)
Definition enabled (s : Settings) (t : string) : bool :=
  (if decide (t = "parse_document") then load_documents s
   else if decide (t = "parse_image") then load_documents s
   else if decide (t = "parse_web") then load_web s
   else load_media s)%string.

(** Sequencing and the loaders, one step at a time. *)
Lemma and_then_snd {S} (P : S → Prop) (r : coroutine S) k :
  P r.2 → (∀ m, P m → P (k m).2) → P (and_then r k).2.
Proof. intros Hr Hk. unfold and_then. destruct r as [[| |] m]; cbn in *; auto. Qed.

Lemma and_then_Returned {S} (r : coroutine S) k m' :
  and_then r k = (Returned (), m') →
  ∃ m1, r = (Returned (), m1) ∧ k m1 = (Returned (), m').
Proof.
  unfold and_then. destruct r as [[[]| |] m]; cbn; [|done..].
  intros H. by exists m.
Qed.

Lemma when_snd (P : ManagerState → Prop) flag loader (m : @ManagerState ParseResponse) :
  P m → (P m → P (loader m).2) → P (when flag loader m).2.
Proof. intros Hm Hl. unfold when. destruct flag; cbn; auto. Qed.

Lemma load_Returned {P} (l : Loader P) set_field name (m m' : @ManagerState ParseResponse) :
  load l set_field name m = (Returned (), m') →
  ∃ p, m' = {| parsers := parsers (set_field p m);
               _loaded := {[name]} ∪ _loaded (set_field p m) |}.
Proof.
  unfold load. destruct (construct l) as [p| |]; [|done..].
  destruct (initialize_parser l p) as [[]| |]; [|done..].
  intros [= <-]. by exists p.
Qed.

(** A name is in [_loaded] only if the field of its parser is assigned, and
    [_loaded] holds no other names than the four. *)
Definition loaded_sound (m : @ManagerState ParseResponse) : Prop :=
  (("docling"%string ∈ loaded_models m) → is_Some (_document_parser (parsers m)))
  ∧ (("qwen2-vl"%string ∈ loaded_models m) → is_Some (_image_parser (parsers m)))
  ∧ (("distil-whisper"%string ∈ loaded_models m) → is_Some (_media_parser (parsers m)))
  ∧ (("crawl4ai"%string ∈ loaded_models m) → is_Some (_web_parser (parsers m)))
  ∧ loaded_models m
    ⊆ {["docling"; "qwen2-vl"; "distil-whisper"; "crawl4ai"]}%string.

Ltac loader_sound :=
  intros (H1&H2&H3&H4&H5); unfold load, loaded_models in *;
  match goal with
  | |- context [construct ?l] => destruct (construct l) as [p| |]; cbn
  end; [|done..];
  match goal with
  | |- context [initialize_parser ?l ?p] =>
      destruct (initialize_parser l p) as [[]| |]; cbn
  end;
  (split; [|split; [|split; [|split]]]); cbn;
  first
    [ by eauto
    | done
    | by intros [?%elem_of_singleton|?]%elem_of_union; auto
    | apply union_subseteq; split; [|done];
      apply singleton_subseteq_l; rewrite !elem_of_union, !elem_of_singleton; auto 10 ].

Lemma _load_document_parser_sound m :
  loaded_sound m → loaded_sound (_load_document_parser L m).2.
Proof. unfold _load_document_parser, loaded_sound. loader_sound. Qed.

Lemma _load_image_parser_sound m :
  loaded_sound m → loaded_sound (_load_image_parser L m).2.
Proof. unfold _load_image_parser, loaded_sound. loader_sound. Qed.

Lemma _load_media_parser_sound m :
  loaded_sound m → loaded_sound (_load_media_parser L m).2.
Proof. unfold _load_media_parser, loaded_sound. loader_sound. Qed.

Lemma _load_web_parser_sound m :
  loaded_sound m → loaded_sound (_load_web_parser L m).2.
Proof. unfold _load_web_parser, loaded_sound. loader_sound. Qed.

(** X14. Whatever the loaders do, and however [initialize] ends (a loader that
    raises leaves its parser assigned but not named): the manager it leaves
    names in [loaded_models] only parsers that are assigned, and only the
    four. *)
Theorem loaded_models_sound (s : Settings) :
  loaded_sound (initialize L s new_manager).2.
Proof.
  unfold initialize.
  apply and_then_snd.
  { apply when_snd; [|intros _; apply _load_document_parser_sound];
      unfold loaded_sound, loaded_models; cbn;
      (split; [|split; [|split; [|split]]]); set_unfold; tauto. }
  intros m1 H1. apply and_then_snd.
  { by apply when_snd; [|apply _load_media_parser_sound]. }
  intros m2 H2. apply and_then_snd.
  { by apply when_snd; [|apply _load_image_parser_sound]. }
  intros m3 H3. by apply when_snd; [|apply _load_web_parser_sound].
Qed.

(** X15. A start that succeeds: a parser is there exactly when its flag is set,
    where the image parser goes by the documents flag; so a server started
    without a flag fails every job of the tasks under it with the message of
    the accessor, whatever the payload, and with the flag the accessor does
    not fail.  [loaded_models] names the parsers that are there. *)
Theorem initialize_flags (s : Settings) (m : ManagerState) :
  initialize L s new_manager = (Returned (), m) →
  (∀ j : Job, task j ∈ known_tasks →
     if enabled s (task j) then accessor_failure (parsers m) (task j) = None
     else
       _dispatch (parsers m) j = Raised
         (if decide (task j = "parse_document") then
            "Document parser not loaded. Start server with --documents flag."
          else if decide (task j = "parse_image") then "Image parser not loaded."
          else if decide (task j = "parse_web") then
            "Web parser not loaded. Start server with --web flag."
          else "Media parser not loaded. Start server with --media flag.")%string)
  ∧ loaded_models m
    = ((if load_documents s then {["docling"; "qwen2-vl"]} else ∅)
       ∪ (if load_media s then {["distil-whisper"]} else ∅)
       ∪ (if load_web s then {["crawl4ai"]} else ∅))%string.
Proof.
  intros Hinit.
  assert (Hp : (is_Some (_document_parser (parsers m)) ↔ load_documents s = true)
             ∧ (is_Some (_image_parser (parsers m)) ↔ load_documents s = true)
             ∧ (is_Some (_media_parser (parsers m)) ↔ load_media s = true)
             ∧ (is_Some (_web_parser (parsers m)) ↔ load_web s = true)
             ∧ loaded_models m
               = ((if load_documents s then {["docling"; "qwen2-vl"]} else ∅)
                  ∪ (if load_media s then {["distil-whisper"]} else ∅)
                  ∪ (if load_web s then {["crawl4ai"]} else ∅))%string).
  { unfold initialize in Hinit.
    apply and_then_Returned in Hinit as (m1&Hm1&Hinit).
    apply and_then_Returned in Hinit as (m2&Hm2&Hinit).
    apply and_then_Returned in Hinit as (m3&Hm3&Hm4).
    unfold when in Hm1, Hm2, Hm3, Hm4. unfold loaded_models.
    destruct s as [[] [] []]; cbn in *;
      repeat match goal with
      | H : _ = (Returned (), _) |- _ =>
          first [ apply load_Returned in H as (?p&->)
                | injection H as <- ]
      end; cbn;
      (split; [|split; [|split; [|split]]]);
      try (split; [by intros [? ?] || done | by eauto]);
      apply leibniz_equiv; set_unfold; tauto. }
  destruct Hp as (Hdoc&Himg&Hmed&Hweb&Hl). split; [|done].
  intros j Hk. unfold known_tasks in Hk.
  unfold enabled, accessor_failure, _dispatch,
    document_parser, image_parser, media_parser, web_parser.
  repeat (apply elem_of_cons in Hk as [Hk|Hk]); [..|by apply elem_of_nil in Hk];
    rewrite Hk; repeat (case_decide; try done).
  - destruct (load_documents s), (_document_parser (parsers m)); try done;
      [by destruct (proj2 Hdoc eq_refl) as [? [=]]|discriminate (proj1 Hdoc (mk_is_Some _ _ eq_refl))].
  - destruct (load_documents s), (_image_parser (parsers m)); try done;
      [by destruct (proj2 Himg eq_refl) as [? [=]]|discriminate (proj1 Himg (mk_is_Some _ _ eq_refl))].
  - destruct (load_media s), (_media_parser (parsers m)); try done;
      [by destruct (proj2 Hmed eq_refl) as [? [=]]|discriminate (proj1 Hmed (mk_is_Some _ _ eq_refl))].
  - destruct (load_media s), (_media_parser (parsers m)); try done;
      [by destruct (proj2 Hmed eq_refl) as [? [=]]|discriminate (proj1 Hmed (mk_is_Some _ _ eq_refl))].
  - destruct (load_web s), (_web_parser (parsers m)); try done;
      [by destruct (proj2 Hweb eq_refl) as [? [=]]|discriminate (proj1 Hweb (mk_is_Some _ _ eq_refl))].
Qed.

End Startup.


(** Loaders that succeed, with parsers that answer with the file name or
    the URL. *)
Definition echo (v : pyval) : outcome string :=
  match v with
  | PyStr s => Returned s
  | _ => Raised "not a string"%string
  end.

Definition demo_loaders : @Loaders string :=
  {| document_loader :=
       {| construct := Returned (λ _ filename _ _ _, echo filename);
          initialize_parser := λ _, Returned () |};
     image_loader :=
       {| construct := Returned (λ _ filename _ _, echo filename);
          initialize_parser := λ _, Returned () |};
     media_loader :=
       {| construct :=
            Returned {| parse_audio := λ _ filename _ _, echo filename;
                        parse_video := λ _ filename _ _ _, echo filename |};
          initialize_parser := λ _, Returned () |};
     web_loader :=
       {| construct := Returned (λ url _ _ _ _, echo url);
          initialize_parser := λ _, Returned () |} |}.

(** A server started with [--documents --web]. *)
Definition demo_settings : Settings :=
  {| load_documents := true; load_media := false; load_web := true |}.

Definition demo_state : @ManagerState string :=
  (initialize demo_loaders demo_settings new_manager).2.

Definition audio_job : @Queue.Job string :=
  new_job "job-6" "parse_audio" ∅ 0%float.

Lemma initialize_flags_witness :
  initialize demo_loaders demo_settings new_manager = (Returned (), demo_state)
  ∧ _dispatch (parsers demo_state) audio_job
    = Raised "Media parser not loaded. Start server with --media flag."%string
  ∧ loaded_models demo_state = {["docling"; "qwen2-vl"; "crawl4ai"]}%string.
Proof.
  assert (H : initialize demo_loaders demo_settings new_manager
              = (Returned (), demo_state)) by done.
  split; [exact H|].
  destruct (initialize_flags demo_loaders demo_settings demo_state H) as [Hj Hl].
  split.
  - assert (Hk : task audio_job ∈ known_tasks)
      by (apply (bool_decide_unpack _); by vm_compute).
    exact (Hj audio_job Hk).
  - rewrite Hl. cbn. apply leibniz_equiv. set_unfold. tauto.
Defined.

End ManagerProofs.

(** ** Part VII: further properties of the semantic chunker *)

Module ChunkerLaws.
Import Chunker ChunkerProofs.

(** *** Where the patterns match *)

Lemma span_take cls hi s k :
  (k ≤ span cls hi s)%nat →
  (k ≤ length s)%nat ∧ Forall (λ c, cls c = true) (take k s).
Proof.
  revert hi k. induction s as [|c s IH]; intros hi k Hk.
  - assert (k = 0%nat) as -> by (destruct hi as [[|]|]; cbn in Hk; lia).
    split; [lia|constructor].
  - destruct k as [|k]; [split; [lia|constructor]|].
    assert (cls c = true ∧ (k ≤ span cls (pred <$> hi) s)%nat) as [Hc Hk'].
    { destruct hi as [[|n]|]; cbn in Hk |- *; [lia|..];
        (destruct (cls c); [split; [done|lia]|lia]). }
    destruct (IH _ _ Hk') as [Hlen Hall]. cbn.
    split; [lia|by constructor].
Qed.

Lemma try_down_Some_bound {R} (f : nat → option R) lo k r :
  try_down f lo k = Some r → ∃ k', (lo ≤ k' ≤ k)%nat ∧ f k' = Some r.
Proof.
  induction k as [|k IH]; rewrite try_down_unfold;
    (destruct (_ <? lo)%nat eqn:Hlo; [done|]); apply Nat.ltb_ge in Hlo;
    destruct (f _) eqn:Hf; try done.
  - intros [= <-]. exists 0%nat. split; [lia|done].
  - intros [= <-]. exists (S k). split; [lia|done].
  - intros (k'&?&?)%IH. exists k'. split; [lia|done].
Qed.

(** A match of [\n\n+] at the start of [s] takes line feeds only, and at
    least one character. *)
Lemma match_here_blank_lines prev s n gs :
  match_here blank_lines prev s = Some (n, gs) →
  (1 ≤ n ≤ length s)%nat ∧ Forall (λ c, c = LF) (take n s).
Proof.
  unfold blank_lines. cbn [match_here].
  intros (k1&Hk1&H)%try_down_Some_bound.
  destruct (try_down _ 1 _) as [[n2 gs2]|] eqn:H2; [|done].
  cbn in H. injection H as <- <-.
  apply try_down_Some_bound in H2 as (k2&Hk2&H2). cbn in H2. injection H2 as <- <-.
  destruct (span_take _ _ _ _ (proj2 Hk1)) as [Hl1 Ha1].
  destruct (span_take _ _ _ _ (proj2 Hk2)) as [Hl2 Ha2].
  rewrite length_drop in Hl2. rewrite Nat.add_0_r.
  split; [lia|].
  rewrite <- take_take_drop. apply Forall_app. split.
  - eapply Forall_impl; [exact Ha1|]. intros c Hc. by apply N.eqb_eq in Hc.
  - eapply Forall_impl; [exact Ha2|]. intros c Hc. by apply N.eqb_eq in Hc.
Qed.

(** A line of headings can only begin at a [#]. *)
Lemma match_here_heading_head prev s :
  head s ≠ Some HASH → match_here heading_pattern prev s = None.
Proof.
  intros Hh. unfold heading_pattern. cbn [match_here].
  destruct (at_bol prev); [|done].
  assert (span (λ c, (c =? HASH)%N) (Some 3%nat) s = 0%nat) as ->; [|done].
  destruct s as [|c s]; [done|]. cbn.
  destruct (c =? HASH)%N eqn:Hc; [|done].
  apply N.eqb_eq in Hc as ->. by destruct Hh.
Qed.

Lemma scan_no_hash prev s pos :
  HASH ∉ s → scan heading_pattern prev s pos 0 = [].
Proof.
  revert prev pos. induction s as [|c s IH]; intros prev pos Hn; cbn [scan].
  - by rewrite match_here_heading_head.
  - apply not_elem_of_cons in Hn as [Hc Hn].
    rewrite match_here_heading_head by (cbn; congruence). by apply IH.
Qed.

(** Matches found by a scan, from left to right: each starts where the one
    before ended or later, inside the text, and covers characters of [sep]
    only. *)
Fixpoint chain (sep : N → Prop) (text : pystr) (from : nat) (ms : list re_match) : Prop :=
  match ms with
  | [] => (from ≤ length text)%nat
  | m :: ms' =>
      (from ≤ m_start m)%nat ∧ (m_start m ≤ m_end m)%nat
      ∧ Forall sep (slice text (m_start m) (m_end m))
      ∧ chain sep text (m_end m) ms'
  end.

Lemma chain_weaken sep text from from' ms :
  (from ≤ from')%nat → chain sep text from' ms → chain sep text from ms.
Proof. destruct ms; cbn; [lia|]. intros ? (?&?&?&?). split; [lia|done]. Qed.

Lemma chain_le sep text from ms : chain sep text from ms → (from ≤ length text)%nat.
Proof.
  revert from. induction ms as [|m ms IH]; intros from; cbn; [done|].
  intros (?&?&_&H%IH). lia.
Qed.

Lemma scan_chain sep pat text prev s pos skip :
  (∀ prev s n gs, match_here pat prev s = Some (n, gs) →
     (n ≤ length s)%nat ∧ Forall sep (take n s)) →
  drop pos text = s → (pos + skip ≤ length text)%nat →
  chain sep text (pos + skip) (scan pat prev s pos skip).
Proof.
  intros Hpat. revert prev pos skip.
  induction s as [|c s IH]; intros prev pos skip Hs Hlen.
  - cbn [scan]. destruct skip as [|skip]; [|cbn; lia].
    destruct (match_here pat prev []) as [[n gs]|] eqn:Hm; [|cbn; lia].
    destruct (Hpat _ _ _ _ Hm) as [Hn _]. cbn in Hn.
    assert (n = 0%nat) as -> by lia. cbn. rewrite !Nat.add_0_r.
    split; [lia|]. split; [lia|]. split; [|lia].
    unfold slice. rewrite Nat.sub_diag. constructor.
  - assert (Hs' : drop (S pos) text = s).
    { pose proof (drop_drop text 1 pos) as H. rewrite Hs, Nat.add_1_r in H. by cbn in H. }
    assert (Hpos : length text = (pos + S (length s))%nat).
    { pose proof (length_drop text pos) as H. rewrite Hs in H. cbn in H. lia. }
    cbn [scan]. destruct skip as [|skip].
    + destruct (match_here pat prev (c :: s)) as [[n gs]|] eqn:Hm.
      * destruct (Hpat _ _ _ _ Hm) as [Hn Hsep]. cbn [length] in Hn.
        cbn [chain m_start m_end]. rewrite Nat.add_0_r.
        split; [lia|]. split; [lia|]. split.
        { unfold slice. replace (pos + n - pos)%nat with n by lia. by rewrite Hs. }
        apply (chain_weaken _ _ _ (S pos + (n - 1))); [lia|].
        apply IH; [done|lia].
      * apply (chain_weaken _ _ _ (S pos + 0)); [lia|]. apply IH; [done|lia].
    + replace (pos + S skip)%nat with (S pos + skip)%nat by lia.
      apply IH; [done|lia].
Qed.

Lemma slice_app {A} (l : list A) a b c :
  (a ≤ b ≤ c)%nat → slice l a c = slice l a b ++ slice l b c.
Proof.
  intros [Hab Hbc]. unfold slice.
  replace (c - a)%nat with ((b - a) + (c - b))%nat by lia.
  rewrite <- take_take_drop, drop_drop. do 3 f_equal. lia.
Qed.

Lemma slice_all {A} (l : list A) : slice l 0 (length l) = l.
Proof. unfold slice. rewrite Nat.sub_0_r. cbn. apply firstn_all. Qed.

(** The pieces of a split and the separators between them make up the
    text: if every piece is all-whitespace, so is the text. *)
Lemma split_at_blank text ms from :
  chain (λ c, isspace c = true) text from ms →
  Forall blank (split_at text ms from) → blank (slice text from (length text)).
Proof.
  revert from. induction ms as [|m ms IH]; intros from; cbn [split_at chain].
  - by intros _ [? _]%Forall_cons.
  - intros (Hfrom&Hm&Hsep&Hch) [Hp Hrest]%Forall_cons.
    pose proof (chain_le _ _ _ _ Hch) as Hend.
    rewrite (slice_app text from (m_start m)) by lia.
    rewrite (slice_app text (m_start m) (m_end m)) by lia.
    apply blank_app. split; [done|]. apply blank_app. split; [done|by apply IH].
Qed.

(** Text that is not all-whitespace has a paragraph. *)
Lemma paragraphs_nonempty text : ¬ blank text → paragraphs text ≠ [].
Proof.
  intros Hb Hnil. apply Hb. rewrite <- (slice_all text).
  apply (split_at_blank text (finditer blank_lines text)).
  - apply (scan_chain _ blank_lines text None text 0 0); [|done|lia].
    intros prev s n gs [Hn Hall]%match_here_blank_lines.
    split; [lia|]. eapply Forall_impl; [exact Hall|]. by intros c ->.
  - unfold paragraphs in Hnil. apply fmap_nil_inv in Hnil.
    apply Forall_forall. intros p Hp.
    apply strip_nil_iff, truthy_false.
    destruct (truthy (strip p)) eqn:Ht; [|done].
    assert (Hin : p ∈ filter (λ p, truthy (strip p) = true) (re_split blank_lines text))
      by (by apply list_elem_of_filter).
    rewrite Hnil in Hin. by apply elem_of_nil in Hin.
Qed.

(** *** What a heading is *)

(** The character before position [pos]. *)
Definition before (text : pystr) (pos : nat) : option N :=
  match pos with
  | O => None
  | S p => text !! p
  end.

(** A match reported by a scan is a match of the pattern at its start. *)
Lemma scan_match pat text prev s pos skip m :
  drop pos text = s → prev = before text pos →
  m ∈ scan pat prev s pos skip →
  match_here pat (before text (m_start m)) (drop (m_start m) text)
  = Some ((m_end m - m_start m)%nat, groups m).
Proof.
  revert prev pos skip. induction s as [|c s IH]; intros prev pos skip Hs Hprev.
  - cbn [scan]. destruct skip; [|by intros ?%elem_of_nil].
    destruct (match_here pat prev []) as [[n gs]|] eqn:Hm; [|by intros ?%elem_of_nil].
    intros ->%list_elem_of_singleton. cbn.
    rewrite Hs, <- Hprev, Hm. do 2 f_equal. lia.
  - assert (Hs' : drop (S pos) text = s).
    { pose proof (drop_drop text 1 pos) as H. rewrite Hs, Nat.add_1_r in H. by cbn in H. }
    assert (Hc : Some c = before text (S pos)).
    { cbn. pose proof (lookup_drop text pos 0) as H.
      rewrite Hs, Nat.add_0_r in H. by cbn in H. }
    cbn [scan]. destruct skip; [|by apply IH].
    destruct (match_here pat prev (c :: s)) as [[n gs]|] eqn:Hm; [|by apply IH].
    intros [->|Hin]%elem_of_cons; [|by eapply IH].
    cbn. rewrite Hs, <- Hprev, Hm. do 2 f_equal. lia.
Qed.

Lemma span_le cls n s : (span cls (Some n) s ≤ n)%nat.
Proof.
  revert n. induction s as [|c s IH]; intros [|n]; cbn; try lia.
  destruct (cls c); [|lia]. specialize (IH n). lia.
Qed.

(** What the heading pattern matches at the start of [s]: one to three
    [#], then whitespace, then characters other than line feeds, up to the
    end of a line. *)
Lemma match_here_heading prev s n gs :
  match_here heading_pattern prev s = Some (n, gs) →
  at_bol prev = true
  ∧ ∃ hashes ws title,
      take n s = hashes ++ ws ++ title
      ∧ n = length (hashes ++ ws ++ title)
      ∧ gs = [hashes; title]
      ∧ (1 ≤ length hashes ≤ 3)%nat ∧ Forall (λ c, c = HASH) hashes
      ∧ ws ≠ [] ∧ blank ws
      ∧ title ≠ [] ∧ (LF ∉ title)
      ∧ at_eol (drop n s) = true.
Proof.
  unfold heading_pattern. cbn [match_here].
  destruct (at_bol prev); [|done]. split; [done|].
  apply try_down_Some_bound in H as (k1&Hk1&H).
  destruct (try_down _ 1 (span isspace None (drop k1 s))) as [[n2 gs2]|] eqn:H2; [|done].
  cbn in H. injection H as <- <-.
  apply try_down_Some_bound in H2 as (k2&Hk2&H2).
  destruct (try_down _ 1 (span _ None (drop k2 (drop k1 s)))) as [[n3 gs3]|] eqn:H3;
    [|done].
  cbn in H2. injection H2 as <- <-.
  apply try_down_Some_bound in H3 as (k3&Hk3&H3).
  destruct (at_eol (drop k3 (drop k2 (drop k1 s)))) eqn:Heol; [|done].
  cbn in H3. injection H3 as <- <-.
  pose proof (span_le (λ c, (c =? HASH)%N) 3 s) as Hspan3.
  destruct (span_take _ _ _ _ (proj2 Hk1)) as [Hl1 Ha1].
  destruct (span_take _ _ _ _ (proj2 Hk2)) as [Hl2 Ha2].
  destruct (span_take _ _ _ _ (proj2 Hk3)) as [Hl3 Ha3].
  rewrite !length_drop in *.
  exists (take k1 s), (take k2 (drop k1 s)), (take k3 (drop k2 (drop k1 s))).
  rewrite Nat.add_0_r.
  split; [by rewrite <- !take_take_drop|].
  split; [rewrite !length_app, !length_take, !length_drop; lia|].
  split; [done|].
  split; [rewrite length_take; lia|].
  split; [eapply Forall_impl; [exact Ha1|]; by intros c ?%N.eqb_eq|].
  split; [intros Hnil%(f_equal length); rewrite length_take, length_drop in Hnil; cbn in Hnil; lia|].
  split; [done|].
  split; [intros Hnil%(f_equal length); rewrite length_take, !length_drop in Hnil; cbn in Hnil; lia|].
  split.
  - intros Hin. rewrite Forall_forall in Ha3. apply Ha3 in Hin. by cbn in Hin.
  - by rewrite !drop_drop in *.
Qed.

(** X16. Every heading [_split_by_headings] finds: it starts at the beginning
    of the text or right after a line feed, with one to three [#]
    (group 1); then comes whitespace, which may include line feeds; then
    the title (group 2), which is not empty and has no line feed; and the
    match ends at the end of the text or before a line feed. *)
Theorem heading_shape text m :
  m ∈ finditer heading_pattern text →
  (m_start m = 0%nat ∨ text !! (m_start m - 1)%nat = Some LF)
  ∧ ∃ hashes ws title,
      slice text (m_start m) (m_end m) = hashes ++ ws ++ title
      ∧ groups m = [hashes; title]
      ∧ (1 ≤ length hashes ≤ 3)%nat ∧ Forall (λ c, c = HASH) hashes
      ∧ ws ≠ [] ∧ blank ws
      ∧ title ≠ [] ∧ (LF ∉ title)
      ∧ (text !! m_end m = None ∨ text !! m_end m = Some LF).
Proof.
  intros Hm. apply (scan_match _ text) in Hm; [|done..].
  apply match_here_heading in Hm
    as (Hbol&hashes&ws&title&Htake&Hlen&Hgs&Hh&Hhash&Hws&Hblank&Ht&Hlf&Heol).
  split.
  { destruct (m_start m) as [|p]; [by left|right]. cbn in Hbol |- *.
    rewrite Nat.sub_0_r. destruct (text !! p) eqn:Hp.
    - by apply N.eqb_eq in Hbol as ->.
    - apply lookup_ge_None in Hp. rewrite drop_ge, take_nil in Htake by lia.
      destruct hashes; [cbn in Hh; lia|done]. }
  exists hashes, ws, title.
  assert (Hle : (m_start m < m_end m)%nat).
  { destruct hashes; cbn in Hh, Hlen; lia. }
  split; [done|]. split; [done|]. split; [done|]. split; [done|].
  split; [done|]. split; [done|]. split; [done|]. split; [done|].
  rewrite drop_drop in Heol.
  replace (m_start m + (m_end m - m_start m))%nat with (m_end m) in Heol by lia.
  pose proof (lookup_drop text (m_end m) 0) as Hl. rewrite Nat.add_0_r in Hl.
  destruct (drop (m_end m) text) as [|c rest]; cbn in Hl, Heol.
  - left. exact (eq_sym Hl).
  - right. apply N.eqb_eq in Heol as ->. exact (eq_sym Hl).
Qed.

Section Laws.

Variables chunk_size chunk_overlap : Z.

Abbreviation _sliding_window := (Chunker._sliding_window chunk_size chunk_overlap).
Abbreviation window_step := (Chunker.window_step chunk_size chunk_overlap).
Abbreviation chunk := (Chunker.chunk chunk_size chunk_overlap).
Abbreviation section_chunks := (ChunkerProofs.section_chunks chunk_size chunk_overlap).
Abbreviation all_chunks := (ChunkerProofs.all_chunks chunk_size chunk_overlap).

(** X17. Text without a [#] has no heading: it is one section without a title,
    the text as it is; and if it is not all-whitespace and its estimate is
    within [chunk_size], [chunk] gives one chunk, numbered 0, with the
    trimmed text and the estimate of the untrimmed text. *)
Theorem no_hash_one_section text :
  HASH ∉ text →
  _split_by_headings text = Ok [(None, text)]
  ∧ (¬ blank text → _estimate_tokens text ≤ chunk_size →
     chunk text
     = Ok [{| index := 0; text := strip text; page := None; section := None;
              tokens := Some (_estimate_tokens text) |}]).
Proof.
  intros Hn.
  assert (Hs : _split_by_headings text = Ok [(None, text)]).
  { apply _split_by_headings_none. by apply scan_no_hash. }
  split; [done|]. intros Hb Hle.
  rewrite (chunk_sections chunk_size chunk_overlap text _ Hb Hs).
  cbn [ChunkerProofs.all_chunks]. rewrite section_chunks_small by done.
  by rewrite app_nil_r.
Qed.

(** *** Every section gives chunks *)

Lemma _sliding_window_nonempty body : ¬ blank body → _sliding_window body ≠ [].
Proof.
  intros Hp%paragraphs_nonempty. rewrite _sliding_window_unfold.
  pose proof (win_inv_fold chunk_size chunk_overlap (paragraphs body) []
                (window_init) (win_inv_init)) as HI.
  cbn [app] in HI. destruct HI as [_ _ Hne _].
  apply Hne, truthy_true in Hp. rewrite Hp. by intros [? ?]%app_eq_nil.
Qed.

Lemma section_chunks_nonempty i title body :
  ¬ blank body → section_chunks i (title, body) ≠ [].
Proof.
  intros Hb.
  destruct (Z.le_gt_cases (_estimate_tokens body) chunk_size) as [Hle|Hlt].
  - by rewrite section_chunks_small.
  - rewrite section_chunks_large by done.
    intros H%(f_equal length). rewrite length_imap in H.
    by apply nil_length_inv, _sliding_window_nonempty in H.
Qed.

Lemma section_chunks_section i sec c :
  c ∈ section_chunks i sec → section c = sec.1.
Proof.
  destruct sec as [title body].
  destruct (Z.le_gt_cases (_estimate_tokens body) chunk_size) as [Hle|Hlt].
  - rewrite section_chunks_small by done. by intros ->%list_elem_of_singleton.
  - rewrite section_chunks_large by done.
    by intros (k & w & -> & _)%elem_of_lookup_imap.
Qed.

(** The chunks of a run of sections, section by section. *)
Fixpoint chunk_groups (i : Z) (secs : list (option pystr * pystr))
  : list (list DocumentChunk) :=
  match secs with
  | [] => []
  | sec :: rest =>
      section_chunks i sec
      :: chunk_groups (i + Z.of_nat (length (section_chunks i sec))) rest
  end.

Lemma all_chunks_groups i secs : all_chunks i secs = concat (chunk_groups i secs).
Proof.
  revert i. induction secs as [|sec secs IH]; intros i; [done|].
  cbn. by rewrite IH.
Qed.

Lemma chunk_groups_spec i secs :
  Forall (λ sec, ¬ blank sec.2) secs →
  Forall2 (λ g sec, g ≠ [] ∧ Forall (λ c, section c = sec.1) g)
    (chunk_groups i secs) secs.
Proof.
  revert i. induction secs as [|[title body] secs IH]; intros i; [constructor|].
  intros [Hb Hrest]%Forall_cons. cbn [chunk_groups]. constructor; [|by apply IH].
  split; [by apply section_chunks_nonempty|].
  apply Forall_forall. intros c Hc. by apply section_chunks_section in Hc.
Qed.

(** X18. No section is lost and the order is kept: the chunks [chunk] returns
    are, section after section in the order of the text, one or more chunks
    that carry the title of the section. *)
Theorem every_section_chunked text secs :
  ¬ blank text → _split_by_headings text = Ok secs →
  ∃ groups,
    chunk text = Ok (concat groups)
    ∧ Forall2 (λ g sec, g ≠ [] ∧ Forall (λ c, section c = sec.1) g) groups secs.
Proof.
  intros Hb Hs. exists (chunk_groups 0 secs). split.
  - rewrite <- all_chunks_groups. by apply chunk_sections.
  - apply chunk_groups_spec. by eapply _split_by_headings_bodies.
Qed.

(** X19. [chunk] returns no chunk exactly on all-whitespace text and on text
    whose heading segmentation has no section. *)
Theorem chunk_nil_iff text :
  chunk text = Ok [] ↔ blank text ∨ _split_by_headings text = Ok [].
Proof.
  destruct (decide (blank text)) as [Hb|Hb].
  { split; [by left|]. intros _. by apply chunk_blank. }
  destruct (_split_by_headings_total text) as [secs Hs].
  pose proof (chunk_sections chunk_size chunk_overlap text secs Hb Hs) as Hc.
  rewrite all_chunks_groups in Hc.
  pose proof (chunk_groups_spec 0 secs (_split_by_headings_bodies text secs Hb Hs)) as Hg.
  rewrite Hc, Hs. split.
  - intros [= Hnil]. right. f_equal.
    destruct Hg as [|g sec groups secs [Hne _] _]; [done|].
    cbn in Hnil. by apply app_eq_nil in Hnil as [? _].
  - intros [?|[= ->]]; [done|]. by apply Forall2_nil_inv_r in Hg as ->.
Qed.

Lemma all_chunks_elem i secs c :
  c ∈ all_chunks i secs → ∃ i' sec, sec ∈ secs ∧ c ∈ section_chunks i' sec.
Proof.
  revert i. induction secs as [|sec secs IH]; intros i; cbn.
  - by intros ?%elem_of_nil.
  - intros [Hc|Hc]%elem_of_app.
    + exists i, sec. split; [by left|done].
    + destruct (IH _ Hc) as (i'&sec'&?&?). exists i', sec'. split; [by right|done].
Qed.

(** X20. The fields of a chunk [chunk] returns: no page; a text that is not
    empty and neither starts nor ends with whitespace; a token count that is
    the estimate of the chunk's text, except for the single chunk of a text
    without headings, whose count is the estimate of the whole untrimmed
    text, which is no smaller. *)
Theorem chunk_fields text chunks c :
  chunk text = Ok chunks → c ∈ chunks →
  page c = None
  ∧ Chunker.text c ≠ []
  ∧ trimmed (Chunker.text c)
  ∧ ∃ t, tokens c = Some t
      ∧ 1 ≤ _estimate_tokens (Chunker.text c) ≤ t
      ∧ (t = _estimate_tokens (Chunker.text c)
         ∨ (chunks = [c] ∧ section c = None ∧ t = _estimate_tokens text)).
Proof.
  destruct (decide (blank text)) as [Hb|Hb].
  { rewrite chunk_blank by done. by intros [= <-] ?%elem_of_nil. }
  destruct (_split_by_headings_total text) as [secs Hs].
  rewrite (chunk_sections chunk_size chunk_overlap text _ Hb Hs).
  intros [= <-] Hc.
  pose proof (_split_by_headings_bodies text secs Hb Hs) as Hbodies.
  destruct (all_chunks_elem _ _ _ Hc) as (i&[title body]&Hsec&Hin).
  assert (Hbody : ¬ blank body)
    by (by apply (proj1 (Forall_forall _ _) Hbodies) in Hsec).
  destruct (Z.le_gt_cases (_estimate_tokens body) chunk_size) as [Hle|Hlt].
  - rewrite section_chunks_small in Hin by done.
    apply list_elem_of_singleton in Hin as ->. cbn.
    split; [done|]. split; [by rewrite strip_nil_iff|]. split; [apply strip_trimmed|].
    exists (_estimate_tokens body). split; [done|].
    split; [split; [apply _estimate_tokens_pos|
                    apply _estimate_tokens_mono, length_strip]|].
    destruct (finditer heading_pattern text) as [|m0 ms] eqn:Hms.
    + right. rewrite _split_by_headings_none in Hs by done.
      injection Hs as <-. apply list_elem_of_singleton in Hsec as [= -> ->].
      cbn [ChunkerProofs.all_chunks] in Hc |- *.
      rewrite section_chunks_small, app_nil_r in Hc |- * by done.
      apply list_elem_of_singleton in Hc. by rewrite Hc.
    + left. rewrite _split_by_headings_spec in Hs by (by rewrite Hms).
      injection Hs as <-. rewrite Hms in Hsec.
      apply list_elem_of_filter in Hsec as [_ Hsec].
      assert (Hstrip : ∃ x, body = strip x).
      { unfold candidates in Hsec.
        apply elem_of_cons in Hsec as [[= _ ->]|Hsec]; [by eexists|].
        apply elem_of_lookup_imap in Hsec as (k & m & [= _ ->] & _). by eexists. }
      destruct Hstrip as [x ->]. by rewrite (trimmed_strip _ (strip_trimmed x)).
  - rewrite section_chunks_large in Hin by done.
    apply elem_of_lookup_imap in Hin as (k & w & -> & Hw). cbn.
    apply list_elem_of_lookup_2 in Hw.
    destruct (_sliding_window_trimmed chunk_size chunk_overlap body w Hw) as [Hsw Hnb].
    rewrite Hsw. split; [done|].
    split; [intros ->; apply Hnb; constructor|].
    split; [rewrite <- Hsw; apply strip_trimmed|].
    exists (_estimate_tokens w). split; [done|].
    split; [split; [apply _estimate_tokens_pos|lia]|by left].
Qed.

(** *** The windows of a section *)

(** A window as the loop builds it: the paragraphs carried over from the
    window before, and the new ones. *)
Definition window_paras (s : list pystr * list pystr) : list pystr := s.1 ++ s.2.

(** What window [k] starts from: nothing for the first window, else what
    the overlap loop keeps of the window before. *)
Definition carried_from (segs : list (list pystr * list pystr)) (k : nat) : list pystr :=
  match k with
  | O => []
  | S k' => default [] (overlap_of chunk_overlap ∘ window_paras <$> segs !! k')
  end.

Definition window_ok (segs : list (list pystr * list pystr)) (k : nat)
    (s : list pystr * list pystr) : Prop :=
  s.2 ≠ []
  ∧ s.1 = carried_from segs k
  ∧ (sum_tokens (window_paras s) ≤ chunk_size ∨ length s.2 = 1%nat).

Lemma carried_from_app segs more k :
  (k ≤ length segs)%nat → carried_from (segs ++ more) k = carried_from segs k.
Proof.
  intros Hk. destruct k as [|k]; [done|]. cbn.
  by rewrite lookup_app_l by lia.
Qed.

(** The state of the loop of [_sliding_window] after the paragraphs
    [processed]: the windows flushed so far, and the open one. *)
Record windows_built (processed : list pystr) (st : window_state)
    (segs : list (list pystr * list pystr)) (carry news : list pystr) : Prop := {
  wb_windows : windows st = join PARA_SEP ∘ window_paras <$> segs;
  wb_current : current_paras st = carry ++ news;
  wb_tokens : current_tokens st = sum_tokens (carry ++ news);
  wb_processed : concat (snd <$> segs) ++ news = processed;
  wb_news : news = [] → carry = [] ∧ segs = [];
  wb_carry : carry = carried_from segs (length segs);
  wb_segs : ∀ k s, segs !! k = Some s → window_ok segs k s;
  wb_bound : sum_tokens (carry ++ news) ≤ chunk_size ∨ (length news ≤ 1)%nat;
}.

Lemma windows_built_init : windows_built [] window_init [] [] [].
Proof. split; cbn; try done. right; lia. Qed.

Lemma windows_built_step processed st segs carry news para :
  windows_built processed st segs carry news →
  ∃ segs' carry' news',
    windows_built (processed ++ [para]) (window_step st para) segs' carry' news'
    ∧ news' ≠ [].
Proof.
  intros [Hw Hc Ht Hp Hn Hcar Hsegs Hb].
  destruct (decide (current_paras st = [])) as [Hnil|Hcur];
    [|destruct (Z.le_gt_cases (current_tokens st + _estimate_tokens para) chunk_size)
        as [Hle|Hgt]].
  - (* the first paragraph *)
    rewrite Hc in Hnil. apply app_eq_nil in Hnil as [-> ->].
    exists segs, [], [para]. split; [|done].
    rewrite window_step_keep by (left; by rewrite Hc).
    split; cbn [windows current_paras current_tokens app].
    + done.
    + by rewrite Hc.
    + rewrite Ht. unfold sum_tokens. cbn. lia.
    + by rewrite <- Hp, app_nil_r.
    + done.
    + done.
    + done.
    + right. cbn. lia.
  - (* the paragraph fits *)
    exists segs, carry, (news ++ [para]). split; [|by destruct news].
    rewrite window_step_keep by (by right).
    split; cbn [windows current_paras current_tokens].
    + done.
    + by rewrite Hc, app_assoc.
    + rewrite Ht, app_assoc, (sum_tokens_app (carry ++ news)), sum_tokens_cons.
      cbn. lia.
    + by rewrite <- Hp, app_assoc.
    + by intros [? ?]%app_eq_nil.
    + done.
    + done.
    + left. rewrite app_assoc, sum_tokens_app, <- Ht, sum_tokens_cons. cbn. lia.
  - (* the window is flushed *)
    assert (Hnews : news ≠ []).
    { intros Hnil. destruct (Hn Hnil) as [-> _]. by rewrite Hc, Hnil in Hcur. }
    exists (segs ++ [(carry, news)]), (overlap_of chunk_overlap (carry ++ news)), [para].
    split; [|done].
    rewrite window_step_flush by done.
    split; cbn [windows current_paras current_tokens].
    + by rewrite Hw, Hc, fmap_app.
    + by rewrite Hc.
    + rewrite Hc, sum_tokens_app, sum_tokens_cons. cbn. lia.
    + rewrite fmap_app, concat_app. cbn. by rewrite app_nil_r, Hp.
    + done.
    + rewrite length_app, Nat.add_1_r. cbn.
      by rewrite list_lookup_middle.
    + intros k s [[Hk Hs]|[-> <-]]%lookup_snoc_Some.
      * destruct (Hsegs k s Hs) as (?&?&?). split; [done|]. split; [|done].
        rewrite carried_from_app by lia. done.
      * split; [done|]. split; [by rewrite carried_from_app|].
        destruct Hb as [Hb|Hb]; [by left|right]. cbn.
        destruct news as [|? [|]]; cbn in *; [done|done|lia].
    + right. cbn. lia.
Qed.

Lemma windows_built_fold ps processed st segs carry news :
  windows_built processed st segs carry news →
  ∃ segs' carry' news',
    windows_built (processed ++ ps) (fold_left window_step ps st) segs' carry' news'.
Proof.
  revert processed st segs carry news.
  induction ps as [|p ps IH]; intros processed st segs carry news HI.
  - exists segs, carry, news. by rewrite app_nil_r.
  - cbn [fold_left]. rewrite (cons_middle p processed ps), app_assoc.
    destruct (windows_built_step _ _ _ _ _ p HI) as (segs1&carry1&news1&HI1&_).
    by eapply IH.
Qed.

(** X21. The windows of [_sliding_window], in order.  Each is the paragraphs
    carried over from the window before, followed by one or more new
    paragraphs, joined by blank lines.  The new paragraphs of all the
    windows, in order, are the paragraphs of the section: none is lost, none
    is new twice, the order is kept.  The first window carries nothing over;
    a later one carries what the overlap loop keeps of the window before,
    which is nothing or paragraphs within [chunk_overlap].  The estimates of
    a window's paragraphs add up to at most [chunk_size], unless the window
    has a single new paragraph. *)
Theorem sliding_window_structure (section_text : pystr) :
  ∃ segs : list (list pystr * list pystr),
    _sliding_window section_text = (λ s, join PARA_SEP (s.1 ++ s.2)) <$> segs
    ∧ concat (snd <$> segs) = paragraphs section_text
    ∧ ∀ k s, segs !! k = Some s →
        s.2 ≠ []
        ∧ s.1 = carried_from segs k
        ∧ (s.1 = [] ∨ sum_tokens s.1 ≤ chunk_overlap)
        ∧ (sum_tokens (s.1 ++ s.2) ≤ chunk_size ∨ length s.2 = 1%nat).
Proof.
  destruct (windows_built_fold (paragraphs section_text) [] window_init [] [] []
              windows_built_init)
    as (segs&carry&news&[Hw Hc Ht Hp Hn Hcar Hsegs Hb]).
  cbn [app] in Hp.
  assert (Hall : ∃ segs', _sliding_window section_text = join PARA_SEP ∘ window_paras <$> segs'
                   ∧ concat (snd <$> segs') = paragraphs section_text
                   ∧ ∀ k s, segs' !! k = Some s → window_ok segs' k s).
  { rewrite _sliding_window_unfold. cbn zeta. rewrite Hw, Hc.
    destruct news as [|p news].
    - destruct (Hn eq_refl) as [-> ->]. exists []. cbn. by rewrite <- Hp.
    - exists (segs ++ [(carry, p :: news)]).
      assert (truthy (carry ++ p :: news) = true) as ->
        by (apply truthy_true; by destruct carry).
      split; [by rewrite fmap_app|].
      split; [rewrite fmap_app, concat_app; cbn; by rewrite app_nil_r|].
      intros k s [[Hk Hs]|[-> <-]]%lookup_snoc_Some.
      + destruct (Hsegs k s Hs) as (?&?&?). split; [done|]. split; [|done].
        by rewrite carried_from_app by lia.
      + split; [done|]. split; [by rewrite carried_from_app|].
        destruct Hb as [Hb|Hb]; [by left|right]. cbn in *.
        destruct news; cbn in *; [done|lia]. }
  destruct Hall as (segs'&Hwin&Hcat&Hok). exists segs'.
  split; [done|]. split; [done|].
  intros k s Hs. destruct (Hok k s Hs) as (Hne&Hcarry&Hbound).
  split; [done|]. split; [done|]. split; [|done].
  rewrite Hcarry. destruct k as [|k]; [by left|]. cbn.
  destruct (segs' !! k) as [s'|]; [cbn|by left].
  by destruct (overlap_of_spec chunk_overlap (window_paras s')) as (_&_&_&?&_).
Qed.

End Laws.


(** *** Concrete texts *)

Lemma no_hash_one_section_witness :
  (HASH ∉ str "plain text")
  ∧ ¬ blank (str "plain text")
  ∧ _estimate_tokens (str "plain text") ≤ 512
  ∧ chunk 512 64 (str "plain text")
    = Ok [{| index := 0; text := str "plain text"; page := None; section := None;
             tokens := Some 2 |}].
Proof.
  assert (H1 : HASH ∉ str "plain text") by (apply (bool_decide_unpack _); by vm_compute).
  assert (H2 : ¬ blank (str "plain text")) by (intros Hb; by inversion Hb).
  assert (H3 : _estimate_tokens (str "plain text") ≤ 512) by (by vm_compute).
  split; [exact H1|]. split; [exact H2|]. split; [exact H3|].
  destruct (no_hash_one_section 512 64 (str "plain text") H1) as [_ Hc].
  rewrite (Hc H2 H3). by vm_compute.
Defined.

Lemma every_section_chunked_witness :
  ¬ blank two_sections
  ∧ _split_by_headings two_sections = Ok (two_sections_preamble ++ two_sections_headed)
  ∧ ∃ groups,
      chunk 2 1 two_sections = Ok (concat groups) ∧ length groups = 3%nat.
Proof.
  assert (H1 : ¬ blank two_sections) by (intros Hb; by inversion Hb).
  assert (H2 : _split_by_headings two_sections
               = Ok (two_sections_preamble ++ two_sections_headed)) by (by vm_compute).
  split; [exact H1|]. split; [exact H2|].
  destruct (every_section_chunked 2 1 two_sections _ H1 H2) as (groups&Hc&Hg).
  exists groups. split; [exact Hc|]. by rewrite (Forall2_length _ _ _ Hg).
Defined.

Lemma chunk_fields_witness :
  chunk 2 1 two_sections = Ok two_sections_chunks
  ∧ Forall (λ c, page c = None ∧ trimmed (text c)) two_sections_chunks.
Proof.
  assert (H : chunk 2 1 two_sections = Ok two_sections_chunks) by (by vm_compute).
  split; [exact H|].
  apply Forall_forall. intros c Hc.
  destruct (chunk_fields 2 1 two_sections _ c H Hc) as (Hp&_&Ht&_). by split.
Defined.

(** The first heading of the text of two sections. *)
Definition first_heading : re_match :=
  {| m_start := 6; m_end := 9; groups := [str "#"; str "A"] |}.

Lemma heading_shape_witness :
  first_heading ∈ finditer heading_pattern two_sections
  ∧ two_sections !! (m_start first_heading - 1)%nat = Some LF.
Proof.
  assert (H : first_heading ∈ finditer heading_pattern two_sections).
  { apply (list_elem_of_lookup_2 _ 0%nat). by vm_compute. }
  split; [exact H|].
  by destruct (heading_shape two_sections first_heading H) as ([Hz|Hlf]&_).
Defined.

End ChunkerLaws.

(** ** Part VIII: time stamps *)

Module MediaProofs.
Import Media.

(** Two decimal digits. *)
Definition two_digits (z : Z) : string :=
  String (pretty_N_char (Z.to_N (z / 10)))
    (String (pretty_N_char (Z.to_N (z mod 10))) EmptyString).

Lemma format_02d_two_digits z : 0 ≤ z < 100 → format_02d z = two_digits z.
Proof.
  intros Hz.
  assert (Hall : Forall (λ z, format_02d z = two_digits z) (seqZ 0 100))
    by (apply (bool_decide_unpack _); by vm_compute).
  rewrite Forall_forall in Hall. apply Hall, elem_of_seqZ. lia.
Qed.

(** X22. For a time whose whole seconds [n] are from 0 to below 100 hours,
    [_fmt_time] gives the eight characters HH:MM:SS of [n]: hours
    [n // 3600], minutes [(n // 60) % 60] and seconds [n % 60], two digits
    each; the fraction of a second is dropped. *)
Theorem fmt_time_hms (seconds : float) (n : Z) :
  int seconds = Some n → 0 ≤ n < 360000 →
  _fmt_time seconds
  = Some (two_digits (n / 3600) +:+ ":" +:+ two_digits (n / 60 mod 60) +:+ ":"
          +:+ two_digits (n mod 60))%string
  ∧ (n / 3600) * 3600 + (n / 60 mod 60) * 60 + n mod 60 = n.
Proof.
  intros Hn Hr. unfold _fmt_time. rewrite Hn. cbn [mbind option_bind].
  assert (Hh : n / 60 / 60 = n / 3600) by (rewrite Z.div_div by lia; done).
  pose proof (Z.mod_pos_bound n 60 ltac:(lia)) as Hs.
  pose proof (Z.mod_pos_bound (n / 60) 60 ltac:(lia)) as Hm.
  assert (Hhr : 0 ≤ n / 60 / 60 < 100).
  { rewrite Hh. split; [apply Z.div_pos; lia|apply Z.div_lt_upper_bound; lia]. }
  rewrite !format_02d_two_digits by lia. rewrite Hh.
  split; [done|].
  pose proof (Z.div_mod n 60 ltac:(lia)).
  pose proof (Z.div_mod (n / 60) 60 ltac:(lia)). lia.
Qed.

Lemma fmt_time_hms_witness :
  int 3725.5%float = Some 3725
  ∧ 0 ≤ 3725 < 360000
  ∧ _fmt_time 3725.5%float = Some "01:02:05"%string.
Proof.
  assert (H1 : int 3725.5%float = Some 3725) by (by vm_compute).
  assert (H2 : 0 ≤ 3725 < 360000) by lia.
  split; [exact H1|]. split; [exact H2|].
  by destruct (fmt_time_hms 3725.5%float 3725 H1 H2) as [-> _].
Defined.

End MediaProofs.

(** ** Part IX: the crawled URL *)

Module WebProofs.
Import Chunker ChunkerProofs Web.

Lemma startswith_app prefix s : startswith (prefix ++ s) prefix = true.
Proof.
  induction prefix as [|p prefix IH]; [by destruct s|]. cbn. by rewrite N.eqb_refl, IH.
Qed.

Lemma https_chars : str "https://" = [104; 116; 116; 112; 115; 58; 47; 47]%N.
Proof. by vm_compute. Qed.

Lemma https_trimmed url : trimmed url → trimmed (str "https://" ++ url).
Proof.
  intros [_ Hl]. rewrite https_chars. split; intros c.
  - by intros [= <-].
  - rewrite last_app. destruct (last url) eqn:Hlast; [apply Hl|by intros [= <-]].
Qed.

(** X23. The URL [parse] crawls: it always begins with one of the four
    schemes; it neither starts nor ends with whitespace; a URL that has a
    scheme once trimmed is crawled as trimmed, any other gets [https://] in
    front; and fixing a fixed URL changes nothing. *)
Theorem parse_url_scheme (url : pystr) :
  existsb (startswith (parse_url url)) schemes = true
  ∧ trimmed (parse_url url)
  ∧ parse_url url
    = (if existsb (startswith (strip url)) schemes then strip url
       else str "https://" ++ strip url)
  ∧ parse_url (parse_url url) = parse_url url.
Proof.
  assert (Hfix : ∀ u, trimmed u → existsb (startswith u) schemes = true →
                   parse_url u = u).
  { intros u Ht Hs. unfold parse_url. rewrite (trimmed_strip u Ht). by rewrite Hs. }
  assert (Hval : parse_url url
                 = (if existsb (startswith (strip url)) schemes then strip url
                    else str "https://" ++ strip url)).
  { unfold parse_url. by destruct (existsb _ _). }
  rewrite !Hval.
  destruct (existsb (startswith (strip url)) schemes) eqn:Hs.
  - split; [done|]. split; [apply strip_trimmed|]. split; [done|].
    apply Hfix; [apply strip_trimmed|done].
  - assert (Hh : existsb (startswith (str "https://" ++ strip url)) schemes = true).
    { unfold schemes. cbn [existsb]. rewrite (startswith_app (str "https://")).
      by rewrite orb_true_r. }
    pose proof (https_trimmed _ (strip_trimmed url)) as Ht.
    split; [done|]. split; [done|]. split; [done|]. by apply Hfix.
Qed.

End WebProofs.
